(** * PostHog plugin server: ingestion, plugin lifecycle, identity and locking

  A shallow embedding of the parts of the plugin server that its
  specification makes claims about, followed by the theorems that settle
  those claims.

  Conventions.
  - JavaScript numbers that the code uses as counters, identifiers,
    orders and millisecond values are integers here ([Z]).
  - A JavaScript object used as an open map is a [gmap string _];
    object spread is the right-biased union of the maps.
  - Postgres tables are lists of rows in table order.
  - An [async] function is a computation in the monad [Async.M]; a call
    that the source awaits is [Async.await], a call whose promise the
    source drops is [Async.fire]. *)

From Stdlib Require Import ZArith List String Ascii Bool Lia Permutation Sorted.
From stdpp Require Import base option list gmap strings fin_maps pretty.

Local Open Scope string_scope.
Local Open Scope list_scope.
Local Open Scope Z_scope.

(* ===================================================================== *)
(** * Part I. The program                                                 *)
(* ===================================================================== *)

(** ** JavaScript values and built-ins used by the sources *)

Module Js.

(** Primitive values, opaque object references, and the values that
    every plain object inherits from [Object.prototype], each named by
    the key under which it is found. *)
Inductive JsVal : Type :=
  | JUndefined
  | JNull
  | JBool (b : bool)
  | JNum (z : Z)
  | JStr (s : string)
  | JObj (ref : nat)
  | JInherited (name : string).

#[global] Instance JsVal_eq_dec : EqDecision JsVal.
Proof. solve_decision. Defined.

(** An open map (a plain object with string keys). *)
Abbreviation Properties := (gmap string JsVal).

(** [ToBoolean]. *)
Definition truthy (v : JsVal) : bool :=
  match v with
  | JUndefined | JNull => false
  | JBool b => b
  | JNum z => negb (z =? 0)
  | JStr s => negb (String.eqb s "")
  | JObj _ => true
  | JInherited _ => true
  end.

(** [typeof v]. *)
Definition typeof (v : JsVal) : string :=
  match v with
  | JUndefined => "undefined"
  | JNull => "object"
  | JBool _ => "boolean"
  | JNum _ => "number"
  | JStr _ => "string"
  | JObj _ => "object"
  | JInherited name =>
      (* the prototype object itself, or one of its methods *)
      if String.eqb name "__proto__" then "object" else "function"
  end.

(** [a === b]. *)
Definition strict_eq (a b : JsVal) : bool := bool_decide (a = b).

(** Names a plain object inherits from [Object.prototype]; [k in obj] is
    true for each of them, and [obj[k]] reads the inherited value unless
    the object has a property of its own under the name. *)
Definition object_inherited_names : list string :=
  [ "constructor"; "hasOwnProperty"; "isPrototypeOf"; "propertyIsEnumerable";
    "toLocaleString"; "toString"; "valueOf"; "__proto__";
    "__defineGetter__"; "__defineSetter__"; "__lookupGetter__";
    "__lookupSetter__" ].

Definition inherited (k : string) : bool :=
  existsb (String.eqb k) object_inherited_names.

(** [obj[key]] on a plain object: the object's own property, else what it
    inherits under the name, else [undefined]. *)
Definition get (o : Properties) (k : string) : JsVal :=
  match o !! k with
  | Some v => v
  | None => if inherited k then JInherited k else JUndefined
  end.

(** [{ ...a, ...b }]: the keys of [b] override those of [a]. *)
Definition spread2 (a b : Properties) : Properties := b ∪ a.

(** [{ ...a, ...b, ...c }]. *)
Definition spread3 (a b c : Properties) : Properties := spread2 (spread2 a b) c.

(** [Array.prototype.sort(cmp)]: the sort is stable; an element moves in
    front of another only when the comparator is positive the other way
    round. *)
Fixpoint sort_insert {A} (cmp : A -> A -> Z) (x : A) (l : list A) : list A :=
  match l with
  | [] => [x]
  | y :: r => if cmp x y <=? 0 then x :: y :: r else y :: sort_insert cmp x r
  end.

Definition array_sort {A} (cmp : A -> A -> Z) (l : list A) : list A :=
  foldr (sort_insert cmp) [] l.

(** The comparator [(a, b) => key(a) - key(b)]. *)
Definition compare_by {A} (key : A -> Z) (a b : A) : Z := key a - key b.

(** Strictly ascending in the pair of two keys. *)
Definition lex_lt {A} (key key2 : A -> Z) (a b : A) : Prop :=
  key a < key b \/ (key a = key b /\ key2 a < key2 b).

(** Names every array inherits from [Array.prototype] and
    [Object.prototype]; [k in arr] is true for each of them. *)
Definition array_inherited_names : list string :=
  [ "constructor"; "concat"; "copyWithin"; "fill"; "find"; "findIndex";
    "lastIndexOf"; "pop"; "push"; "reverse"; "shift"; "unshift"; "slice";
    "sort"; "splice"; "includes"; "indexOf"; "join"; "keys"; "entries";
    "values"; "forEach"; "filter"; "flat"; "flatMap"; "map"; "every";
    "some"; "reduce"; "reduceRight"; "toLocaleString"; "toString";
    "hasOwnProperty"; "isPrototypeOf"; "propertyIsEnumerable"; "valueOf";
    "__proto__"; "__defineGetter__"; "__defineSetter__";
    "__lookupGetter__"; "__lookupSetter__" ].

(** [k in arr] for an array [arr]: the operator looks [k] up as a
    property name, that is an index below the length, ["length"], or an
    inherited name.  It does not look at the elements. *)
Definition in_array {A} (k : string) (arr : list A) : bool :=
  existsb (fun i => String.eqb k (pretty i)) (seq 0 (length arr))
  || String.eqb k "length"
  || existsb (String.eqb k) array_inherited_names.

(** The outcome of an expression that may throw. *)
Inductive Exc (A : Type) : Type :=
| Ok (a : A)
| Throw (e : string).
Arguments Ok {A} a.
Arguments Throw {A} e.

Definition bindExc {A B} (m : Exc A) (f : A -> Exc B) : Exc B :=
  match m with
  | Ok a => f a
  | Throw e => Throw e
  end.

End Js.

(** ** Plugin set-up (src/plugins/setup.ts) *)

Module Setup.
Import Js.

Record Plugin := mkPlugin {
  p_id : Z;
  p_updated_at : string
}.

Record PluginAttachment := mkPluginAttachment {
  content_type : string;
  file_name : string;
  contents : string
}.

Record PluginAttachmentRow := mkPluginAttachmentRow {
  ar_plugin_config_id : Z;
  ar_key : string;
  ar_attachment : PluginAttachment
}.

(** A row of the plugin-config table.  [r_team_id] may be NULL. *)
Record PluginConfigRow := mkPluginConfigRow {
  r_id : Z;
  r_plugin_id : Z;
  r_team_id : option Z;
  r_order : Z;
  r_updated_at : string
}.

Section WithVm.
(** The compiled VM handle; its content is not inspected here. *)
Context {Vm : Type}.

Record PluginConfig := mkPluginConfig {
  row : PluginConfigRow;
  plugin : Plugin;
  attachments : gmap string PluginAttachment;
  vm : option Vm
}.

Definition id (c : PluginConfig) : Z := r_id (row c).
Definition plugin_id (c : PluginConfig) : Z := r_plugin_id (row c).
Definition order (c : PluginConfig) : Z := r_order (row c).
Definition updated_at (c : PluginConfig) : string := r_updated_at (row c).

Record PluginsServer := mkPluginsServer {
  plugins : gmap Z Plugin;
  pluginConfigs : gmap Z PluginConfig;
  pluginConfigsPerTeam : gmap Z (list PluginConfig)
}.

(** [!row.team_id]: NULL and 0 are falsy. *)
Definition team_of_row (r : PluginConfigRow) : option Z :=
  match r_team_id r with
  | Some t => if t =? 0 then None else Some t
  | None => None
  end.

Definition attachmentsPerConfig (rows : list PluginAttachmentRow)
  : gmap Z (gmap string PluginAttachment) :=
  fold_left
    (fun acc r =>
       let attachments := default ∅ (acc !! ar_plugin_config_id r) in
       <[ar_plugin_config_id r := <[ar_key r := ar_attachment r]> attachments]> acc)
    rows ∅.

(** The config object built for a row, when the row's plugin is known
    to the server; [None] is the [continue] of the loop. *)
Definition config_of_row (server : PluginsServer)
    (atts : gmap Z (gmap string PluginAttachment)) (r : PluginConfigRow)
  : option PluginConfig :=
  match plugins server !! r_plugin_id r with
  | None => None
  | Some pl =>
      Some {| row := r; plugin := pl;
              attachments := default ∅ (atts !! r_id r); vm := None |}
  end.

(** One turn of the loop over the config rows. *)
Definition add_config_row (server : PluginsServer)
    (atts : gmap Z (gmap string PluginAttachment))
    (acc : gmap Z PluginConfig * gmap Z (list PluginConfig))
    (r : PluginConfigRow)
  : gmap Z PluginConfig * gmap Z (list PluginConfig) :=
  match config_of_row server atts r with
  | None => acc
  | Some pc =>
      let configs := <[r_id r := pc]> (fst acc) in
      match team_of_row r with
      | None => (configs, snd acc)
      | Some t =>
          let teamConfigs := default [] (snd acc !! t) in
          (configs, <[t := teamConfigs ++ [pc]]> (snd acc))
      end
  end.

Definition loadPluginsFromDB (server : PluginsServer)
    (pluginRows : list Plugin)
    (pluginAttachmentRows : list PluginAttachmentRow)
    (pluginConfigRows : list PluginConfigRow) : PluginsServer :=
  let plugins' := fold_left (fun m p => <[p_id p := p]> m) pluginRows ∅ in
  let atts := attachmentsPerConfig pluginAttachmentRows in
  let acc := fold_left (add_config_row server atts) pluginConfigRows (∅, ∅) in
  {| plugins := plugins'; pluginConfigs := fst acc;
     pluginConfigsPerTeam := snd acc |}.

(** [loadPlugin] lives in a file that is not part of the sources; it
    is a parameter giving the VM handle it stores in the config. *)
Variable loadPlugin : PluginConfig -> option Vm.

(** The body of the loop that reuses or reloads VMs.  The config
    objects held by the per-team lists are the ones held by
    [pluginConfigs], so the assignment is seen through both. *)
Definition assign_vm (server loaded : PluginsServer) (c : PluginConfig)
  : PluginConfig :=
  let plugin' := plugins loaded !! plugin_id c in
  let prevConfig := pluginConfigs server !! id c in
  let prevPlugin :=
    match prevConfig with
    | Some _ => plugins server !! plugin_id c
    | None => None
    end in
  let reused :=
    match prevConfig with
    | Some prev =>
        if String.eqb (updated_at c) (updated_at prev)
           && bool_decide (p_updated_at <$> plugin' = p_updated_at <$> prevPlugin)
        then vm prev else vm c
    | None => vm c
    end in
  let c' := {| row := row c; plugin := plugin c;
               attachments := attachments c; vm := reused |} in
  match reused with
  | Some _ => c'
  | None => {| row := row c; plugin := plugin c;
               attachments := attachments c; vm := loadPlugin c' |}
  end.

(** The comparator handed to [sort]. *)
Definition by_order (a b : PluginConfig) : Z := order a - order b.

Definition setupPlugins (server : PluginsServer)
    (pluginRows : list Plugin)
    (pluginAttachmentRows : list PluginAttachmentRow)
    (pluginConfigRows : list PluginConfigRow) : PluginsServer :=
  let loaded :=
    loadPluginsFromDB server pluginRows pluginAttachmentRows pluginConfigRows in
  let withVm := assign_vm server loaded in
  {| plugins := plugins loaded;
     pluginConfigs := withVm <$> pluginConfigs loaded;
     pluginConfigsPerTeam :=
       (fun l => array_sort by_order (withVm <$> l))
         <$> pluginConfigsPerTeam loaded |}.

(** The pipeline of a team: its list, or nothing when the team has no
    entry. *)
Definition teamPipeline (server : PluginsServer) (teamId : Z)
  : list PluginConfig :=
  default [] (pluginConfigsPerTeam server !! teamId).

(** The configs a load puts in a team's list, in row order. *)
Definition team_rows (server : PluginsServer)
    (atts : gmap Z (gmap string PluginAttachment))
    (rows : list PluginConfigRow) (teamId : Z) : list PluginConfig :=
  omap (fun r => if bool_decide (team_of_row r = Some teamId)
                 then config_of_row server atts r else None) rows.

End WithVm.

Arguments PluginConfig : clear implicits.
Arguments PluginsServer : clear implicits.

End Setup.

(** ** Pipeline execution *)

Module Pipeline.
Import Setup.

Section WithEvent.
Context {Event : Type}.

(** Modelled from the spec: what a plugin's [processEvent] does with an
    event (spec 4.3: it returns an event, returns [null], or throws). *)
Inductive ProcessResult : Type :=
  | Returned (e : Event)
  | ReturnedNull
  | Threw.

(** Modelled from the spec: a compiled VM, as far as the pipeline looks at
    it; [None] is a VM that does not expose [processEvent]. *)
Record Vm := mkVm {
  processEvent : option (Event -> ProcessResult)
}.

Variable team_id : Event -> Z.

(** Modelled from the spec: the pipeline runner ([runProcessEvent],
    imported from [worker/plugins/run]) is not among the sources.
    Spec 4.3: given an event with team T, fetch the ordered config list
    for T; for each config, wait for the VM; if the VM exposes
    [processEvent], invoke it; a [null] return ends the pipeline and
    drops the event; a throw is recorded and the pipeline goes on with
    the unchanged event.  The second component lists the configs whose
    VM was waited for, in the order of the visits. *)
Fixpoint runConfigs (configs : list (PluginConfig Vm)) (event : Event)
  : option Event * list (PluginConfig Vm) :=
  match configs with
  | [] => (Some event, [])
  | c :: rest =>
      match vm c ≫= processEvent with
      | None =>
          let r := runConfigs rest event in (fst r, c :: snd r)
      | Some f =>
          match f event with
          | Returned e' =>
              let r := runConfigs rest e' in (fst r, c :: snd r)
          | ReturnedNull => (None, [c])
          | Threw =>
              let r := runConfigs rest event in (fst r, c :: snd r)
          end
      end
  end.

(** Modelled from the spec: [runProcessEvent] fetches the ordered config
    list of the event's team and runs it. *)
Definition runProcessEvent (server : PluginsServer Vm) (event : Event)
  : option Event * list (PluginConfig Vm) :=
  runConfigs (teamPipeline server (team_id event)) event.

End WithEvent.

Arguments ProcessResult : clear implicits.
Arguments Vm : clear implicits.

End Pipeline.

(** Sample loads used by the examples of the plugin order. *)

Module PluginOrderExample.
Import Js Setup Pipeline.

Definition plugin60 : Plugin := {| p_id := 60; p_updated_at := "2020-12-01" |}.

Definition server0 {Vm : Type} : PluginsServer Vm :=
  {| plugins := {[ 60 := plugin60 ]}; pluginConfigs := ∅;
     pluginConfigsPerTeam := ∅ |}.

Definition mkRow (i o : Z) : PluginConfigRow :=
  {| r_id := i; r_plugin_id := 60; r_team_id := Some 2; r_order := o;
     r_updated_at := "2020-12-02" |}.

(** Two rows of team 2 with the same order, the larger id first. *)
Definition tied_rows : list PluginConfigRow := [mkRow 41 1; mkRow 40 1].

(** The rows of the test "plugin config order". *)
Definition test_rows : list PluginConfigRow :=
  [mkRow 39 2; mkRow 40 1; mkRow 41 3].

Definition load (rows : list PluginConfigRow) : PluginsServer unit :=
  setupPlugins (fun _ => Some tt) server0 [plugin60] [] rows.

End PluginOrderExample.


(** ** Date arithmetic as the event processor uses it

  [DateTime] and [Duration] come from the luxon library.  A value is
  either valid, carrying milliseconds, or invalid; the library either
  hands invalid values back or, with its [throwOnInvalid] setting,
  throws when one would be made through [DateTime.invalid] or
  [Duration.invalid].  A date is valid only within the range of the
  JavaScript [Date], 8.64e15 ms either side of the epoch, where the
  library's arithmetic on milliseconds is exact.  What the library
  makes of an instant beyond the range depends on the zone of the date
  (an invalid date, or an error of the zone's formatter), and is left
  open as a parameter, like the ISO parser. *)

Module Luxon.
Export Js(Exc, Ok, Throw, bindExc).

Inductive DateTime : Type :=
| DtValid (ms : Z)
| DtInvalid.

Inductive Duration : Type :=
| DurValid (ms : Z)
| DurInvalid.

Record Settings := mkSettings {
  parseISO : string -> option Z;
  throwOnInvalid : bool;
  (* the outcome of making a date of an instant beyond the range *)
  beyond : Z -> Exc DateTime
}.

(** The range of [Date]. *)
Definition max_ms : Z := 8640000000000000.

Definition in_range (ms : Z) : bool := (- max_ms <=? ms) && (ms <=? max_ms).

(** The date made of an instant. *)
Definition ofMillis (L : Settings) (ms : Z) : Exc DateTime :=
  if in_range ms then Ok (DtValid ms) else beyond L ms.

Definition invalidDateTime (L : Settings) : Exc DateTime :=
  if throwOnInvalid L then Throw "Invalid DateTime" else Ok DtInvalid.

Definition invalidDuration (L : Settings) : Exc Duration :=
  if throwOnInvalid L then Throw "Invalid Duration" else Ok DurInvalid.

(** [DateTime.fromISO(text)]. *)
Definition fromISO (L : Settings) (text : string) : Exc DateTime :=
  match parseISO L text with
  | Some ms => ofMillis L ms
  | None => invalidDateTime L
  end.

(** [a.diff(b)], in milliseconds. *)
Definition diff (L : Settings) (a b : DateTime) : Exc Duration :=
  match a, b with
  | DtValid x, DtValid y => Ok (DurValid (x - y))
  | _, _ => invalidDuration L
  end.

(** What shifting a valid date by an invalid duration ends in: the
    units of an invalid duration read as [NaN], which the library
    refuses with an error, whatever the setting. *)
Definition invalidArgument : Exc DateTime :=
  Throw "InvalidArgumentError: Invalid unit value NaN".

(** [a.plus(d)]: an invalid receiver is handed back as it is. *)
Definition plus (L : Settings) (a : DateTime) (d : Duration) : Exc DateTime :=
  match a, d with
  | DtInvalid, _ => Ok DtInvalid
  | DtValid x, DurValid m => ofMillis L (x + m)
  | DtValid _, DurInvalid => invalidArgument
  end.

(** [a.minus(d)]. *)
Definition minus (L : Settings) (a : DateTime) (d : Duration) : Exc DateTime :=
  match a, d with
  | DtInvalid, _ => Ok DtInvalid
  | DtValid x, DurValid m => ofMillis L (x - m)
  | DtValid _, DurInvalid => invalidArgument
  end.

(** [Duration.fromMillis(n)]. *)
Definition fromMillis (n : Z) : Duration := DurValid n.

End Luxon.

(** ** Timestamp resolution ([EventsProcessor.handleTimestamp]) *)

Module Timestamp.
Import Luxon.

(** The two fields of the event that the function reads. *)
Record PluginEvent := mkPluginEvent {
  timestamp : option string;
  offset : option Z
}.

(** [data['timestamp']] as a condition: a missing or empty string is
  falsy. *)
Definition timestamp_given (data : PluginEvent) : option string :=
  match timestamp data with
  | Some s => if String.eqb s "" then None else Some s
  | None => None
  end.

(** [data['offset']] as a condition: a missing offset and 0 are falsy. *)
Definition offset_given (data : PluginEvent) : option Z :=
  match offset data with
  | Some o => if o =? 0 then None else Some o
  | None => None
  end.

(** The body of the [try]: [now.plus(DateTime.fromISO(ts).diff(sentAt))]. *)
Definition skew_corrected (L : Settings) (ts : string) (now sentAt : DateTime)
  : Exc DateTime :=
  bindExc (fromISO L ts) (fun parsed =>
  bindExc (diff L parsed sentAt) (fun delta =>
  plus L now delta)).

Definition handleTimestamp (L : Settings) (data : PluginEvent)
    (now : DateTime) (sentAt : option DateTime) : Exc DateTime :=
  match timestamp_given data with
  | Some ts =>
      match sentAt with
      | Some sent =>
          match skew_corrected L ts now sent with
          | Ok t => Ok t
          | Throw _ => (* logged and reported *) fromISO L ts
          end
      | None => fromISO L ts
      end
  | None =>
      match offset_given data with
      | Some o => minus L now (fromMillis o)
      | None => Ok now
      end
  end.

(** The precedence as the specification words it, on millisecond values:
  a timestamp that fails to parse makes a rule fall through to the
  next one. *)
Definition precedence_as_specified (parse : string -> option Z)
    (data : PluginEvent) (now : Z) (sentAt : option Z) : Z :=
  let rule34 :=
    match offset data with
    | Some o => now - o
    | None => now
    end in
  match timestamp data with
  | Some ts =>
      match parse ts with
      | Some t =>
          match sentAt with
          | Some sent => now + (t - sent)
          | None => t
          end
      | None => rule34
      end
  | None => rule34
  end.

(** A parser that knows one instant, for the examples. *)
Definition sample_parse (s : string) : option Z :=
  if String.eqb s "2021-01-01T00:00:10.000Z" then Some 1609459210000 else None.

Definition lenient : Settings :=
  {| parseISO := sample_parse; throwOnInvalid := false;
     beyond := fun _ => Ok DtInvalid |}.
Definition strict : Settings :=
  {| parseISO := sample_parse; throwOnInvalid := true;
     beyond := fun _ => Ok DtInvalid |}.

End Timestamp.

(** ** Asynchronous calls against the relational store

  The event processor talks to Postgres through [async] methods.  A
  call that the source awaits hands its rejection to the caller, where a
  surrounding [try] can catch it.  A call whose promise the source drops
  still issues its queries, but its rejection is nobody's: it ends in
  the list of unhandled rejections and no [catch] block sees it.
  Queries are served in the order in which they are issued.  Writes of
  other workers are a schedule of store transformers; each query lets
  the next one in before it runs, so an empty schedule is a run without
  concurrent writers. *)

Module Async.

Inductive Err : Type :=
| UniqueViolation
| ForeignKeyViolation
| InvalidTextRepresentation
| TypeError (msg : string).

Inductive Outcome (A : Type) : Type :=
| Resolved (a : A)
| Rejected (e : Err).
Arguments Resolved {A} a.
Arguments Rejected {A} e.

Section WithStore.
Context {DB Query : Type}.

Record World := mkWorld {
  db : DB;
  queries : list Query;
  unhandled : list Err;
  schedule : list (DB -> DB)
}.

Definition M (A : Type) : Type := World -> Outcome A * World.

Definition ret {A} (a : A) : M A := fun w => (Resolved a, w).

Definition reject {A} (e : Err) : M A := fun w => (Rejected e, w).

Definition bind {A B} (m : M A) (k : A -> M B) : M B :=
  fun w =>
    match m w with
    | (Resolved a, w') => k a w'
    | (Rejected e, w') => (Rejected e, w')
    end.

(** [await m]. *)
Definition await {A} (m : M A) : M A := m.

(** A call whose promise is dropped. *)
Definition fire {A} (m : M A) : M unit :=
  fun w =>
    match m w with
    | (Resolved _, w') => (Resolved tt, w')
    | (Rejected e, w') =>
        (Resolved tt,
         {| db := db w'; queries := queries w';
            unhandled := unhandled w' ++ [e]; schedule := schedule w' |})
    end.

(** [try { m } catch { h }]. *)
Definition try_catch {A} (m : M A) (h : Err -> M A) : M A :=
  fun w =>
    match m w with
    | (Resolved a, w') => (Resolved a, w')
    | (Rejected e, w') => h e w'
    end.

(** One query: the next scheduled write of another worker lands first. *)
Definition postgresQuery {A} (q : Query) (run : DB -> Outcome A * DB) : M A :=
  fun w =>
    let '(store, rest) :=
      match schedule w with
      | [] => (db w, [])
      | step :: rest => (step (db w), rest)
      end in
    let '(r, store') := run store in
    (r, {| db := store'; queries := queries w ++ [q];
           unhandled := unhandled w; schedule := rest |}).

(** A world without history and without concurrent writers. *)
Definition quiet (store : DB) : World :=
  {| db := store; queries := []; unhandled := []; schedule := [] |}.

End WithStore.

Arguments World : clear implicits.
Arguments M : clear implicits.

End Async.

Notation "'let!' x ':=' m 'in' k" := (Async.bind m (fun x => k))
  (at level 10, x name, m at level 200, k at level 200, only parsing).
Notation "'run!' m 'in' k" := (Async.bind m (fun _ => k))
  (at level 10, m at level 200, k at level 200, only parsing).

(** ** The relational store (class [DB])

    The Postgres tables of persons, distinct ids and cohort members, and
    the messages sent to the person topics.  The statements that mirror a
    delete into ClickHouse are left out. *)

Module Db.
Import Js Async.

Record Person := mkPerson {
  per_id : Z;
  per_uuid : string;
  per_team_id : Z;
  per_created_at : Z;
  per_properties : Properties;
  per_is_user_id : option Z;
  per_is_identified : bool
}.

Record PersonDistinctId := mkPersonDistinctId {
  pdi_id : Z;
  pdi_person_id : Z;
  pdi_distinct_id : string;
  pdi_team_id : Z
}.

Record CohortPeople := mkCohortPeople {
  cp_id : Z;
  cp_cohort_id : Z;
  cp_person_id : Z
}.

(** What the producer sends to the person topics. *)
Inductive KafkaMessage : Type :=
| PersonMessage (created_at : Z) (properties : Properties) (team_id : Z)
  (is_identified : bool) (uuid : string)
| PersonUniqueIdMessage (row : PersonDistinctId).

(** The tables of the store that the person code touches; the serial
  counters of the two tables; the producer, if one is configured, and
  what it has sent. *)
Record Store := mkStore {
  persons : list Person;
  distinct_ids : list PersonDistinctId;
  cohort_people : list CohortPeople;
  next_person_id : Z;
  next_distinct_id_id : Z;
  kafkaProducer : bool;
  produced : list KafkaMessage
}.

(** A query parameter: a number, or a plain object, which the driver
  sends as its JSON text. *)
Inductive SqlParam : Type :=
| PInt (z : Z)
| PJson (p : Person).

Inductive Query : Type :=
| QSelectPerson (teamId : Z) (distinctId : string)
| QInsertPerson (uuid : string)
| QUpdatePerson (personId : Z)
| QDeletePerson (personId : Z)
| QSelectDistinctIds (person : SqlParam) (teamId : Z)
| QInsertDistinctId (distinctId : string) (personId teamId : Z)
| QUpdateDistinctId (rowId : Z)
| QDeleteDistinctIds (personId : Z)
| QSelectCohortPeople (personId : Z)
| QUpdateCohortPeople (rowId : Z)
| QUpdateTeam (teamId : Z).

Abbreviation M := (Async.M Store Query).

Fixpoint forM_ {A} (l : list A) (f : A -> M unit) : M unit :=
  match l with
  | [] => ret tt
  | x :: r => run! f x in forM_ r f
  end.

Definition set_persons (s : Store) (l : list Person) : Store :=
  {| persons := l; distinct_ids := distinct_ids s;
     cohort_people := cohort_people s; next_person_id := next_person_id s;
     next_distinct_id_id := next_distinct_id_id s;
     kafkaProducer := kafkaProducer s; produced := produced s |}.

Definition set_distinct_ids (s : Store) (l : list PersonDistinctId) : Store :=
  {| persons := persons s; distinct_ids := l;
     cohort_people := cohort_people s; next_person_id := next_person_id s;
     next_distinct_id_id := next_distinct_id_id s;
     kafkaProducer := kafkaProducer s; produced := produced s |}.

Definition set_cohort_people (s : Store) (l : list CohortPeople) : Store :=
  {| persons := persons s; distinct_ids := distinct_ids s;
     cohort_people := l; next_person_id := next_person_id s;
     next_distinct_id_id := next_distinct_id_id s;
     kafkaProducer := kafkaProducer s; produced := produced s |}.

(** [if (this.kafkaProducer) await this.kafkaProducer.send(...)]. *)
Definition send (msg : KafkaMessage) : M unit :=
  fun w =>
    let s := db w in
    (Resolved tt,
     {| db := if kafkaProducer s
              then {| persons := persons s; distinct_ids := distinct_ids s;
                      cohort_people := cohort_people s;
                      next_person_id := next_person_id s;
                      next_distinct_id_id := next_distinct_id_id s;
                      kafkaProducer := true; produced := produced s ++ [msg] |}
              else s;
        queries := queries w; unhandled := unhandled w;
        schedule := schedule w |}).

(** The join of [fetchPerson]: persons of the team with a distinct-id row
  of the team carrying the distinct id. *)
Definition select_person (s : Store) (teamId : Z) (distinctId : string)
  : list Person :=
  p ← persons s;
  row ← distinct_ids s;
  if bool_decide (pdi_person_id row = per_id p)
     && bool_decide (per_team_id p = teamId)
     && bool_decide (pdi_team_id row = teamId)
     && bool_decide (pdi_distinct_id row = distinctId)
  then [p] else [].

Definition fetchPerson (teamId : Z) (distinctId : string) : M (option Person) :=
  postgresQuery (QSelectPerson teamId distinctId)
    (fun s => (Resolved (head (select_person s teamId distinctId)), s)).

(** The store after an [INSERT] into the distinct-id table that was
  rejected: the value of the serial that the row would have got is used
  up. *)
Definition distinct_id_serial_used (s : Store) : Store :=
  {| persons := persons s; distinct_ids := distinct_ids s;
     cohort_people := cohort_people s; next_person_id := next_person_id s;
     next_distinct_id_id := next_distinct_id_id s + 1;
     kafkaProducer := kafkaProducer s; produced := produced s |}.

(** The insert of [addDistinctId]: the table has a unique constraint on
  [(team_id, distinct_id)] and a foreign key to the person. *)
Definition insert_distinct_id (distinctId : string) (personId teamId : Z)
    (s : Store) : Outcome PersonDistinctId * Store :=
  if existsb (fun row => bool_decide (pdi_team_id row = teamId)
                         && bool_decide (pdi_distinct_id row = distinctId))
       (distinct_ids s)
  then (Rejected UniqueViolation, distinct_id_serial_used s)
  else if negb (existsb (fun p => bool_decide (per_id p = personId)) (persons s))
  then (Rejected ForeignKeyViolation, distinct_id_serial_used s)
  else
    let row := {| pdi_id := next_distinct_id_id s; pdi_person_id := personId;
                  pdi_distinct_id := distinctId; pdi_team_id := teamId |} in
    (Resolved row,
     {| persons := persons s; distinct_ids := distinct_ids s ++ [row];
        cohort_people := cohort_people s; next_person_id := next_person_id s;
        next_distinct_id_id := next_distinct_id_id s + 1;
        kafkaProducer := kafkaProducer s; produced := produced s |}).

Definition addDistinctId (person : Person) (distinctId : string) : M unit :=
  let! personDistinctIdCreated :=
    await (postgresQuery
             (QInsertDistinctId distinctId (per_id person) (per_team_id person))
             (insert_distinct_id distinctId (per_id person) (per_team_id person))) in
  await (send (PersonUniqueIdMessage personDistinctIdCreated)).

Definition insert_person (createdAt : Z) (properties : Properties) (teamId : Z)
    (isUserId : option Z) (isIdentified : bool) (uuid : string) (s : Store)
  : Outcome Person * Store :=
  let p := {| per_id := next_person_id s; per_uuid := uuid;
              per_team_id := teamId; per_created_at := createdAt;
              per_properties := properties; per_is_user_id := isUserId;
              per_is_identified := isIdentified |} in
  (Resolved p,
   {| persons := persons s ++ [p]; distinct_ids := distinct_ids s;
      cohort_people := cohort_people s; next_person_id := next_person_id s + 1;
      next_distinct_id_id := next_distinct_id_id s;
      kafkaProducer := kafkaProducer s; produced := produced s |}).

Definition createPerson (createdAt : Z) (properties : Properties) (teamId : Z)
    (isUserId : option Z) (isIdentified : bool) (uuid : string)
    (distinctIds : list string) : M Person :=
  let! personCreated :=
    await (postgresQuery (QInsertPerson uuid)
             (insert_person createdAt properties teamId isUserId isIdentified uuid)) in
  run! await (send (PersonMessage createdAt properties teamId isIdentified uuid)) in
  run! forM_ distinctIds (fun distinctId => await (addDistinctId personCreated distinctId)) in
  ret personCreated.

(** [Partial<Person>], for the fields the processor updates. *)
Record PersonUpdate := mkPersonUpdate {
  u_created_at : option Z;
  u_properties : option Properties;
  u_is_identified : option bool
}.

(** [{ ...person, ...update }]. *)
Definition with_update (person : Person) (update : PersonUpdate) : Person :=
  {| per_id := per_id person; per_uuid := per_uuid person;
     per_team_id := per_team_id person;
     per_created_at := default (per_created_at person) (u_created_at update);
     per_properties := default (per_properties person) (u_properties update);
     per_is_user_id := per_is_user_id person;
     per_is_identified := default (per_is_identified person) (u_is_identified update) |}.

(** [UPDATE posthog_person SET <the fields of update> WHERE id = person.id]:
  the row changes in the fields named by [update] and in no other. *)
Definition update_person_row (personId : Z) (update : PersonUpdate) (s : Store)
  : Outcome unit * Store :=
  (Resolved tt,
   set_persons s
     ((fun p => if bool_decide (per_id p = personId)
                then with_update p update else p) <$> persons s)).

Definition updatePerson (person : Person) (update : PersonUpdate) : M Person :=
  let updatedPerson := with_update person update in
  run! await (postgresQuery (QUpdatePerson (per_id person))
                (update_person_row (per_id person) update)) in
  run! await (send (PersonMessage (per_created_at updatedPerson)
                      (per_properties updatedPerson) (per_team_id updatedPerson)
                      (per_is_identified updatedPerson) (per_uuid updatedPerson))) in
  ret updatedPerson.

(** [DELETE FROM posthog_person WHERE id = $1]: the rows of
  [posthog_cohortpeople] refer to the person by a foreign key, so the
  delete of a person that is in a cohort is rejected. *)
Definition delete_person_row (personId : Z) (s : Store) : Outcome unit * Store :=
  if existsb (fun c => bool_decide (cp_person_id c = personId)) (cohort_people s)
  then (Rejected ForeignKeyViolation, s)
  else (Resolved tt,
        set_persons s (filter (fun p => per_id p <> personId) (persons s))).

Definition deletePerson (personId : Z) : M unit :=
  run! await (postgresQuery (QDeleteDistinctIds personId)
                (fun s => (Resolved tt,
                   set_distinct_ids s
                     (filter (fun row => pdi_person_id row <> personId)
                        (distinct_ids s))))) in
  await (postgresQuery (QDeletePerson personId) (delete_person_row personId)).

Definition updateDistinctId (personDistinctId : PersonDistinctId)
    (person_id : Z) : M unit :=
  let updatedPersonDistinctId :=
    {| pdi_id := pdi_id personDistinctId; pdi_person_id := person_id;
       pdi_distinct_id := pdi_distinct_id personDistinctId;
       pdi_team_id := pdi_team_id personDistinctId |} in
  run! await (postgresQuery (QUpdateDistinctId (pdi_id personDistinctId))
                (fun s => (Resolved tt,
                   set_distinct_ids s
                     ((fun row =>
                         if bool_decide (pdi_id row = pdi_id personDistinctId)
                         then {| pdi_id := pdi_id row; pdi_person_id := person_id;
                                 pdi_distinct_id := pdi_distinct_id row;
                                 pdi_team_id := pdi_team_id row |}
                         else row) <$> distinct_ids s)))) in
  await (send (PersonUniqueIdMessage updatedPersonDistinctId)).

(** [SELECT * FROM posthog_persondistinctid WHERE person_id = $1 AND
  team_id = $2].  [person_id] is an integer column: a parameter that is
  the JSON text of an object is not a number and the server rejects the
  query. *)
Definition selectDistinctIdsOfPerson (person : SqlParam) (teamId : Z)
  : M (list PersonDistinctId) :=
  postgresQuery (QSelectDistinctIds person teamId)
    (fun s =>
       match person with
       | PInt personId =>
           (Resolved (filter (fun row => pdi_person_id row = personId
                                         /\ pdi_team_id row = teamId)
                        (distinct_ids s)), s)
       | PJson _ => (Rejected InvalidTextRepresentation, s)
       end).

Definition selectCohortPeople (personId : Z) : M (list CohortPeople) :=
  postgresQuery (QSelectCohortPeople personId)
    (fun s => (Resolved (filter (fun c => cp_person_id c = personId)
                           (cohort_people s)), s)).

Definition updateCohortPeople (person_id : Z) (rowId : Z) : M unit :=
  postgresQuery (QUpdateCohortPeople rowId)
    (fun s => (Resolved tt,
       set_cohort_people s
         ((fun c => if bool_decide (cp_id c = rowId)
                    then {| cp_id := cp_id c; cp_cohort_id := cp_cohort_id c;
                            cp_person_id := person_id |}
                    else c) <$> cohort_people s))).

End Db.

(** ** Identity resolution ([EventsProcessor]) *)

Module EventsProcessor.
Import Js Async Db.

(** The values a call draws from its environment: [DateTime.utc()] and
  [new UUIDT().toString()]. *)
Record Fresh := mkFresh {
  utc_now : Z;
  new_uuid : string
}.

Definition updatePersonProperties (fresh : Fresh) (teamId : Z)
    (distinctId : string) (properties propertiesOnce : Properties) : M Person :=
  let! personFound := await (fetchPerson teamId distinctId) in
  let! personFound :=
    match personFound with
    | Some _ => ret personFound
    | None =>
        try_catch
          (let! personCreated :=
             await (createPerson (utc_now fresh) properties teamId None false
                      (new_uuid fresh) []) in
           run! await (addDistinctId personCreated distinctId) in
           (* [personFound] is not assigned on this path *)
           ret personFound)
          (fun _ => await (fetchPerson teamId distinctId))
    end in
  match personFound with
  | None =>
      (* [personFound!.properties] on [undefined] *)
      reject (TypeError "Cannot read property 'properties' of undefined")
  | Some person =>
      let updatedProperties :=
        spread3 propertiesOnce (per_properties person) properties in
      await (updatePerson person
               {| u_created_at := None; u_properties := Some updatedProperties;
                  u_is_identified := None |})
  end.

(** The loop of [mergePeople] that merges the properties into the local
  [mergeInto] object and finds the earliest [created_at]. *)
Definition merge_properties (mergeInto : Person) (peopleToMerge : list Person)
  : Person * Z :=
  fold_left
    (fun acc otherPerson =>
       let mergeInto := fst acc in
       let firstSeen := snd acc in
       ({| per_id := per_id mergeInto; per_uuid := per_uuid mergeInto;
           per_team_id := per_team_id mergeInto;
           per_created_at := per_created_at mergeInto;
           per_properties :=
             spread2 (per_properties otherPerson) (per_properties mergeInto);
           per_is_user_id := per_is_user_id mergeInto;
           per_is_identified := per_is_identified mergeInto |},
        if per_created_at otherPerson <? firstSeen
        then per_created_at otherPerson else firstSeen))
    peopleToMerge (mergeInto, per_created_at mergeInto).

Definition mergePeople (mergeInto : Person) (peopleToMerge : list Person)
  : M unit :=
  let merged := merge_properties mergeInto peopleToMerge in
  let mergeInto := fst merged in
  let firstSeen := snd merged in
  run! await (updatePerson mergeInto
                {| u_created_at := Some firstSeen; u_properties := None;
                   u_is_identified := None |}) in
  forM_ peopleToMerge (fun otherPerson =>
    let! otherPersonDistinctIds :=
      await (selectDistinctIdsOfPerson (PJson otherPerson) (per_team_id mergeInto)) in
    run! forM_ otherPersonDistinctIds (fun personDistinctId =>
           await (updateDistinctId personDistinctId (per_id mergeInto))) in
    let! otherCohortPeople :=
      await (selectCohortPeople (per_id otherPerson)) in
    run! forM_ otherCohortPeople (fun cohortPeople =>
           await (updateCohortPeople (per_id mergeInto) (cp_id cohortPeople))) in
    await (deletePerson (per_id otherPerson))).

(** One run of [alias]; [again] is the call [this.alias(..., false)] of the
  [catch] blocks. *)
Definition alias_run (again : M unit) (fresh : Fresh)
    (previousDistinctId distinctId : string) (teamId : Z)
    (retryIfFailed : bool) : M unit :=
  let! oldPerson := await (fetchPerson teamId previousDistinctId) in
  let! newPerson := await (fetchPerson teamId distinctId) in
  match oldPerson, newPerson with
  | Some oldPerson, None =>
      try_catch
        (fire (addDistinctId oldPerson distinctId))
        (fun _ => if retryIfFailed then fire again else ret tt)
  | None, Some newPerson =>
      try_catch
        (fire (addDistinctId newPerson previousDistinctId))
        (fun _ => if retryIfFailed then fire again else ret tt)
  | None, None =>
      try_catch
        (let! personCreated :=
           await (createPerson (utc_now fresh) ∅ teamId None false
                    (new_uuid fresh) []) in
         run! fire (addDistinctId personCreated distinctId) in
         fire (addDistinctId personCreated previousDistinctId))
        (fun _ => if retryIfFailed then fire again else ret tt)
  | Some oldPerson, Some newPerson =>
      if bool_decide (per_id oldPerson <> per_id newPerson)
      then fire (mergePeople newPerson [oldPerson])
      else ret tt
  end.

(** [alias]: the call from a [catch] block passes [retryIfFailed = false],
  so the recursion is at most one deep.  [fresh'] holds the values the
  second run draws. *)
Definition alias (fresh fresh' : Fresh) (previousDistinctId distinctId : string)
    (teamId : Z) (retryIfFailed : bool) : M unit :=
  alias_run
    (alias_run (ret tt) fresh' previousDistinctId distinctId teamId false)
    fresh previousDistinctId distinctId teamId retryIfFailed.

(** A distinct id is attached to a person when the distinct-id table has
  a row of the team for it that points to the person. *)
Definition attached (s : Store) (teamId : Z) (distinctId : string)
    (personId : Z) : Prop :=
  exists row, row ∈ distinct_ids s
    /\ pdi_team_id row = teamId
    /\ pdi_distinct_id row = distinctId
    /\ pdi_person_id row = personId.

(** Every distinct-id row points to a person of its team. *)
Definition references_ok (s : Store) : Prop :=
  forall row, row ∈ distinct_ids s ->
    exists p, p ∈ persons s
      /\ per_id p = pdi_person_id row
      /\ per_team_id p = pdi_team_id row.

(** The world after the two reads that open [alias], without concurrent
  writers. *)
Definition after_reads (teamId : Z) (previousDistinctId distinctId : string)
    (w : World Store Query) : World Store Query :=
  {| db := db w;
     queries := (queries w ++ [QSelectPerson teamId previousDistinctId])
                ++ [QSelectPerson teamId distinctId];
     unhandled := unhandled w; schedule := [] |}.

End EventsProcessor.

(** ** Team cache ([EventsProcessor.storeNamesAndProperties]) *)

Module TeamCache.
Import Js.

(** An entry of the [..._with_usage] lists. *)
Record WithUsage := mkWithUsage {
  name : string;
  usage_count : option Z;
  volume : option Z
}.

(** The fields of the team row that the function reads and writes.  The
  three lists that the function guards may be NULL. *)
Record Team := mkTeam {
  id : Z;
  ingested_event : bool;
  event_names : option (list string);
  event_names_with_usage : list WithUsage;
  event_properties : option (list string);
  event_properties_with_usage : list WithUsage;
  event_properties_numerical : option (list string)
}.

(** The parameters of the [UPDATE posthog_team] statement, in the order
  [$1] to [$7]. *)
Record TeamUpdate := mkTeamUpdate {
  set_ingested_event : bool;
  set_event_names : option (list string);
  set_event_names_with_usage : list WithUsage;
  set_event_properties : option (list string);
  set_event_properties_with_usage : list WithUsage;
  set_event_properties_numerical : option (list string);
  where_id : Z
}.

(** [team.list && !(key in team.list)]. *)
Definition guarded_not_in (key : string) (l : option (list string)) : bool :=
  match l with
  | Some arr => negb (in_array key arr)
  | None => false
  end.

(** The body of the loop over [Object.entries(properties)]. *)
Definition store_property (acc : Team * bool) (entry : string * JsVal)
  : Team * bool :=
  let team := fst acc in
  let save := snd acc in
  let key := fst entry in
  let value := snd entry in
  let acc1 :=
    if guarded_not_in key (event_properties team)
    then ({| id := id team; ingested_event := ingested_event team;
             event_names := event_names team;
             event_names_with_usage := event_names_with_usage team;
             event_properties := (fun l => l ++ [key]) <$> event_properties team;
             event_properties_with_usage :=
               event_properties_with_usage team ++ [mkWithUsage key None None];
             event_properties_numerical := event_properties_numerical team |},
          true)
    else (team, save) in
  let team := fst acc1 in
  let save := snd acc1 in
  if String.eqb (typeof value) "number"
     && guarded_not_in key (event_properties_numerical team)
  then ({| id := id team; ingested_event := ingested_event team;
           event_names := event_names team;
           event_names_with_usage := event_names_with_usage team;
           event_properties := event_properties team;
           event_properties_with_usage := event_properties_with_usage team;
           event_properties_numerical :=
             (fun l => l ++ [key]) <$> event_properties_numerical team |},
        true)
  else (team, save).

(** The team object after the call and the update it issued, if any.
  [properties] is [Object.entries] of the event's properties. *)
Definition storeNamesAndProperties (team : Team) (event : string)
    (properties : list (string * JsVal)) : Team * option TeamUpdate :=
  let acc0 :=
    if negb (ingested_event team)
    then ({| id := id team; ingested_event := true;
             event_names := event_names team;
             event_names_with_usage := event_names_with_usage team;
             event_properties := event_properties team;
             event_properties_with_usage := event_properties_with_usage team;
             event_properties_numerical := event_properties_numerical team |},
          true)
    else (team, false) in
  let team := fst acc0 in
  let save := snd acc0 in
  let acc1 :=
    if guarded_not_in event (event_names team)
    then ({| id := id team; ingested_event := ingested_event team;
             event_names := (fun l => l ++ [event]) <$> event_names team;
             event_names_with_usage :=
               event_names_with_usage team ++ [mkWithUsage event None None];
             event_properties := event_properties team;
             event_properties_with_usage := event_properties_with_usage team;
             event_properties_numerical := event_properties_numerical team |},
          true)
    else (team, save) in
  let acc2 := fold_left store_property properties acc1 in
  let team := fst acc2 in
  let save := snd acc2 in
  (team,
   if save
   then Some {| set_ingested_event := ingested_event team;
                set_event_names := event_names team;
                set_event_names_with_usage := event_names_with_usage team;
                set_event_properties := event_properties team;
                set_event_properties_with_usage := event_names_with_usage team;
                set_event_properties_numerical := event_properties_numerical team;
                where_id := id team |}
   else None).

(** A guarded list only grows at its end. *)
Definition grown (before after : option (list string)) : Prop :=
  exists suffix, after = (fun l => l ++ suffix) <$> before.

(** A team that has already seen the event [pageview] and the properties
  [$ip] and [price]. *)
Definition seen_team : Team :=
  {| id := 2; ingested_event := true;
     event_names := Some ["pageview"];
     event_names_with_usage := [mkWithUsage "pageview" None None];
     event_properties := Some ["$ip"; "price"];
     event_properties_with_usage :=
       [mkWithUsage "$ip" None None; mkWithUsage "price" None None];
     event_properties_numerical := Some ["price"] |}.

End TeamCache.

(** Sample stores for the examples of identity resolution. *)

Module IdentityExamples.
Import Js Async Db EventsProcessor.

Definition personA : Person :=
  {| per_id := 1; per_uuid := "uuid-a"; per_team_id := 2; per_created_at := 100;
     per_properties := {[ "plan" := JStr "free"; "city" := JStr "Ghent" ]};
     per_is_user_id := None; per_is_identified := false |}.

Definition personB : Person :=
  {| per_id := 2; per_uuid := "uuid-b"; per_team_id := 2; per_created_at := 200;
     per_properties := {[ "plan" := JStr "paid" ]};
     per_is_user_id := None; per_is_identified := true |}.

Definition rowA : PersonDistinctId :=
  {| pdi_id := 1; pdi_person_id := 1; pdi_distinct_id := "a"; pdi_team_id := 2 |}.

Definition rowB : PersonDistinctId :=
  {| pdi_id := 2; pdi_person_id := 2; pdi_distinct_id := "b"; pdi_team_id := 2 |}.

Definition empty_store : Store :=
  {| persons := []; distinct_ids := []; cohort_people := [];
     next_person_id := 1; next_distinct_id_id := 1;
     kafkaProducer := false; produced := [] |}.

(** Person A with distinct id [a]; nobody for [b]. *)
Definition store_a : Store :=
  {| persons := [personA]; distinct_ids := [rowA]; cohort_people := [];
     next_person_id := 3; next_distinct_id_id := 3;
     kafkaProducer := false; produced := [] |}.

(** Persons A and B with distinct ids [a] and [b]; A is in cohort 7. *)
Definition store_ab : Store :=
  {| persons := [personA; personB]; distinct_ids := [rowA; rowB];
     cohort_people := [mkCohortPeople 1 7 1];
     next_person_id := 3; next_distinct_id_id := 3;
     kafkaProducer := true; produced := [] |}.

(** Another worker creates a person for distinct id [b]. *)
Definition rival_insert (s : Store) : Store :=
  {| persons := persons s ++ [mkPerson 3 "uuid-c" 2 300 ∅ None false];
     distinct_ids := distinct_ids s ++ [mkPersonDistinctId 3 3 "b" 2];
     cohort_people := cohort_people s;
     next_person_id := 4; next_distinct_id_id := 4;
     kafkaProducer := kafkaProducer s; produced := produced s |}.

(** The rival's write lands after the two reads of [alias] and before its
  insert. *)
Definition racing (s : Store) : World Store Query :=
  {| db := s; queries := []; unhandled := [];
     schedule := [fun s => s; fun s => s; rival_insert] |}.

(** A world on a store, without history and without concurrent writers. *)
Definition calm (s : Store) : World Store Query := quiet s.

Definition fresh1 : Fresh := {| utc_now := 1000; new_uuid := "uuid-1" |}.
Definition fresh2 : Fresh := {| utc_now := 2000; new_uuid := "uuid-2" |}.

End IdentityExamples.

(** ** Lazy plugin VM (src/worker/vm/lazy.ts) *)

Module LazyVM.

Definition MAX_SETUP_RETRIES : Z := 10.
Definition INITIALIZATION_RETRY_MULTIPLIER : Z := 2.
Definition INITIALIZATION_RETRY_BASE_MS : Z := 3000.

Section WithVm.
(** The compiled VM ([PluginConfigVMResponse]). *)
Context {Vm : Type}.

(** The promise [resolveInternalVm]. *)
Inductive Promise : Type :=
| Pending
| ResolvedWith (vm : option Vm).

Record LazyPluginVM := mkLazyPluginVM {
  totalInitAttemptsCounter : Z;
  resolveInternalVm : Promise;
  initRetryTimeout : option Z
}.

(** What the [try] block of [initialize] ends in: the VM, once it is
  created and its capabilities and metrics are inferred, or the error
  thrown on the way, which is a [RetryError] or not. *)
Inductive InitOutcome : Type :=
| Loaded (vm : Vm)
| Failed (isRetryError : bool).

(** The calls [initialize] makes on the way. *)
Inductive Effect : Type :=
| LogLoaded
| ClearError
| LogRetrying (nextRetryMs : Z)
| SetTimeout (nextRetryMs : Z)
| LogDisabled (tooManyRetries : bool) (attempts : Z)
| DisablePlugin
| ProcessError
| Resolve (vm : option Vm).

Definition initVm (this : LazyPluginVM) : LazyPluginVM :=
  {| totalInitAttemptsCounter := totalInitAttemptsCounter this + 1;
     resolveInternalVm := Pending;
     initRetryTimeout := initRetryTimeout this |}.

(** [new LazyPluginVM()]. *)
Definition constructor : LazyPluginVM :=
  initVm {| totalInitAttemptsCounter := 0; resolveInternalVm := Pending;
            initRetryTimeout := None |}.

Definition initialize (outcome : InitOutcome) (this : LazyPluginVM)
  : LazyPluginVM * list Effect :=
  match outcome with
  | Loaded vm =>
      ({| totalInitAttemptsCounter := totalInitAttemptsCounter this;
          resolveInternalVm := ResolvedWith (Some vm);
          initRetryTimeout := initRetryTimeout this |},
       [LogLoaded; ClearError; Resolve (Some vm)])
  | Failed isRetryError =>
      if isRetryError && (totalInitAttemptsCounter this <? MAX_SETUP_RETRIES)
      then
        let nextRetryMs :=
          INITIALIZATION_RETRY_MULTIPLIER ^ (totalInitAttemptsCounter this - 1)
          * INITIALIZATION_RETRY_BASE_MS in
        ({| totalInitAttemptsCounter := totalInitAttemptsCounter this;
            resolveInternalVm := ResolvedWith None;
            initRetryTimeout := Some nextRetryMs |},
         [LogRetrying nextRetryMs; SetTimeout nextRetryMs; Resolve None])
      else
        ({| totalInitAttemptsCounter := totalInitAttemptsCounter this;
            resolveInternalVm := ResolvedWith None;
            initRetryTimeout := initRetryTimeout this |},
         [LogDisabled isRetryError (totalInitAttemptsCounter this);
          DisablePlugin; ProcessError; Resolve None])
  end.

(** The delay of the timer an attempt has set, if it has set one. *)
Definition scheduled (effects : list Effect) : option Z :=
  head (omap (fun e => match e with SetTimeout ms => Some ms | _ => None end) effects).

(** The life of a handle: [initialize] runs with the first outcome; as
  long as an attempt sets the retry timer, the timer fires, which calls
  [initVm] and [initialize] with the next outcome.  The result is the
  last state and the effects of each attempt, one list per attempt. *)
Fixpoint attempts (outcomes : list InitOutcome) (this : LazyPluginVM)
  : LazyPluginVM * list (list Effect) :=
  match outcomes with
  | [] => (this, [])
  | outcome :: rest =>
      let r := initialize outcome this in
      match scheduled (snd r) with
      | Some _ =>
          let r' := attempts rest (initVm (fst r)) in
          (fst r', snd r :: snd r')
      | None => (fst r, [snd r])
      end
  end.

Definition lifecycle (outcomes : list InitOutcome)
  : LazyPluginVM * list (list Effect) :=
  attempts outcomes constructor.

(** The delays of the retries, in the order in which they were set. *)
Definition retry_delays (trace : list (list Effect)) : list Z :=
  omap scheduled trace.

End WithVm.

Arguments LazyPluginVM : clear implicits.
Arguments InitOutcome : clear implicits.
Arguments Effect : clear implicits.
Arguments Promise : clear implicits.

End LazyVM.

(** ** Singleton lock (src/main/services/redlock.ts) *)

Module Redlock.


Definition lockTTL (ttl : Z) : Z := ttl * 1000.
Definition retryDelay (ttl : Z) : Z := lockTTL ttl / 10.
Definition extendDelay (ttl : Z) : Z := lockTTL ttl / 2.

Inductive Callback : Type :=
| TryToGetTheLock
| ExtendLock.

(** A timer set with [setTimeout(callback, delay)]. *)
Record Timer := mkTimer {
  callback : Callback;
  delay : Z
}.

(** An error of the lock client: [Redlock.LockError], which is how the
  client reports that the resource was not acquired or extended, or
  anything else. *)
Inductive Error : Type :=
| LockError
| OtherError.

(** The variables of [startRedlock] that its callbacks share: the two
  flags, the timers that are set and have not fired (the latest first;
  [lockTimeout] holds the latest), and the errors reported. *)
Record State := mkState {
  stopped : bool;
  weHaveTheLock : bool;
  timers : list Timer;
  reported : list Error
}.

Definition setTimeout (cb : Callback) (ms : Z) (st : State) : State :=
  {| stopped := stopped st; weHaveTheLock := weHaveTheLock st;
     timers := mkTimer cb ms :: timers st; reported := reported st |}.

Definition set_weHaveTheLock (b : bool) (st : State) : State :=
  {| stopped := stopped st; weHaveTheLock := b;
     timers := timers st; reported := reported st |}.

Definition report (e : Error) (st : State) : State :=
  {| stopped := stopped st; weHaveTheLock := weHaveTheLock st;
     timers := timers st; reported := reported st ++ [e] |}.

(** The [catch] block of [tryToGetTheLock]. *)
Definition tryToGetTheLock_catch (ttl : Z) (error : Error) (st : State) : State :=
  if stopped st then st
  else
    let st := set_weHaveTheLock false st in
    match error with
    | LockError => setTimeout TryToGetTheLock (retryDelay ttl) st
    | OtherError => report OtherError st
    end.

(** [tryToGetTheLock]: [lockResult] is what [redlock.lock] ends in
  ([None] for the lock), [onLockResult] what [onLock] ends in. *)
Definition tryToGetTheLock (ttl : Z) (lockResult onLockResult : option Error)
    (st : State) : State :=
  match lockResult with
  | Some error => tryToGetTheLock_catch ttl error st
  | None =>
      let st := set_weHaveTheLock true st in
      let st := setTimeout ExtendLock (extendDelay ttl) st in
      match onLockResult with
      | None => st
      | Some error => tryToGetTheLock_catch ttl error st
      end
  end.

(** [extendLock]: [extendResult] is what [lock.extend] ends in. *)
Definition extendLock (ttl : Z) (extendResult : option Error) (st : State) : State :=
  if stopped st then st
  else
    match extendResult with
    | None => setTimeout ExtendLock (extendDelay ttl) st
    | Some error =>
        let st := report error st in
        let st := set_weHaveTheLock false st in
        setTimeout TryToGetTheLock 0 st
    end.

(** [startRedlock] sets the first timer. *)
Definition startRedlock : State :=
  setTimeout TryToGetTheLock 0
    {| stopped := false; weHaveTheLock := false; timers := []; reported := [] |}.

(** What the environment does when a timer fires: which of the timers
    that are set fires, and what the calls of its callback end in. *)
Record Firing := mkFiring {
  which : nat;
  lockResult : option Error;
  onLockResult : option Error;
  extendResult : option Error
}.

(** One timer fires; nothing happens when there is no such timer. *)
Definition fire_timer (ttl : Z) (f : Firing) (st : State) : State :=
  match timers st !! which f with
  | None => st
  | Some t =>
      let st := {| stopped := stopped st; weHaveTheLock := weHaveTheLock st;
                   timers := delete (which f) (timers st);
                   reported := reported st |} in
      match callback t with
      | TryToGetTheLock => tryToGetTheLock ttl (lockResult f) (onLockResult f) st
      | ExtendLock => extendLock ttl (extendResult f) st
      end
  end.

(** The service from its start, through a sequence of firings. *)
Definition run (ttl : Z) (firings : list Firing) : State :=
  fold_left (fun st f => fire_timer ttl f st) firings startRedlock.



End Redlock.

(** ** Action matching (src/worker/ingestion/action-matcher.ts) *)

Module ActionMatcher.
Import Js.

(** A value that may be [undefined] or [null]. *)
Inductive Nullable (A : Type) : Type :=
| Undefined
| Null
| Defined (a : A).
Arguments Undefined {A}.
Arguments Null {A}.
Arguments Defined {A} a.

Inductive PropertyOperator : Type :=
| Exact
| IsNot
| IContains
| NotIContains
| Regex
| NotRegex
| GreaterThan
| LessThan
| IsSet
| IsNotSet
| OtherOperator (name : string).

(** [filter.value]: one value or an array of values. *)
Inductive FilterValue : Type :=
| Single (v : JsVal)
| Many (vs : list JsVal).

Record PropertyFilterWithOperator := mkFilter {
  key : string;
  value : FilterValue;
  operator : PropertyOperator
}.

(** [filter.type]. *)
Inductive FilterType : Type :=
| EventFilter
| PersonFilter
| ElementFilter
| CohortFilter
| OtherFilter.

Record PropertyFilter := mkPropertyFilter {
  type : FilterType;
  filter : PropertyFilterWithOperator
}.

(** The part of an event that the filters read. *)
Record PluginEvent := mkPluginEvent {
  event : string;
  team_id : Z;
  properties : Nullable Properties
}.

(** An element is read as an object with string keys. *)
Abbreviation Element := Properties.

(** The part of an action step that [checkStepFilters] reads. *)
Record ActionStep := mkActionStep {
  step_event : option string;
  step_properties : Nullable (list PropertyFilter)
}.

(** Built-ins of the JavaScript runtime that the operators call. *)
Record Runtime := mkRuntime {
  toLowerCase : string -> string;
  includes : string -> string -> bool;
  regexp_test : string -> JsVal -> Exc bool;
  less_than : JsVal -> JsVal -> bool
}.

Section WithRuntime.
Context (R : Runtime).

Definition propertyOperatorToRequiredValueType (op : PropertyOperator)
  : option string :=
  match op with
  | IContains | NotIContains | Regex | NotRegex => Some "string"
  | _ => None
  end.

(** [possibleValues.some(test)] for a test that may throw. *)
Fixpoint some_exc {A} (test : A -> Exc bool) (l : list A) : Exc bool :=
  match l with
  | [] => Ok false
  | x :: r =>
      match test x with
      | Ok true => Ok true
      | Ok false => some_exc test r
      | Throw e => Throw e
      end
  end.

(** [filters.every(test)] for a test that may throw. *)
Fixpoint every_exc {A} (test : A -> Exc bool) (l : list A) : Exc bool :=
  match l with
  | [] => Ok true
  | x :: r =>
      match test x with
      | Ok true => every_exc test r
      | Ok false => Ok false
      | Throw e => Throw e
      end
  end.

Definition string_of (v : JsVal) : string :=
  match v with
  | JStr s => s
  | _ => ""
  end.

Definition checkPropertiesAgainstFilter (properties : Nullable Properties)
    (filter : PropertyFilterWithOperator) : Exc bool :=
  match properties with
  | Undefined | Null => Ok false
  | Defined properties =>
      let possibleValues :=
        match value filter with
        | Many vs => vs
        | Single v => [v]
        end in
      let foundValue := get properties (key filter) in
      let wrongType :=
        match propertyOperatorToRequiredValueType (operator filter) with
        | Some requiredValueType =>
            negb (String.eqb (typeof foundValue) requiredValueType)
        | None => false
        end in
      if wrongType then Ok false
      else
        let is_string (v : JsVal) := String.eqb (typeof v) "string" in
        let foundValueLowerCase := toLowerCase R (string_of foundValue) in
        match operator filter with
        | Exact =>
            some_exc (fun possibleValue => Ok (strict_eq possibleValue foundValue))
              possibleValues
        | IsNot =>
            some_exc (fun possibleValue => Ok (negb (strict_eq possibleValue foundValue)))
              possibleValues
        | IContains =>
            some_exc (fun possibleValue =>
                        Ok (is_string possibleValue
                            && includes R foundValueLowerCase
                                 (toLowerCase R (string_of possibleValue))))
              possibleValues
        | NotIContains =>
            some_exc (fun possibleValue =>
                        Ok (is_string possibleValue
                            && negb (includes R foundValueLowerCase
                                       (toLowerCase R (string_of possibleValue)))))
              possibleValues
        | Regex =>
            some_exc (fun possibleValue =>
                        if is_string possibleValue
                        then regexp_test R (string_of possibleValue) foundValue
                        else Ok false)
              possibleValues
        | NotRegex =>
            some_exc (fun possibleValue =>
                        if is_string possibleValue
                        then bindExc (regexp_test R (string_of possibleValue) foundValue)
                               (fun b => Ok (negb b))
                        else Ok false)
              possibleValues
        | GreaterThan =>
            some_exc (fun possibleValue => Ok (less_than R possibleValue foundValue))
              possibleValues
        | LessThan =>
            some_exc (fun possibleValue => Ok (less_than R foundValue possibleValue))
              possibleValues
        | IsSet =>
            some_exc (fun _ => Ok (negb (strict_eq foundValue JUndefined)))
              possibleValues
        | IsNotSet =>
            some_exc (fun _ => Ok (strict_eq foundValue JUndefined)) possibleValues
        | OtherOperator name =>
            Throw ("Operator " ++ name
                   ++ " is unknown and can't be used for event property filtering!")
        end
  end.

Definition checkEventAgainstEventFilter (event : PluginEvent)
    (filter : PropertyFilterWithOperator) : Exc bool :=
  checkPropertiesAgainstFilter (properties event) filter.

Definition checkEventAgainstPersonFilter (event : PluginEvent)
    (filter : PropertyFilterWithOperator) : Exc bool :=
  checkPropertiesAgainstFilter (properties event) filter.

Definition checkEventAgainstElementFilter (elements : list Element)
    (filter : PropertyFilterWithOperator) : Exc bool :=
  some_exc (fun element => checkPropertiesAgainstFilter (Defined element) filter)
    elements.

Definition checkEventAgainstCohortFilter (event : PluginEvent)
    (filter : PropertyFilterWithOperator) : Exc bool :=
  Ok false.

Definition checkEventAgainstFilter (event : PluginEvent)
    (elements : list Element) (filter : PropertyFilter) : Exc bool :=
  match type filter with
  | EventFilter => checkEventAgainstEventFilter event (ActionMatcher.filter filter)
  | PersonFilter => checkEventAgainstPersonFilter event (ActionMatcher.filter filter)
  | ElementFilter => checkEventAgainstElementFilter elements (ActionMatcher.filter filter)
  | CohortFilter => checkEventAgainstCohortFilter event (ActionMatcher.filter filter)
  | OtherFilter => Ok false
  end.

Definition checkStepFilters (event : PluginEvent) (elements : list Element)
    (step : ActionStep) : Exc bool :=
  match step_properties step with
  | Defined (f :: fs) =>
      every_exc (fun filter => checkEventAgainstFilter event elements filter) (f :: fs)
  | _ => Ok true
  end.

(** The elements [match] hands to the checks: those found under
  [$elements] of the properties, none without properties.
  [extractElements] is not among the sources and is a parameter. *)
Definition elements_of (extractElements : JsVal -> list Element)
    (event : PluginEvent) : list Element :=
  match properties event with
  | Defined props =>
      let rawElements := get props "$elements" in
      if truthy rawElements then extractElements rawElements else []
  | _ => []
  end.

End WithRuntime.

(** A runtime for the examples: case is left alone, [includes] is
  equality, no pattern matches, only numbers compare. *)
Definition sample_runtime : Runtime :=
  {| toLowerCase := fun s => s;
     includes := String.eqb;
     regexp_test := fun _ _ => Ok false;
     less_than := fun a b =>
       match a, b with
       | JNum x, JNum y => x <? y
       | _, _ => false
       end |}.

End ActionMatcher.

(* ===================================================================== *)
(** * Part I, continued.  More of the program                             *)
(* ===================================================================== *)

(** ** Action steps (src/worker/ingestion/action-matcher.ts) *)

Module ActionSteps.
Import Js ActionMatcher.

(** [ActionStepUrlMatching], or any other string that is not empty. *)
Inductive UrlMatching : Type :=
| Contains
| UrlRegex
| UrlExact
| OtherMatching (name : string).

(** An action step: the fields that the filter check reads ([filters]) and
    those that the other checks read.  A string field is [None] when it is
    [null]. *)
Record Step := mkStep {
  filters : ActionStep;
  tag_name : option string;
  text : option string;
  href : option string;
  url : option string;
  url_matching : option UrlMatching
}.

Record Action := mkAction {
  action_id : Z;
  steps : list Step
}.

(** A nullable string as a condition: [null] and the empty string are
    falsy. *)
Definition given (s : option string) : option string :=
  match s with
  | Some v => if String.eqb v "" then None else Some v
  | None => None
  end.

(** [text.replace(/c/g, by)]. *)
Fixpoint replace_all (c : ascii) (by_ : string) (text : string) : string :=
  match text with
  | EmptyString => EmptyString
  | String a rest =>
      if Ascii.eqb a c then by_ ++ replace_all c by_ rest
      else String a (replace_all c by_ rest)
  end.

Section WithRuntime.
Context (R : Runtime).
(** [escapeStringRegexp] comes from a package of that name. *)
Context (escapeStringRegexp : string -> string).

(** [event.properties?.$current_url]. *)
Definition current_url (event : PluginEvent) : JsVal :=
  match properties event with
  | Defined props => get props "$current_url"
  | _ => JUndefined
  end.

Definition checkStepUrl (event : PluginEvent) (step : Step) : Exc bool :=
  match url_matching step with
  | None => Ok true
  | Some matching =>
      let stepUrl := default "" (given (url step)) in
      let eventUrl := current_url event in
      if negb (truthy eventUrl) || negb (String.eqb (typeof eventUrl) "string")
      then Ok false
      else
        match matching with
        | Contains =>
            let adjustedRegExpString :=
              replace_all "%" ".*" (replace_all "_" "." (escapeStringRegexp stepUrl)) in
            regexp_test R (".*" ++ adjustedRegExpString ++ ".*") eventUrl
        | UrlRegex => regexp_test R stepUrl eventUrl
        | UrlExact => Ok (strict_eq (JStr stepUrl) eventUrl)
        | OtherMatching name =>
            Throw ("Unrecognized ActionStep.url_matching value " ++ name ++ "!")
        end
  end.

(** The test that [checkStepElement] runs on each element. *)
Definition element_matches (step : Step) (element : Element) : bool :=
  match given (href step) with
  | Some h => strict_eq (get element "href") (JStr h)
  | None => true
  end
  && match given (tag_name step) with
     | Some t => strict_eq (get element "tag_name") (JStr t)
     | None => true
     end
  && match given (text step) with
     | Some t => strict_eq (get element "text") (JStr t)
     | None => true
     end.

Definition checkStepElement (elements : list Element) (step : Step) : bool :=
  if bool_decide (is_Some (given (href step)))
     || bool_decide (is_Some (given (text step)))
     || (bool_decide (is_Some (given (href step)))
         && negb (bool_decide (elements = [])))
  then existsb (element_matches step) elements
  else true.

Definition checkStepEvent (event : PluginEvent) (step : Step) : bool :=
  match given (step_event (filters step)) with
  | Some name => String.eqb (ActionMatcher.event event) name
  | None => true
  end.

(** [a && b && c && d]: a check runs only when those before it passed. *)
Definition checkStep (event : PluginEvent) (elements : list Element)
    (step : Step) : Exc bool :=
  if checkStepElement elements step then
    match checkStepUrl event step with
    | Ok true =>
        if checkStepEvent event step
        then checkStepFilters R event elements (filters step)
        else Ok false
    | other => other
    end
  else Ok false.

Definition checkAction (event : PluginEvent) (elements : list Element)
    (action : Action) : Exc bool :=
  some_exc (fun step => checkStep event elements step) (steps action).

(** [teamActions.filter(...)] for a test that may throw. *)
Fixpoint filter_exc {A} (test : A -> Exc bool) (l : list A) : Exc (list A) :=
  match l with
  | [] => Ok []
  | x :: r =>
      match test x with
      | Ok b =>
          match filter_exc test r with
          | Ok r' => Ok (if b then x :: r' else r')
          | Throw e => Throw e
          end
      | Throw e => Throw e
      end
  end.

(** [match]: the action manager and [extractElements] are not among the
    sources; the team's actions and the extractor are parameters. *)
Definition match_ (teamActions : list Action)
    (extractElements : JsVal -> list Element) (event : PluginEvent)
  : Exc (list Action) :=
  let elements := elements_of extractElements event in
  filter_exc (fun action => checkAction event elements action) teamActions.

End WithRuntime.

End ActionSteps.

(** ** Capabilities and metrics of a loaded VM (src/worker/vm/lazy.ts) *)

Module Capabilities.

(** The entries of an object of optional callables, in the order of
    [Object.entries]: each name with whether its value is truthy. *)
Abbreviation Entries := (list (string * bool)).

(** [PluginConfigVMResponse], as far as the inference reads it:
    [vm.methods], [vm.tasks?.schedule], [vm.tasks?.job] and [vm.metrics];
    [None] is [undefined]. *)
Record VmResponse := mkVmResponse {
  methods : option Entries;
  schedule : option Entries;
  job : option Entries;
  metrics : option (gmap string string)
}.

(** [Required<PluginCapabilities>]. *)
Record RequiredCapabilities := mkRequiredCapabilities {
  scheduled_tasks : list string;
  jobs : list string;
  capability_methods : list string
}.

(** [PluginCapabilities]: each field may be missing. *)
Record PluginCapabilities := mkPluginCapabilities {
  scheduled_tasks_opt : option (list string);
  jobs_opt : option (list string);
  methods_opt : option (list string)
}.

#[global] Instance PluginCapabilities_eq_dec : EqDecision PluginCapabilities.
Proof. solve_decision. Defined.

(** The two fields of the plugin row that the inference keeps up to date. *)
Record Plugin := mkPlugin {
  capabilities : option PluginCapabilities;
  plugin_metrics : option (gmap string string)
}.

(** The writes to the plugin table. *)
Inductive Write : Type :=
| SetPluginCapabilities (c : RequiredCapabilities)
| SetPluginMetrics (m : option (gmap string string)).

Definition as_stored (c : RequiredCapabilities) : PluginCapabilities :=
  {| scheduled_tasks_opt := Some (scheduled_tasks c);
     jobs_opt := Some (jobs c);
     methods_opt := Some (capability_methods c) |}.

(** The names pushed by [for (const [key, value] of Object.entries(o)) if
    (value) list.push(key)], nothing for a missing object. *)
Definition truthy_keys (o : option Entries) : list string :=
  match o with
  | Some entries => fst <$> filter (fun e => snd e = true) entries
  | None => []
  end.

(** [equal(prevCapabilities, capabilities)]: deep equality of a stored
    value with a value that has all three lists. *)
Definition equal_capabilities (prev : option PluginCapabilities)
    (c : RequiredCapabilities) : bool :=
  bool_decide (prev = Some (as_stored c)).

(** [inferPluginCapabilities] for a config that has its plugin: the plugin
    afterwards and the writes made.  The writes to the plugin table are
    taken to succeed. *)
Definition inferPluginCapabilities (plugin : Plugin) (vm : VmResponse)
  : Plugin * list Write :=
  let capabilities' :=
    {| scheduled_tasks := truthy_keys (schedule vm);
       jobs := truthy_keys (job vm);
       capability_methods := truthy_keys (methods vm) |} in
  if negb (equal_capabilities (capabilities plugin) capabilities')
  then ({| capabilities := Some (as_stored capabilities');
           plugin_metrics := plugin_metrics plugin |},
        [SetPluginCapabilities capabilities'])
  else (plugin, []).

(** The metrics every exporting plugin gets. *)
Definition export_metrics : gmap string string :=
  {[ "events-seen" := "sum";
     "events-delivered-successfully" := "sum";
     "retry-errors" := "sum";
     "other-errors" := "sum" ]}.

(** [(plugin.capabilities?.methods || []).includes('exportEvents')]. *)
Definition exports_events (plugin : Plugin) : bool :=
  match capabilities plugin with
  | Some c => bool_decide ("exportEvents" ∈ default [] (methods_opt c))
  | None => false
  end.

(** [inferPluginMetrics] for a config that has its plugin. *)
Definition inferPluginMetrics (plugin : Plugin) (vm : VmResponse)
  : Plugin * list Write :=
  let newMetrics :=
    if exports_events plugin
    then Some (export_metrics ∪ default ∅ (metrics vm))
    else metrics vm in
  let oldMetrics := plugin_metrics plugin in
  match metrics vm with
  | Some _ =>
      if negb (bool_decide (oldMetrics = newMetrics))
      then ({| capabilities := capabilities plugin; plugin_metrics := newMetrics |},
            [SetPluginMetrics newMetrics])
      else (plugin, [])
  | None => (plugin, [])
  end.

(** The two inferences as [initialize] runs them after the VM is created. *)
Definition infer (plugin : Plugin) (vm : VmResponse) : Plugin * list Write :=
  let r1 := inferPluginCapabilities plugin vm in
  let r2 := inferPluginMetrics (fst r1) vm in
  (fst r2, snd r1 ++ snd r2).

End Capabilities.

(** ** The schedule of periodic tasks ([loadSchedule], src/plugins/setup.ts) *)

Module Schedule.
Import Js.

(** [Object.entries] of the tasks a VM returns: each name with whether
    its value is truthy. *)
Abbreviation Tasks := (list (string * bool)).

Record PluginSchedule := mkPluginSchedule {
  runEveryMinute : list Z;
  runEveryHour : list Z;
  runEveryDay : list Z
}.

(** [taskName in pluginSchedule] for a name that is not one of the three
    lists: true for the names the object inherits, none of which holds
    an array. *)
Definition inherited (taskName : string) : bool := Js.inherited taskName.

(** [if (task && taskName in pluginSchedule) pluginSchedule[taskName].push(id)]. *)
Definition push_task (id : Z) (acc : Exc PluginSchedule) (entry : string * bool)
  : Exc PluginSchedule :=
  bindExc acc (fun s =>
    if snd entry
    then
      if String.eqb (fst entry) "runEveryMinute"
      then Ok {| runEveryMinute := runEveryMinute s ++ [id];
                 runEveryHour := runEveryHour s; runEveryDay := runEveryDay s |}
      else if String.eqb (fst entry) "runEveryHour"
      then Ok {| runEveryMinute := runEveryMinute s;
                 runEveryHour := runEveryHour s ++ [id];
                 runEveryDay := runEveryDay s |}
      else if String.eqb (fst entry) "runEveryDay"
      then Ok {| runEveryMinute := runEveryMinute s;
                 runEveryHour := runEveryHour s;
                 runEveryDay := runEveryDay s ++ [id] |}
      else if inherited (fst entry)
      then Throw "TypeError: pluginSchedule[taskName].push is not a function"
      else Ok s
    else Ok s).

(** The loop of [loadSchedule] over the entries of [server.pluginConfigs],
    each with the tasks of its VM ([None] for a config without VM). *)
Definition gather (configs : list (Z * option Tasks)) : Exc PluginSchedule :=
  fold_left
    (fun acc config => fold_left (push_task (fst config)) (default [] (snd config)) acc)
    configs (Ok {| runEveryMinute := []; runEveryHour := []; runEveryDay := [] |}).

(** [server.pluginSchedule] once [loadSchedule] has ended: it is set to
    [null] first and assigned only when the loop has not thrown. *)
Definition loadSchedule (configs : list (Z * option Tasks)) : option PluginSchedule :=
  match gather configs with
  | Ok s => Some s
  | Throw _ => None
  end.

(** A VM's tasks hold a truthy task of the given name. *)
Definition has_task (taskName : string) (tasks : option Tasks) : bool :=
  bool_decide ((taskName, true) ∈ default [] tasks).

(** What a config adds to one list. *)
Definition pushed (b : bool) (id : Z) : list Z := if b then [id] else [].

(** The ids of the configs that have the task, in the order of the configs. *)
Definition ids_with (taskName : string) (configs : list (Z * option Tasks)) : list Z :=
  fst <$> filter (fun config => has_task taskName (snd config) = true) configs.

(** Some VM has a truthy task named like an inherited property. *)
Definition inherited_task (configs : list (Z * option Tasks)) : bool :=
  existsb (fun config => existsb (fun entry => snd entry && inherited (fst entry))
                           (default [] (snd config))) configs.

(** Four configs: one without VM, one with a task that is switched off
    and a task of another name. *)
Definition sample_configs : list (Z * option Tasks) :=
  [(39, Some [("runEveryDay", true)]); (40, None);
   (41, Some [("runEveryMinute", true); ("runEveryHour", false); ("setup", true)]);
   (42, Some [("runEveryMinute", true)])].

End Schedule.

(** ** What the team cache appends ([EventsProcessor.storeNamesAndProperties]) *)

Module TeamLists.
Import Js TeamCache.

(** The entry [{ key, usage_count: null, volume: null }] pushed with a name. *)
Definition unused (key : string) : WithUsage := mkWithUsage key None None.

(** The keys of the entries whose value is a number. *)
Definition numeric_keys (properties : list (string * JsVal)) : list string :=
  fst <$> filter (fun entry => typeof (snd entry) = "number") properties.

End TeamLists.

(** ** More of the person store ([DB.fetchDistinctIdValues],
    [EventsProcessor.setIsIdentified]) *)

Module Persons.
Import Js Async Db EventsProcessor.

(** [SELECT * FROM posthog_persondistinctid WHERE person_id = $1 AND
    team_id = $2 ORDER BY id], mapped to the distinct ids. *)
Definition fetchDistinctIdValues (person : Person) : M (list string) :=
  postgresQuery (QSelectDistinctIds (PInt (per_id person)) (per_team_id person))
    (fun s =>
       (Resolved
          (pdi_distinct_id
             <$> array_sort (compare_by pdi_id)
                   (filter (fun row => pdi_person_id row = per_id person
                                       /\ pdi_team_id row = per_team_id person)
                      (distinct_ids s))), s)).

Definition setIsIdentified (fresh : Fresh) (teamId : Z) (distinctId : string)
    (isIdentified : bool) : M unit :=
  let! personFound := await (fetchPerson teamId distinctId) in
  let! personFound :=
    match personFound with
    | Some _ => ret personFound
    | None =>
        try_catch
          (let! personCreated :=
             await (createPerson (utc_now fresh) ∅ teamId None true
                      (new_uuid fresh) []) in
           run! fire (addDistinctId personCreated distinctId) in
           ret personFound)
          (fun _ => await (fetchPerson teamId distinctId))
    end in
  match personFound with
  | Some person =>
      if negb (per_is_identified person)
      then run! await (updatePerson person
                         {| u_created_at := None; u_properties := None;
                            u_is_identified := Some isIdentified |}) in
           ret tt
      else ret tt
  | None => ret tt
  end.

(** The serial columns have not yet given out their next value. *)
Definition serials_ok (s : Store) : Prop :=
  (forall p, p ∈ persons s -> per_id p < next_person_id s)
  /\ (forall row, row ∈ distinct_ids s -> pdi_id row < next_distinct_id_id s).

(** No row of the team carries the distinct id. *)
Definition free (s : Store) (teamId : Z) (distinctId : string) : Prop :=
  forall row, row ∈ distinct_ids s ->
    ~ (pdi_team_id row = teamId /\ pdi_distinct_id row = distinctId).

(** The rows that consecutive inserts for one person create. *)
Fixpoint new_rows (first : Z) (personId teamId : Z) (distinctIds : list string)
  : list PersonDistinctId :=
  match distinctIds with
  | [] => []
  | d :: rest =>
      {| pdi_id := first; pdi_person_id := personId; pdi_distinct_id := d;
         pdi_team_id := teamId |} :: new_rows (first + 1) personId teamId rest
  end.

End Persons.

(** ** The job queue consumer (src/main/job-queues/graphile-queue.ts)

    The consumer side of [GraphileQueue].  Its methods are awaited one
    after the other.  A pool is named by the number of pools made before
    it, a runner by the pool it runs on. *)

Module GraphileQueue.

Record State := mkState {
  started : bool;
  paused : bool;
  runner : option nat;
  consumerPool : option nat;
  (** the pools that [createPostgresPool] has made *)
  pools : nat;
  (** the pools on which [end] has returned *)
  ended : list nat;
  (** the runners on which [stop] has returned *)
  stopped : list nat
}.

(** What the calls of one [syncState] end in: [true] for a call that
    returns, [false] for one that throws. *)
Record Env := mkEnv {
  queryOk : bool;
  runOk : bool;
  stopOk : bool;
  endOk : bool
}.

(** The call that made a method reject. *)
Inductive Failure : Type :=
| PoolFailed
| RunFailed
| StopFailed
| EndFailed.

(** The state of a new queue. *)
Definition constructor : State :=
  {| started := false; paused := false; runner := None; consumerPool := None;
     pools := 0; ended := []; stopped := [] |}.

(** [syncState]: the state it leaves and the failure it rejects with, if
    any.  [createPool] makes the pool and rejects when its first query
    fails; the pool is assigned to [consumerPool] only when it resolves. *)
Definition syncState (env : Env) (st : State) : State * option Failure :=
  if started st && negb (paused st)
  then
    match runner st with
    | None =>
        let pool := pools st in
        if queryOk env
        then
          if runOk env
          then ({| started := started st; paused := paused st;
                   runner := Some pool; consumerPool := Some pool;
                   pools := S (pools st); ended := ended st;
                   stopped := stopped st |}, None)
          else ({| started := started st; paused := paused st;
                   runner := None; consumerPool := Some pool;
                   pools := S (pools st); ended := ended st;
                   stopped := stopped st |}, Some RunFailed)
        else ({| started := started st; paused := paused st;
                 runner := None; consumerPool := consumerPool st;
                 pools := S (pools st); ended := ended st;
                 stopped := stopped st |}, Some PoolFailed)
    | Some _ => (st, None)
    end
  else
    match runner st with
    | Some oldRunner =>
        if stopOk env
        then
          match consumerPool st with
          | Some pool =>
              if endOk env
              then ({| started := started st; paused := paused st;
                       runner := None; consumerPool := consumerPool st;
                       pools := pools st; ended := ended st ++ [pool];
                       stopped := stopped st ++ [oldRunner] |}, None)
              else ({| started := started st; paused := paused st;
                       runner := None; consumerPool := consumerPool st;
                       pools := pools st; ended := ended st;
                       stopped := stopped st ++ [oldRunner] |}, Some EndFailed)
          | None =>
              ({| started := started st; paused := paused st;
                  runner := None; consumerPool := consumerPool st;
                  pools := pools st; ended := ended st;
                  stopped := stopped st ++ [oldRunner] |}, None)
          end
        else ({| started := started st; paused := paused st;
                 runner := None; consumerPool := consumerPool st;
                 pools := pools st; ended := ended st;
                 stopped := stopped st |}, Some StopFailed)
    | None => (st, None)
    end.

Definition set_started (b : bool) (st : State) : State :=
  {| started := b; paused := paused st; runner := runner st;
     consumerPool := consumerPool st; pools := pools st; ended := ended st;
     stopped := stopped st |}.

Definition set_paused (b : bool) (st : State) : State :=
  {| started := started st; paused := b; runner := runner st;
     consumerPool := consumerPool st; pools := pools st; ended := ended st;
     stopped := stopped st |}.

Definition startConsumer (env : Env) (st : State) : State * option Failure :=
  syncState env (set_started true st).

Definition stopConsumer (env : Env) (st : State) : State * option Failure :=
  syncState env (set_started false st).

Definition pauseConsumer (env : Env) (st : State) : State * option Failure :=
  syncState env (set_paused true st).

Definition resumeConsumer (env : Env) (st : State) : State * option Failure :=
  syncState env (set_paused false st).

Definition isConsumerPaused (st : State) : bool := paused st.

Inductive Call : Type :=
| StartConsumer
| StopConsumer
| PauseConsumer
| ResumeConsumer.

Definition call (c : Call) : Env -> State -> State * option Failure :=
  match c with
  | StartConsumer => startConsumer
  | StopConsumer => stopConsumer
  | PauseConsumer => pauseConsumer
  | ResumeConsumer => resumeConsumer
  end.

(** A sequence of calls on a new queue: the state at the end and what
    each call ended in. *)
Definition calls (l : list (Call * Env)) : State * list (option Failure) :=
  fold_left
    (fun acc ce =>
       let r := call (fst ce) (snd ce) (fst acc) in
       (fst r, snd acc ++ [snd r]))
    l (constructor, []).

(** The number of calls that failed. *)
Definition failures (outcomes : list (option Failure)) : nat :=
  length (filter (fun o => is_Some o) outcomes).

Definition failed (o : option Failure) : nat :=
  match o with
  | Some _ => 1
  | None => 0
  end.

(** The number of pools that serve a runner. *)
Definition in_use (st : State) : nat :=
  match runner st with
  | Some _ => 1
  | None => 0
  end.

(** What holds between the calls: a runner exists only while the
    consumer is started and not paused, on the pool that [consumerPool]
    holds; and every pool made is ended, in use, or left by a failed
    call. *)
Definition consistent (st : State) (outcomes : list (option Failure)) : Prop :=
  (forall p, runner st = Some p ->
     started st = true /\ paused st = false /\ consumerPool st = Some p)
  /\ pools st = (length (ended st) + in_use st + failures outcomes)%nat.

Definition all_ok : Env :=
  {| queryOk := true; runOk := true; stopOk := true; endOk := true |}.

End GraphileQueue.

(** ** Events captured by plugins ([createPosthog]) *)

Module Posthog.
Import Js.

(** [InternalData].  [timestamp] is whatever the caller passed under
    that key. *)
Record InternalData := mkInternalData {
  distinct_id : string;
  event : string;
  timestamp : JsVal;
  properties : Properties;
  team_id : Z;
  uuid : string
}.

(** What [sendEvent] hands over: the message for the ingestion topic,
    before it is serialised, or the arguments of the Celery task. *)
Inductive Sent : Type :=
| KafkaMessage (key : string) (distinct_id ip site_url : string)
    (data : InternalData) (team_id : Z) (now sent_at : JsVal) (uuid : string)
| CeleryTask (name : string) (distinct_id : string) (ip site_url : JsVal)
    (data : InternalData) (team_id : Z) (now sent_at : JsVal).

(** The fields of the plugin config that [createPosthog] reads;
    [plugin_name] is [pluginConfig.plugin?.name]. *)
Record PluginConfig := mkPluginConfig {
  plugin_name : option string;
  plugin_id : Z;
  config_team_id : Z
}.

(** [pluginConfig.plugin?.name || `plugin-id-${pluginConfig.plugin_id}`]. *)
Definition distinctId (pluginConfig : PluginConfig) : string :=
  match plugin_name pluginConfig with
  | Some name =>
      if String.eqb name "" then "plugin-id-" ++ pretty (plugin_id pluginConfig)
      else name
  | None => "plugin-id-" ++ pretty (plugin_id pluginConfig)
  end.

Definition sendEvent (KAFKA_ENABLED : bool) (pluginConfig : PluginConfig)
    (data : InternalData) : Sent :=
  if KAFKA_ENABLED
  then KafkaMessage (uuid data) (distinct_id data) "" "" data
         (config_team_id pluginConfig) (timestamp data) (timestamp data) (uuid data)
  else CeleryTask "posthog.tasks.process_event.process_event_with_plugins"
         (distinct_id data) JNull JNull data (config_team_id pluginConfig)
         (timestamp data) (timestamp data).

(** [capture(event, properties = {})]: [utc_now] is
    [DateTime.utc().toISO()], [version] the version of the package,
    [new_uuid] the fresh [UUIDT].  The default of a destructured key
    applies when the key is missing or [undefined]. *)
Definition capture (KAFKA_ENABLED : bool) (pluginConfig : PluginConfig)
    (version utc_now new_uuid : string)
    (event : string) (properties : option Properties) : Sent :=
  let properties := default ∅ properties in
  let timestamp :=
    match properties !! "timestamp" with
    | Some JUndefined | None => JStr utc_now
    | Some v => v
    end in
  let otherProperties := delete "timestamp" properties in
  let data :=
    {| distinct_id := distinctId pluginConfig;
       event := event;
       timestamp := timestamp;
       properties :=
         spread2 {[ "$lib" := JStr "posthog-plugin-server";
                    "$lib_version" := JStr version ]}
           otherProperties;
       team_id := config_team_id pluginConfig;
       uuid := new_uuid |} in
  sendEvent KAFKA_ENABLED pluginConfig data.

(** The data that was sent, and the two times sent with it. *)
Definition sent_data (s : Sent) : InternalData :=
  match s with
  | KafkaMessage _ _ _ _ data _ _ _ _ => data
  | CeleryTask _ _ _ _ data _ _ _ => data
  end.

Definition sent_times (s : Sent) : JsVal * JsVal :=
  match s with
  | KafkaMessage _ _ _ _ _ _ now sent_at _ => (now, sent_at)
  | CeleryTask _ _ _ _ _ _ now sent_at => (now, sent_at)
  end.

End Posthog.

(** ** Element groups ([DB.createElementGroup]) *)

Module Elements.
Import Js Async.

Record Element := mkElement {
  text : option string;
  tag_name : option string;
  href : option string;
  attr_id : option string;
  nth_child : option Z;
  nth_of_type : option Z;
  attributes : option Properties;
  order : option Z;
  event_id : option Z;
  attr_class : option (list string)
}.

(** A row of [posthog_element]; the [attributes] column is never NULL. *)
Record ElementRow := mkElementRow {
  row_element : Element;
  row_attributes : Properties;
  group_id : Z
}.

Record ElementGroup := mkElementGroup {
  id : Z;
  hash : string;
  team_id : Z
}.

Record Store := mkStore {
  groups : list ElementGroup;
  elements : list ElementRow;
  next_group_id : Z
}.

Inductive Query : Type :=
| QInsertElementGroup (hash : string) (teamId : Z)
| QInsertElement (element : Element) (groupId : Z).

Abbreviation M := (Async.M Store Query).

Fixpoint forM_ {A} (l : list A) (f : A -> M unit) : M unit :=
  match l with
  | [] => ret tt
  | x :: r => run! f x in forM_ r f
  end.

(** [{ ...element, order: index }]. *)
Definition with_order (element : Element) (index : nat) : Element :=
  {| text := text element; tag_name := tag_name element; href := href element;
     attr_id := attr_id element; nth_child := nth_child element;
     nth_of_type := nth_of_type element; attributes := attributes element;
     order := Some (Z.of_nat index); event_id := event_id element;
     attr_class := attr_class element |}.

(** [INSERT INTO posthog_elementgroup (hash, team_id)]: the table has a
    unique constraint on the team and the hash.  An insert that is
    rejected uses up the value of the serial that the row would have
    got. *)
Definition insert_group (hash : string) (teamId : Z) (s : Store)
  : Outcome ElementGroup * Store :=
  if existsb (fun g => String.eqb (Elements.hash g) hash
                       && bool_decide (team_id g = teamId)) (groups s)
  then (Rejected UniqueViolation,
        {| groups := groups s; elements := elements s;
           next_group_id := next_group_id s + 1 |})
  else
    let g := {| id := next_group_id s; hash := hash; team_id := teamId |} in
    (Resolved g,
     {| groups := groups s ++ [g]; elements := elements s;
        next_group_id := next_group_id s + 1 |}).

(** [INSERT INTO posthog_element (...)], with [element.attributes || '{}']. *)
Definition insert_element (element : Element) (groupId : Z) (s : Store)
  : Outcome unit * Store :=
  (Resolved tt,
   {| groups := groups s;
      elements := elements s
                  ++ [ {| row_element := element;
                          row_attributes := default ∅ (attributes element);
                          group_id := groupId |} ];
      next_group_id := next_group_id s |}).

Section WithHash.
(** [hashElements] is not among the sources. *)
Context (hashElements : list Element -> string).

Definition createElementGroup (elements : list Element) (teamId : Z) : M string :=
  let cleanedElements := imap (fun index element => with_order element index) elements in
  let hash := hashElements cleanedElements in
  run! try_catch
         (let! elementGroup :=
            await (postgresQuery (QInsertElementGroup hash teamId)
                     (insert_group hash teamId)) in
          forM_ cleanedElements (fun element =>
            await (postgresQuery (QInsertElement element (id elementGroup))
                     (insert_element element (id elementGroup)))))
         (fun error =>
            match error with
            | UniqueViolation => ret tt
            | _ => reject error
            end) in
  ret hash.

End WithHash.

(** The rows that the inserts of one group add. *)
Definition rows_of (cleaned : list Element) (groupId : Z) : list ElementRow :=
  (fun element => {| row_element := element;
                     row_attributes := default ∅ (attributes element);
                     group_id := groupId |}) <$> cleaned.

End Elements.
(* ===================================================================== *)
(** * Part II. Properties                                                 *)
(* ===================================================================== *)

(** ** Plugin order *)

Section SortFacts.
Import Js.
Context {A : Type} (key : A -> Z).

Local Abbreviation cmp := (compare_by key).

(** Case analysis on the test of [sort_insert]. *)
Ltac case_cmp x y :=
  let Hle := fresh "Hle" in
  let Hgt := fresh "Hgt" in
  destruct (Z.leb_spec (compare_by key x y) 0) as [Hle|Hgt];
  [unfold compare_by in Hle|unfold compare_by in Hgt].

Lemma sort_insert_perm (x : A) (l : list A) :
  Permutation (sort_insert cmp x l) (x :: l).
Proof.
  induction l as [|y r IH]; simpl; [reflexivity|].
  destruct (cmp x y <=? 0); [reflexivity|].
  rewrite IH. apply perm_swap.
Qed.

Lemma array_sort_perm (l : list A) : Permutation (array_sort cmp l) l.
Proof.
  induction l as [|x l IH]; simpl; [reflexivity|].
  rewrite sort_insert_perm. by constructor.
Qed.

Lemma sort_insert_sorted (x : A) (l : list A) :
  StronglySorted (fun a b => key a <= key b) l ->
  StronglySorted (fun a b => key a <= key b) (sort_insert cmp x l).
Proof.
  induction 1 as [|y r Hr IH Hy]; simpl.
  - repeat constructor.
  - case_cmp x y.
    + constructor; [by constructor|].
      constructor; [lia|].
      eapply Forall_impl; [exact Hy|]. simpl. intros; lia.
    + constructor; [exact IH|].
      rewrite (sort_insert_perm x r). constructor; [lia|exact Hy].
Qed.

Lemma array_sort_sorted (l : list A) :
  StronglySorted (fun a b => key a <= key b) (array_sort cmp l).
Proof.
  induction l as [|x l IH]; simpl; [constructor|].
  by apply sort_insert_sorted.
Qed.

(** Stability: elements with the same key keep their relative order. *)
Lemma sort_insert_stable (k : Z) (x : A) (l : list A) :
  StronglySorted (fun a b => key a <= key b) l ->
  filter (fun a => key a = k) (sort_insert cmp x l)
  = filter (fun a => key a = k) (x :: l).
Proof.
  induction 1 as [|y r Hr IH Hy]; simpl; [done|].
  case_cmp x y; [done|].
  rewrite (filter_cons _ y), IH, !filter_cons.
  destruct (decide (key y = k)), (decide (key x = k)); try done.
  lia.
Qed.

Lemma array_sort_stable (k : Z) (l : list A) :
  filter (fun a => key a = k) (array_sort cmp l)
  = filter (fun a => key a = k) l.
Proof.
  induction l as [|x l IH]; simpl; [done|].
  rewrite sort_insert_stable by apply array_sort_sorted.
  by rewrite !filter_cons, IH.
Qed.

(** With a second key that increases along the input, the result is
    strictly increasing for the pair of keys. *)
Context (key2 : A -> Z).

Local Abbreviation lex_lt := (Js.lex_lt key key2).

Lemma sort_insert_lex (x : A) (l : list A) :
  Forall (fun y => key2 x < key2 y) l ->
  StronglySorted lex_lt l ->
  StronglySorted lex_lt (sort_insert cmp x l).
Proof.
  intros Hx Hs. induction Hs as [|y r Hr IH Hy]; simpl.
  - repeat constructor.
  - apply Forall_cons in Hx as [Hxy Hxr].
    case_cmp x y.
    + constructor; [by constructor|].
      assert (lex_lt x y) as Hl by (unfold Js.lex_lt; lia).
      constructor; [exact Hl|].
      rewrite Forall_forall in Hy, Hxr |- *. intros z Hz.
      specialize (Hy z Hz). specialize (Hxr z Hz).
      unfold Js.lex_lt in *. lia.
    + constructor; [by apply IH|].
      rewrite (sort_insert_perm x r). constructor; [|exact Hy].
      unfold Js.lex_lt. lia.
Qed.

Lemma array_sort_lex (l : list A) :
  StronglySorted (fun a b => key2 a < key2 b) l ->
  StronglySorted lex_lt (array_sort cmp l).
Proof.
  induction 1 as [|x l Hl IH Hx]; simpl; [constructor|].
  apply sort_insert_lex; [|exact IH].
  by rewrite (array_sort_perm l).
Qed.

End SortFacts.

Section PluginOrder.
Import Js Setup Pipeline.
Context {Vm : Type} (loadPlugin : PluginConfig Vm -> option Vm).

Lemma assign_vm_row (server loaded : PluginsServer Vm) (c : PluginConfig Vm) :
  row (assign_vm loadPlugin server loaded c) = row c.
Proof.
  unfold assign_vm. destruct (pluginConfigs server !! id c) as [prev|]; simpl.
  - destruct (_ && _); destruct (vm _); reflexivity.
  - destruct (vm c); reflexivity.
Qed.

(** The loop over the rows appends each accepted row to the list of its
    team, so a team's list is its accepted rows in row order. *)
Lemma grouped_lookup (server : PluginsServer Vm) atts rows acc (t : Z) :
  default [] (snd (fold_left (add_config_row server atts) rows acc) !! t)
  = default [] (snd acc !! t) ++ team_rows server atts rows t.
Proof.
  revert acc. induction rows as [|r rows IH]; intros acc; simpl.
  - by rewrite app_nil_r.
  - rewrite IH. unfold team_rows at 2. simpl. fold (team_rows server atts rows t).
    unfold add_config_row.
    destruct (config_of_row server atts r) as [pc|] eqn:Hc.
    + destruct (team_of_row r) as [t'|] eqn:Ht; simpl.
      * destruct (decide (t' = t)) as [->|Hne].
        -- rewrite lookup_insert_eq. simpl.
           rewrite bool_decide_eq_true_2 by done.
           by rewrite <- app_assoc.
        -- rewrite lookup_insert_ne by done.
           rewrite bool_decide_eq_false_2 by congruence. done.
      * done.
    + by destruct (bool_decide _).
Qed.

Lemma teamPipeline_setupPlugins (server : PluginsServer Vm)
    pluginRows attRows rows (t : Z) :
  teamPipeline (setupPlugins loadPlugin server pluginRows attRows rows) t
  = array_sort by_order
      (assign_vm loadPlugin server
         (loadPluginsFromDB server pluginRows attRows rows)
       <$> team_rows server (attachmentsPerConfig attRows) rows t).
Proof.
  unfold teamPipeline, setupPlugins. simpl.
  rewrite lookup_fmap.
  pose proof (grouped_lookup server (attachmentsPerConfig attRows) rows (∅, ∅) t) as H.
  simpl in H. rewrite lookup_empty in H. simpl in H. rewrite <- H.
  destruct (_ !! t); reflexivity.
Qed.

Lemma filter_order_assign_vm (server loaded : PluginsServer Vm) (o : Z)
    (l : list (PluginConfig Vm)) :
  id <$> filter (fun c => order c = o) (assign_vm loadPlugin server loaded <$> l)
  = id <$> filter (fun c => order c = o) l.
Proof.
  induction l as [|c l IH]; simpl; [done|].
  rewrite !filter_cons. unfold order, id in *.
  rewrite assign_vm_row.
  destruct (decide _); simpl; [|exact IH].
  rewrite assign_vm_row. f_equal. exact IH.
Qed.

Lemma sorted_id_assign_vm (server loaded : PluginsServer Vm)
    (l : list (PluginConfig Vm)) :
  StronglySorted (fun a b => id a < id b) l ->
  StronglySorted (fun a b => id a < id b)
    (assign_vm loadPlugin server loaded <$> l).
Proof.
  induction 1 as [|c l Hl IH Hc]; simpl; constructor; [exact IH|].
  apply Forall_fmap. eapply Forall_impl; [exact Hc|].
  intros b Hb. simpl. unfold id in *. by rewrite !assign_vm_row.
Qed.

End PluginOrder.

Section PipelineVisits.
Import Setup Pipeline.
Context {Event : Type}.

Lemma runConfigs_prefix (configs : list (PluginConfig (Vm Event))) (e : Event) :
  exists rest, configs = snd (runConfigs configs e) ++ rest.
Proof.
  revert e. induction configs as [|c rest IH]; intros e; simpl.
  - by exists [].
  - destruct (vm c ≫= processEvent) as [f|]; [destruct (f e) as [e'| |]|]; simpl.
    + destruct (IH e') as [r Hr]. exists r. by rewrite <- Hr.
    + by exists rest.
    + destruct (IH e) as [r Hr]. exists r. by rewrite <- Hr.
    + destruct (IH e) as [r Hr]. exists r. by rewrite <- Hr.
Qed.

Lemma runConfigs_all (configs : list (PluginConfig (Vm Event))) (e : Event) :
  fst (runConfigs configs e) <> None -> snd (runConfigs configs e) = configs.
Proof.
  revert e. induction configs as [|c rest IH]; intros e; simpl; [done|].
  destruct (vm c ≫= processEvent) as [f|]; [destruct (f e) as [e'| |]|]; simpl;
    intros H; try (f_equal; by apply IH); done.
Qed.

End PipelineVisits.

(** C1, as stated, fails: two configs of one team with equal [order] whose
  rows arrive with the larger id first stay in that order, so the list
  is not ascending in [(order, id)]. *)
Lemma setupPlugins_ties_not_by_id :
  (fun c => (Setup.id c, Setup.order c))
    <$> Setup.teamPipeline (PluginOrderExample.load PluginOrderExample.tied_rows) 2
  = [(41, 1); (40, 1)]
  /\ ~ StronglySorted (Js.lex_lt Setup.order Setup.id)
        (Setup.teamPipeline (PluginOrderExample.load PluginOrderExample.tied_rows) 2).
Proof.
  split; [vm_compute; reflexivity|].
  intros H. vm_compute in H.
  inversion H as [|a l Hl Ha]; subst.
  inversion Ha as [|b l' Hb _]; subst.
  unfold Js.lex_lt in Hb. vm_compute in Hb.
  destruct Hb as [Hb|[_ Hb]]; discriminate Hb.
Qed.

(** C1 (amended).  After any [setupPlugins] load, the pipeline list of
  every team is sorted ascending by [order] and holds exactly the
  team's accepted rows; configs with equal [order] stay in the order in
  which their rows were returned, so the list is strictly ascending in
  [(order, id)] whenever the team's rows were returned by ascending id.
  Pipeline execution visits the configs of the event's team in the order
  of that list: the visited configs are a prefix of it, and all of it
  unless a plugin dropped the event. *)
Theorem setupPlugins_order_stable {Event : Type} (team_id : Event -> Z)
    (loadPlugin : Setup.PluginConfig (Pipeline.Vm Event) -> option (Pipeline.Vm Event))
    (server : Setup.PluginsServer (Pipeline.Vm Event))
    (pluginRows : list Setup.Plugin)
    (attRows : list Setup.PluginAttachmentRow)
    (rows : list Setup.PluginConfigRow) (event : Event) :
  let server' := Setup.setupPlugins loadPlugin server pluginRows attRows rows in
  let loaded :=
    Setup.team_rows server (Setup.attachmentsPerConfig attRows) rows (team_id event) in
  let l := Setup.teamPipeline server' (team_id event) in
  let run := Pipeline.runProcessEvent team_id server' event in
  StronglySorted (fun a b => Setup.order a <= Setup.order b) l
  /\ Permutation (Setup.row <$> l) (Setup.row <$> loaded)
  /\ (forall o : Z,
        Setup.id <$> filter (fun c => Setup.order c = o) l
        = Setup.id <$> filter (fun c => Setup.order c = o) loaded)
  /\ (StronglySorted (fun a b => Setup.id a < Setup.id b) loaded ->
      StronglySorted (Js.lex_lt Setup.order Setup.id) l)
  /\ (exists rest, l = snd run ++ rest)
  /\ (fst run <> None -> snd run = l).
Proof.
  intros server' loaded l run.
  assert (Hl : l = Js.array_sort Setup.by_order
                 (Setup.assign_vm loadPlugin server
                    (Setup.loadPluginsFromDB server pluginRows attRows rows)
                  <$> loaded))
    by apply teamPipeline_setupPlugins.
  change (@Setup.by_order (Pipeline.Vm Event)) with (Js.compare_by (A:=Setup.PluginConfig (Pipeline.Vm Event)) Setup.order) in Hl.
  repeat split.
  - rewrite Hl. apply (array_sort_sorted Setup.order).
  - rewrite Hl. rewrite (array_sort_perm Setup.order).
    rewrite <- list_fmap_compose.
    assert (Hrow : forall xs : list (Setup.PluginConfig (Pipeline.Vm Event)),
      Setup.row ∘ Setup.assign_vm loadPlugin server
        (Setup.loadPluginsFromDB server pluginRows attRows rows) <$> xs
      = Setup.row <$> xs).
    { induction xs as [|c xs IH]; [done|].
      rewrite !fmap_cons. f_equal; [apply assign_vm_row|exact IH]. }
    by rewrite Hrow.
  - intros o. rewrite Hl.
    rewrite (array_sort_stable Setup.order). apply filter_order_assign_vm.
  - intros Hs. rewrite Hl. apply (array_sort_lex Setup.order Setup.id).
    by apply sorted_id_assign_vm.
  - apply runConfigs_prefix.
  - apply runConfigs_all.
Qed.

(** The rows of the repository's test "plugin config order" (orders 2, 1, 3
  for ids 39, 40, 41): here the premise on ids holds and the pipeline is
  [40; 39; 41]. *)
Lemma setupPlugins_order_stable_witness :
  StronglySorted (fun a b => Setup.id a < Setup.id b)
    (Setup.team_rows (Vm:=Pipeline.Vm unit) PluginOrderExample.server0
       (Setup.attachmentsPerConfig []) PluginOrderExample.test_rows 2)
  /\ StronglySorted (Js.lex_lt Setup.order Setup.id)
       (Setup.teamPipeline
          (Setup.setupPlugins (fun _ => Some (Pipeline.mkVm (Event:=unit) None))
             PluginOrderExample.server0
             [PluginOrderExample.plugin60] [] PluginOrderExample.test_rows) 2).
Proof.
  assert (Hs : StronglySorted (fun a b => Setup.id a < Setup.id b)
    (Setup.team_rows (Vm:=Pipeline.Vm unit) PluginOrderExample.server0
       (Setup.attachmentsPerConfig []) PluginOrderExample.test_rows 2)).
  { vm_compute. repeat constructor. }
  split; [exact Hs|].
  pose proof (setupPlugins_order_stable (Event:=unit) (fun _ => 2)
    (fun _ => Some (Pipeline.mkVm None)) PluginOrderExample.server0
    [PluginOrderExample.plugin60] [] PluginOrderExample.test_rows tt) as H.
  simpl in H. destruct H as (_ & _ & _ & H & _). exact (H Hs).
Defined.

(** ** Timestamp resolution *)

Section TimestampRules.
Import Js Luxon Timestamp.
Context (L : Settings).

Lemma ofMillis_in_range ms :
  in_range ms = true -> ofMillis L ms = Ok (DtValid ms).
Proof. unfold ofMillis. by intros ->. Qed.

Lemma fromISO_sound ts t :
  parseISO L ts = Some t -> in_range t = true -> fromISO L ts = Ok (DtValid t).
Proof. unfold fromISO. intros -> Ht. by apply ofMillis_in_range. Qed.

Lemma fromISO_unparsable ts :
  parseISO L ts = None -> fromISO L ts = invalidDateTime L.
Proof. unfold fromISO. by intros ->. Qed.

Lemma handleTimestamp_no_timestamp data now sentAt :
  timestamp_given data = None ->
  handleTimestamp L data now sentAt
  = match offset_given data with
    | Some o => minus L now (fromMillis o)
    | None => Ok now
    end.
Proof. unfold handleTimestamp. by intros ->. Qed.

Lemma handleTimestamp_unparsable data ts now sentAt :
  timestamp_given data = Some ts ->
  parseISO L ts = None ->
  handleTimestamp L data now sentAt = invalidDateTime L.
Proof.
  intros Hts Hp. unfold handleTimestamp, skew_corrected.
  rewrite Hts, (fromISO_unparsable _ Hp). unfold invalidDateTime.
  destruct sentAt as [sent|]; destruct (throwOnInvalid L) eqn:Ht; simpl; try done.
  unfold diff, invalidDuration. rewrite Ht. simpl.
  by destruct now.
Qed.

(** With a sound timestamp, an invalid [sent_at] makes the body of the
  [try] throw in either setting: the difference is refused where the
  library throws on invalid values, the sum where it does not. *)
Lemma skew_corrected_invalid_sent ts t now :
  parseISO L ts = Some t -> in_range t = true ->
  exists e, skew_corrected L ts (DtValid now) DtInvalid = Throw e.
Proof.
  intros Hp Ht. unfold skew_corrected. rewrite (fromISO_sound _ _ Hp Ht). simpl.
  unfold invalidDuration. destruct (throwOnInvalid L); simpl; by eexists.
Qed.

End TimestampRules.

(** C2, as stated, fails: with a timestamp that does not parse, no
  [sent_at] and an offset, the claim's precedence gives [now - offset],
  while the code returns what parsing the timestamp gave (an invalid
  date, or the parser's exception), whatever the library setting. *)
Lemma handleTimestamp_no_fallthrough_to_offset :
  let data := Timestamp.mkPluginEvent (Some "yesterday") (Some 150) in
  Timestamp.precedence_as_specified Timestamp.sample_parse data 1000000 None
    = 999850
  /\ Timestamp.handleTimestamp Timestamp.lenient data (Luxon.DtValid 1000000) None
    = Js.Ok Luxon.DtInvalid
  /\ Timestamp.handleTimestamp Timestamp.strict data (Luxon.DtValid 1000000) None
    = Js.Throw "Invalid DateTime"
  /\ ~ (forall L data now sentAt,
          Timestamp.handleTimestamp L data (Luxon.DtValid now)
            (Luxon.DtValid <$> sentAt)
          = Js.Ok (Luxon.DtValid
              (Timestamp.precedence_as_specified (Luxon.parseISO L) data now sentAt))).
Proof.
  repeat split; try reflexivity.
  intros H.
  specialize (H Timestamp.lenient
    (Timestamp.mkPluginEvent (Some "yesterday") (Some 150)) 1000000 None).
  vm_compute in H. discriminate H.
Qed.

(** C2 (amended).  For instants within the range of dates, the resolved
  time is [now + (timestamp - sent_at)] when a timestamp and a valid
  [sent_at] are given, the parsed timestamp when only the timestamp is
  given, [now - offset] when no timestamp but an offset is given, and
  [now] otherwise.  An error thrown while the first rule is computed
  makes the code go on with the second rule, and an invalid [sent_at]
  is such an error in either setting of the library: the result is then
  the parsed timestamp.  A timestamp that does not parse never reaches
  the offset and [now] rules: no valid date comes of it, but the
  invalid date, or the exception, that the library makes of it. *)
Theorem handleTimestamp_precedence (L : Luxon.Settings)
    (data : Timestamp.PluginEvent) (now : Z) :
  (forall ts t sent,
      Timestamp.timestamp_given data = Some ts ->
      Luxon.parseISO L ts = Some t ->
      Luxon.in_range now = true -> Luxon.in_range sent = true ->
      Luxon.in_range t = true -> Luxon.in_range (t - sent) = true ->
      Luxon.in_range (now + (t - sent)) = true ->
      Timestamp.handleTimestamp L data (Luxon.DtValid now) (Some (Luxon.DtValid sent))
      = Js.Ok (Luxon.DtValid (now + (t - sent))))
  /\ (forall ts t,
      Timestamp.timestamp_given data = Some ts ->
      Luxon.parseISO L ts = Some t ->
      Luxon.in_range t = true ->
      Timestamp.handleTimestamp L data (Luxon.DtValid now) None
      = Js.Ok (Luxon.DtValid t))
  /\ (forall o sentAt,
      Timestamp.timestamp_given data = None ->
      Timestamp.offset_given data = Some o ->
      Luxon.in_range now = true -> Luxon.in_range (now - o) = true ->
      Timestamp.handleTimestamp L data (Luxon.DtValid now) sentAt
      = Js.Ok (Luxon.DtValid (now - o)))
  /\ (forall sentAt,
      Timestamp.timestamp_given data = None ->
      Timestamp.offset_given data = None ->
      Timestamp.handleTimestamp L data (Luxon.DtValid now) sentAt
      = Js.Ok (Luxon.DtValid now))
  /\ (forall ts sent e nowDt,
      Timestamp.timestamp_given data = Some ts ->
      Timestamp.skew_corrected L ts nowDt sent = Js.Throw e ->
      Timestamp.handleTimestamp L data nowDt (Some sent) = Luxon.fromISO L ts)
  /\ (forall ts t,
      Timestamp.timestamp_given data = Some ts ->
      Luxon.parseISO L ts = Some t ->
      Luxon.in_range t = true ->
      (exists e, Timestamp.skew_corrected L ts (Luxon.DtValid now) Luxon.DtInvalid
                 = Js.Throw e)
      /\ Timestamp.handleTimestamp L data (Luxon.DtValid now) (Some Luxon.DtInvalid)
         = Js.Ok (Luxon.DtValid t))
  /\ (forall ts sentAt nowDt v,
      Timestamp.timestamp_given data = Some ts ->
      Luxon.parseISO L ts = None ->
      Timestamp.handleTimestamp L data nowDt sentAt <> Js.Ok (Luxon.DtValid v))
  /\ (forall ts sentAt nowDt,
      Timestamp.timestamp_given data = Some ts ->
      Luxon.parseISO L ts = None ->
      Timestamp.handleTimestamp L data nowDt sentAt = Luxon.invalidDateTime L).
Proof.
  refine (conj _ (conj _ (conj _ (conj _ (conj _ (conj _ (conj _ _))))))).
  - intros ts t sent Hts Hp _ _ Ht _ Hr.
    unfold Timestamp.handleTimestamp, Timestamp.skew_corrected.
    rewrite Hts, (fromISO_sound L _ _ Hp Ht). simpl.
    by rewrite (ofMillis_in_range L _ Hr).
  - intros ts t Hts Hp Ht.
    unfold Timestamp.handleTimestamp. by rewrite Hts, (fromISO_sound L _ _ Hp Ht).
  - intros o sentAt Hts Ho _ Hr.
    rewrite handleTimestamp_no_timestamp by done. rewrite Ho. simpl.
    by apply ofMillis_in_range.
  - intros sentAt Hts Ho.
    rewrite handleTimestamp_no_timestamp by done. by rewrite Ho.
  - intros ts sent e nowDt Hts Hthrow.
    unfold Timestamp.handleTimestamp. by rewrite Hts, Hthrow.
  - intros ts t Hts Hp Ht.
    destruct (skew_corrected_invalid_sent L ts t now Hp Ht) as [e He].
    split; [by exists e|].
    unfold Timestamp.handleTimestamp. rewrite Hts, He.
    by apply fromISO_sound.
  - intros ts sentAt nowDt v Hts Hp.
    rewrite (handleTimestamp_unparsable L data ts) by done.
    unfold Luxon.invalidDateTime. by destruct (Luxon.throwOnInvalid L).
  - intros ts sentAt nowDt Hts Hp.
    by apply (handleTimestamp_unparsable L data ts).
Qed.

(** Every rule of the theorem applies to some event. *)
Lemma handleTimestamp_precedence_witness :
  let both := Timestamp.mkPluginEvent (Some "2021-01-01T00:00:10.000Z") (Some 7) in
  let offs := Timestamp.mkPluginEvent None (Some 150) in
  let none := Timestamp.mkPluginEvent (Some "") (Some 0) in
  Timestamp.handleTimestamp Timestamp.lenient both (Luxon.DtValid 1609459300000)
    (Some (Luxon.DtValid 1609459200000))
  = Js.Ok (Luxon.DtValid 1609459310000)
  /\ Timestamp.handleTimestamp Timestamp.lenient both (Luxon.DtValid 1609459300000) None
  = Js.Ok (Luxon.DtValid 1609459210000)
  /\ Timestamp.handleTimestamp Timestamp.lenient offs (Luxon.DtValid 1000)
       (Some (Luxon.DtValid 5))
  = Js.Ok (Luxon.DtValid 850)
  /\ Timestamp.handleTimestamp Timestamp.lenient none (Luxon.DtValid 1000) None
  = Js.Ok (Luxon.DtValid 1000)
  /\ Timestamp.handleTimestamp Timestamp.strict both (Luxon.DtValid 1000)
       (Some Luxon.DtInvalid)
  = Js.Ok (Luxon.DtValid 1609459210000)
  /\ Timestamp.handleTimestamp Timestamp.lenient both (Luxon.DtValid 1000)
       (Some Luxon.DtInvalid)
  = Js.Ok (Luxon.DtValid 1609459210000).
Proof.
  intros both offs none.
  destruct (handleTimestamp_precedence Timestamp.lenient both 1609459300000)
    as (H1 & H2 & _).
  destruct (handleTimestamp_precedence Timestamp.lenient offs 1000)
    as (_ & _ & H3 & _).
  destruct (handleTimestamp_precedence Timestamp.lenient none 1000)
    as (_ & _ & _ & H4 & _).
  destruct (handleTimestamp_precedence Timestamp.strict both 1000)
    as (_ & _ & _ & _ & H5 & _).
  destruct (handleTimestamp_precedence Timestamp.lenient both 1000)
    as (_ & _ & _ & _ & _ & H6 & _).
  refine (conj _ (conj _ (conj _ (conj _ (conj _ _))))).
  - exact (H1 _ 1609459210000 1609459200000 eq_refl eq_refl
             eq_refl eq_refl eq_refl eq_refl eq_refl).
  - exact (H2 _ 1609459210000 eq_refl eq_refl eq_refl).
  - exact (H3 150 _ eq_refl eq_refl eq_refl eq_refl).
  - exact (H4 _ eq_refl eq_refl).
  - rewrite (H5 _ Luxon.DtInvalid "Invalid Duration" (Luxon.DtValid 1000) eq_refl eq_refl).
    reflexivity.
  - exact (proj2 (H6 _ 1609459210000 eq_refl eq_refl eq_refl)).
Defined.

(** ** Identity resolution *)

Section AliasFacts.
Import Js Async Db EventsProcessor.

Lemma select_person_elem (s : Store) (teamId : Z) (distinctId : string) (p : Person) :
  p ∈ select_person s teamId distinctId ->
  p ∈ persons s /\ per_team_id p = teamId /\ attached s teamId distinctId (per_id p).
Proof.
  unfold select_person. intros H.
  apply list_elem_of_bind in H as (q & H & Hq).
  apply list_elem_of_bind in H as (row & H & Hrow).
  destruct (_ && _) eqn:Hc; [|by apply elem_of_nil in H].
  apply list_elem_of_singleton in H as ->.
  repeat (apply andb_true_iff in Hc as [Hc ?]).
  repeat match goal with
         | H : bool_decide _ = true |- _ => apply bool_decide_eq_true_1 in H
         end.
  split; [done|]. split; [done|]. by exists row.
Qed.

Lemma head_select_person (s : Store) (teamId : Z) (distinctId : string) (p : Person) :
  head (select_person s teamId distinctId) = Some p ->
  p ∈ persons s /\ per_team_id p = teamId /\ attached s teamId distinctId (per_id p).
Proof.
  intros H. apply select_person_elem.
  destruct (select_person s teamId distinctId) as [|q l]; [done|].
  simpl in H. injection H as ->. left.
Qed.

(** With sound references, a distinct id without a person has no row. *)
Lemma no_person_no_row (s : Store) (teamId : Z) (distinctId : string) :
  references_ok s ->
  head (select_person s teamId distinctId) = None ->
  existsb (fun row => bool_decide (pdi_team_id row = teamId)
                      && bool_decide (pdi_distinct_id row = distinctId))
    (distinct_ids s) = false.
Proof.
  intros Hok Hnone.
  destruct (existsb _ _) eqn:He; [|done]. exfalso.
  apply existsb_exists in He as (row & Hin & Hc).
  apply andb_true_iff in Hc as [Ht Hd].
  apply bool_decide_eq_true_1 in Ht. apply bool_decide_eq_true_1 in Hd.
  apply list_elem_of_In in Hin.
  destruct (Hok row Hin) as (p & Hp & Hid & Hteam).
  assert (p ∈ select_person s teamId distinctId) as Hsel.
  { unfold select_person.
    apply list_elem_of_bind. exists p. split; [|done].
    apply list_elem_of_bind. exists row. split; [|done].
    rewrite !bool_decide_eq_true_2 by congruence. simpl. left. }
  destruct (select_person s teamId distinctId); [by apply elem_of_nil in Hsel|done].
Qed.

Lemma person_known (s : Store) (p : Person) :
  p ∈ persons s ->
  existsb (fun q => bool_decide (per_id q = per_id p)) (persons s) = true.
Proof.
  intros H. apply existsb_exists. exists p. split.
  - by apply list_elem_of_In.
  - by apply bool_decide_eq_true_2.
Qed.

End AliasFacts.

Section AliasCases.
Import Js Async Db EventsProcessor.

Lemma alias_reads fresh fresh' prev cur team retry (w : World Store Query) :
  schedule w = [] ->
  alias fresh fresh' prev cur team retry w
  = (match head (select_person (db w) team prev),
           head (select_person (db w) team cur) with
     | Some oldPerson, None =>
         try_catch (fire (addDistinctId oldPerson cur))
           (fun _ => if retry
                     then fire (alias_run (ret tt) fresh' prev cur team false)
                     else ret tt)
     | None, Some newPerson =>
         try_catch (fire (addDistinctId newPerson prev))
           (fun _ => if retry
                     then fire (alias_run (ret tt) fresh' prev cur team false)
                     else ret tt)
     | None, None =>
         try_catch
           (let! personCreated :=
              await (createPerson (utc_now fresh) ∅ team None false
                       (new_uuid fresh) []) in
            run! fire (addDistinctId personCreated cur) in
            fire (addDistinctId personCreated prev))
           (fun _ => if retry
                     then fire (alias_run (ret tt) fresh' prev cur team false)
                     else ret tt)
     | Some oldPerson, Some newPerson =>
         if bool_decide (per_id oldPerson <> per_id newPerson)
         then fire (mergePeople newPerson [oldPerson])
         else ret tt
     end) (after_reads team prev cur w).
Proof.
  intros Hq. unfold alias, alias_run at 1, bind, await, fetchPerson, postgresQuery.
  rewrite Hq. simpl. reflexivity.
Qed.


(** An insert that meets no row for the distinct id and finds its person
  appends one row and changes nothing else in the two tables. *)
Lemma addDistinctId_quiet (p : Person) (distinctId : string) (w : World Store Query) :
  schedule w = [] ->
  existsb (fun row => bool_decide (pdi_team_id row = per_team_id p)
                      && bool_decide (pdi_distinct_id row = distinctId))
    (distinct_ids (db w)) = false ->
  p ∈ persons (db w) ->
  let r := fire (addDistinctId p distinctId) w in
  fst r = Resolved tt
  /\ persons (db (snd r)) = persons (db w)
  /\ distinct_ids (db (snd r))
     = distinct_ids (db w)
       ++ [ {| pdi_id := next_distinct_id_id (db w); pdi_person_id := per_id p;
               pdi_distinct_id := distinctId; pdi_team_id := per_team_id p |} ]
  /\ unhandled (snd r) = unhandled w
  /\ schedule (snd r) = [].
Proof.
  intros Hq Hu Hp.
  unfold fire, addDistinctId, bind, await, postgresQuery, insert_distinct_id, send.
  rewrite Hq, Hu, (person_known _ _ Hp). simpl.
  destruct (kafkaProducer (db w)); simpl; done.
Qed.

(** A second insert for a distinct id that already has a row of the team
  is rejected; the rejection of the dropped promise is left unhandled
  and the tables stay as they are. *)
Lemma addDistinctId_taken (p : Person) (distinctId : string) (w : World Store Query) :
  schedule w = [] ->
  existsb (fun row => bool_decide (pdi_team_id row = per_team_id p)
                      && bool_decide (pdi_distinct_id row = distinctId))
    (distinct_ids (db w)) = true ->
  let r := fire (addDistinctId p distinctId) w in
  fst r = Resolved tt
  /\ persons (db (snd r)) = persons (db w)
  /\ distinct_ids (db (snd r)) = distinct_ids (db w)
  /\ unhandled (snd r) = unhandled w ++ [UniqueViolation].
Proof.
  intros Hq Hu.
  unfold fire, addDistinctId, bind, await, postgresQuery, insert_distinct_id.
  rewrite Hq, Hu. simpl. done.
Qed.

Lemma createPerson_quiet (createdAt : Z) (properties : Properties) (teamId : Z)
    (uuid : string) (w : World Store Query) :
  schedule w = [] ->
  let p := {| per_id := next_person_id (db w); per_uuid := uuid;
              per_team_id := teamId; per_created_at := createdAt;
              per_properties := properties; per_is_user_id := None;
              per_is_identified := false |} in
  let r := createPerson createdAt properties teamId None false uuid [] w in
  fst r = Resolved p
  /\ persons (db (snd r)) = persons (db w) ++ [p]
  /\ distinct_ids (db (snd r)) = distinct_ids (db w)
  /\ unhandled (snd r) = unhandled w
  /\ schedule (snd r) = [].
Proof.
  intros Hq. unfold createPerson, bind, await, postgresQuery, insert_person, send.
  rewrite Hq. simpl. destruct (kafkaProducer (db w)); simpl; done.
Qed.

Lemma try_catch_fire {A} (m : M A) (h : Err -> M unit) (w : World Store Query) :
  try_catch (fire m) h w = fire m w.
Proof. unfold try_catch, fire. by destruct (m w) as [[a|e] w']. Qed.

Lemma attached_app (s s' : Store) (teamId : Z) (distinctId : string) (personId : Z)
    (row : PersonDistinctId) (rest : list PersonDistinctId) :
  distinct_ids s' = distinct_ids s ++ row :: rest ->
  pdi_team_id row = teamId -> pdi_distinct_id row = distinctId ->
  pdi_person_id row = personId ->
  attached s' teamId distinctId personId.
Proof.
  intros Hd Ht Hi Hp. exists row. rewrite Hd.
  split; [|done]. apply elem_of_app. right. left.
Qed.

End AliasCases.

(** C3.  Without concurrent writers and with sound references in the
  store: a person for [previous] and none for [current] gets [current]
  attached; a person for [current] and none for [previous] gets
  [previous] attached; with neither, exactly one person is created and
  both ids are attached to it; with two different persons, the call is
  the merge of the person of [previous] into the person of [current]. *)
Theorem alias_four_cases (fresh fresh' : EventsProcessor.Fresh)
    (previous current : string) (teamId : Z) (retryIfFailed : bool)
    (w : Async.World Db.Store Db.Query) :
  Async.schedule w = [] ->
  EventsProcessor.references_ok (Async.db w) ->
  let s := Async.db w in
  let A := head (Db.select_person s teamId previous) in
  let B := head (Db.select_person s teamId current) in
  let run := EventsProcessor.alias fresh fresh' previous current teamId retryIfFailed w in
  let s' := Async.db (snd run) in
  (forall a, A = Some a -> B = None ->
     EventsProcessor.attached s' teamId current (Db.per_id a)
     /\ Db.persons s' = Db.persons s)
  /\ (forall b, A = None -> B = Some b ->
     EventsProcessor.attached s' teamId previous (Db.per_id b)
     /\ Db.persons s' = Db.persons s)
  /\ (A = None -> B = None ->
     exists p, Db.persons s' = Db.persons s ++ [p]
       /\ EventsProcessor.attached s' teamId current (Db.per_id p)
       /\ EventsProcessor.attached s' teamId previous (Db.per_id p))
  /\ (forall a b, A = Some a -> B = Some b -> Db.per_id a <> Db.per_id b ->
     run = Async.fire (EventsProcessor.mergePeople b [a])
             (EventsProcessor.after_reads teamId previous current w)).
Proof.
  intros Hq Hok s A B run s'.
  assert (Hrun : run = _) by exact (alias_reads fresh fresh' previous current teamId retryIfFailed w Hq).
  fold s A B in Hrun.
  refine (conj _ (conj _ (conj _ _))).
  - intros a HA HB. rewrite HA, HB in Hrun. rewrite try_catch_fire in Hrun.
    destruct (head_select_person _ _ _ _ HA) as (Hin & Hteam & _).
    pose proof (no_person_no_row _ _ _ Hok HB) as Hfree.
    rewrite <- Hteam in Hfree.
    destruct (addDistinctId_quiet a current
                (EventsProcessor.after_reads teamId previous current w)
                eq_refl Hfree Hin) as (_ & Hp & Hd & _).
    unfold s'. rewrite Hrun. split; [|exact Hp].
    eapply attached_app; [exact Hd|simpl; done..].
  - intros b HA HB. rewrite HA, HB in Hrun. rewrite try_catch_fire in Hrun.
    destruct (head_select_person _ _ _ _ HB) as (Hin & Hteam & _).
    pose proof (no_person_no_row _ _ _ Hok HA) as Hfree.
    rewrite <- Hteam in Hfree.
    destruct (addDistinctId_quiet b previous
                (EventsProcessor.after_reads teamId previous current w)
                eq_refl Hfree Hin) as (_ & Hp & Hd & _).
    unfold s'. rewrite Hrun. split; [|exact Hp].
    eapply attached_app; [exact Hd|simpl; done..].
  - intros HA HB. rewrite HA, HB in Hrun.
    pose proof (no_person_no_row _ _ _ Hok HA) as HfreeA.
    pose proof (no_person_no_row _ _ _ Hok HB) as HfreeB.
    unfold Async.try_catch, Async.bind, Async.await in Hrun.
    destruct (createPerson_quiet (EventsProcessor.utc_now fresh) ∅ teamId
                (EventsProcessor.new_uuid fresh)
                (EventsProcessor.after_reads teamId previous current w) eq_refl)
      as (Hres & Hp1 & Hd1 & _ & Hq1).
    destruct (Db.createPerson _ _ _ _ _ _ _ _) as [r1 w1]. simpl in *.
    subst r1.
    set (p := Db.mkPerson (Db.next_person_id (Async.db w))
                (EventsProcessor.new_uuid fresh) teamId
                (EventsProcessor.utc_now fresh) ∅ None false) in *.
    assert (Hin1 : p ∈ Db.persons (Async.db w1)).
    { rewrite Hp1. apply elem_of_app. right. left. }
    assert (Hfree1 : existsb
              (fun row => bool_decide (Db.pdi_team_id row = Db.per_team_id p)
                          && bool_decide (Db.pdi_distinct_id row = current))
              (Db.distinct_ids (Async.db w1)) = false)
      by (rewrite Hd1; exact HfreeB).
    destruct (addDistinctId_quiet p current w1 Hq1 Hfree1 Hin1)
      as (Hres2 & Hp2 & Hd2 & _ & Hq2).
    destruct (Async.fire (Db.addDistinctId p current) w1) as [r2 w2].
    simpl in Hres2, Hp2, Hd2, Hq2. subst r2.
    assert (Hin2 : p ∈ Db.persons (Async.db w2)) by (by rewrite Hp2).
    exists p.
    destruct (decide (previous = current)) as [->|Hne].
    + assert (Htaken : existsb
                (fun row => bool_decide (Db.pdi_team_id row = Db.per_team_id p)
                            && bool_decide (Db.pdi_distinct_id row = current))
                (Db.distinct_ids (Async.db w2)) = true).
      { rewrite Hd2, existsb_app. simpl.
        rewrite !bool_decide_eq_true_2 by done. simpl. apply orb_true_r. }
      destruct (addDistinctId_taken p current w2 Hq2 Htaken)
        as (Hres3 & Hp3 & Hd3 & _).
      destruct (Async.fire (Db.addDistinctId p current) w2) as [r3 w3].
      simpl in Hres3, Hp3, Hd3. subst r3.
      unfold s'. rewrite Hrun. simpl.
      rewrite Hp3, Hp2, Hp1. split; [done|].
      assert (EventsProcessor.attached (Async.db w3) teamId current (Db.per_id p)).
      { eapply (attached_app (Async.db w1) (Async.db w3));
          [rewrite Hd3; exact Hd2|simpl; done..]. }
      done.
    + assert (Hfree2 : existsb
                (fun row => bool_decide (Db.pdi_team_id row = Db.per_team_id p)
                            && bool_decide (Db.pdi_distinct_id row = previous))
                (Db.distinct_ids (Async.db w2)) = false).
      { change (Db.per_team_id p) with teamId.
        rewrite Hd2, Hd1, existsb_app, HfreeA. simpl.
        rewrite (bool_decide_eq_false_2 (current = previous)) by congruence.
        by rewrite andb_false_r. }
      destruct (addDistinctId_quiet p previous w2 Hq2 Hfree2 Hin2)
        as (Hres3 & Hp3 & Hd3 & _).
      destruct (Async.fire (Db.addDistinctId p previous) w2) as [r3 w3].
      simpl in Hres3, Hp3, Hd3. subst r3.
      unfold s'. rewrite Hrun. simpl.
      rewrite Hp3, Hp2, Hp1. split; [done|]. split.
      * eapply (attached_app (Async.db w1) (Async.db w3));
          [rewrite Hd3, Hd2, <- app_assoc; reflexivity|simpl; done..].
      * eapply (attached_app (Async.db w2) (Async.db w3));
          [exact Hd3|simpl; done..].
  - intros a b HA HB Hne. rewrite HA, HB in Hrun.
    by rewrite bool_decide_eq_true_2 in Hrun.
Qed.

(** The store [store_a] has sound references, and an [alias] of [a] to [b]
  attaches [b] to person A. *)
Example alias_four_cases_example :
  Async.schedule (IdentityExamples.calm IdentityExamples.store_a) = []
  /\ EventsProcessor.references_ok IdentityExamples.store_a
  /\ EventsProcessor.attached
       (Async.db (snd (EventsProcessor.alias IdentityExamples.fresh1
                         IdentityExamples.fresh2 "a" "b" 2 true
                         (IdentityExamples.calm IdentityExamples.store_a))))
       2 "b" 1.
Proof.
  assert (Hok : EventsProcessor.references_ok IdentityExamples.store_a).
  { intros row Hrow. apply list_elem_of_singleton in Hrow as ->.
    exists IdentityExamples.personA. split; [left|split; reflexivity]. }
  split; [reflexivity|]. split; [exact Hok|].
  destruct (alias_four_cases IdentityExamples.fresh1 IdentityExamples.fresh2
              "a" "b" 2 true (IdentityExamples.calm IdentityExamples.store_a) eq_refl Hok)
    as (H & _).
  exact (proj1 (H IdentityExamples.personA eq_refl eq_refl)).
Defined.

(** C3, at two different persons A (distinct id [a]) and B (distinct id
    [b]): [alias "a" "b"] does call the merge of A into B, but the merge
    stops at its first select, which is rejected, so afterwards [a] is
    still attached to A and not to B, and A is still there. *)
Lemma alias_at_two_persons_not_merged :
  let w := IdentityExamples.calm IdentityExamples.store_ab in
  let run := EventsProcessor.alias IdentityExamples.fresh1 IdentityExamples.fresh2
               "a" "b" 2 true w in
  let s' := Async.db (snd run) in
  head (Db.select_person IdentityExamples.store_ab 2 "a") = Some IdentityExamples.personA
  /\ head (Db.select_person IdentityExamples.store_ab 2 "b") = Some IdentityExamples.personB
  /\ run = Async.fire
             (EventsProcessor.mergePeople IdentityExamples.personB
                [IdentityExamples.personA])
             (EventsProcessor.after_reads 2 "a" "b" w)
  /\ head (Db.select_person s' 2 "a") = Some IdentityExamples.personA
  /\ EventsProcessor.attached s' 2 "a" 1
  /\ ~ EventsProcessor.attached s' 2 "a" 2
  /\ Async.unhandled (snd run) = [Async.InvalidTextRepresentation].
Proof.
  intros w run s'.
  assert (Hd : Db.distinct_ids s' = [IdentityExamples.rowA; IdentityExamples.rowB])
    by (vm_compute; reflexivity).
  refine (conj _ (conj _ (conj _ (conj _ (conj _ (conj _ _)))))).
  - vm_compute; reflexivity.
  - vm_compute; reflexivity.
  - vm_compute; reflexivity.
  - vm_compute; reflexivity.
  - exists IdentityExamples.rowA. rewrite Hd. split; [left|done].
  - intros (row & Hin & _ & Hid & Hp). rewrite Hd in Hin.
    apply elem_of_cons in Hin as [->|Hin]; [discriminate Hp|].
    apply list_elem_of_singleton in Hin as ->. discriminate Hid.
  - vm_compute; reflexivity.
Qed.

(** C4, at two persons A (distinct id [a], cohort 7, created at 100,
  properties plan=free, city=Ghent) and B (distinct id [b], created at
  200, properties plan=paid): [alias "a" "b"] starts the merge of A into
  B.  The row of B gets the earlier [created_at] and keeps its own
  properties; the merged properties only go out in the message to the
  person topic.  The select of A's distinct ids is sent the person
  object where the query wants its id and is rejected, so no distinct id
  and no cohort row is repointed and A is not deleted. *)
Lemma alias_merge_at_two_persons :
  let run := EventsProcessor.alias IdentityExamples.fresh1 IdentityExamples.fresh2
               "a" "b" 2 true (IdentityExamples.calm IdentityExamples.store_ab) in
  let s' := Async.db (snd run) in
  Db.persons s'
  = [ IdentityExamples.personA;
      Db.mkPerson 2 "uuid-b" 2 100 {[ "plan" := Js.JStr "paid" ]} None true ]
  /\ Db.distinct_ids s' = [IdentityExamples.rowA; IdentityExamples.rowB]
  /\ Db.cohort_people s' = [Db.mkCohortPeople 1 7 1]
  /\ Async.unhandled (snd run) = [Async.InvalidTextRepresentation]
  /\ Db.produced s'
     = [ Db.PersonMessage 100
           (Js.spread2 (Db.per_properties IdentityExamples.personA)
              (Db.per_properties IdentityExamples.personB)) 2 true "uuid-b" ]
  /\ Js.spread2 (Db.per_properties IdentityExamples.personA)
       (Db.per_properties IdentityExamples.personB) !! "city"
     = Some (Js.JStr "Ghent")
  /\ (Db.mkPerson 2 "uuid-b" 2 100 {[ "plan" := Js.JStr "paid" ]} None true).(Db.per_properties)
       !! "city" = None.
Proof. vm_compute. repeat split. Qed.

(** C5, at a race: person A has distinct id [a], nobody has [b]; between
  the reads of [alias "a" "b"] and its insert another worker attaches
  [b] to a new person.  The insert hits the unique constraint; its
  promise was dropped, so the [catch] block does not run: the violation
  is left unhandled, [alias] is not run again (three queries in all),
  and [a] and [b] stay with two persons. *)
Lemma alias_race_not_retried :
  let run := EventsProcessor.alias IdentityExamples.fresh1 IdentityExamples.fresh2
               "a" "b" 2 true (IdentityExamples.racing IdentityExamples.store_a) in
  fst run = Async.Resolved tt
  /\ Async.unhandled (snd run) = [Async.UniqueViolation]
  /\ Async.queries (snd run)
     = [ Db.QSelectPerson 2 "a"; Db.QSelectPerson 2 "b";
         Db.QInsertDistinctId "b" 1 2 ]
  /\ Db.pdi_person_id <$> Db.distinct_ids (Async.db (snd run)) = [1; 3]
  /\ Db.per_id <$> Db.persons (Async.db (snd run)) = [1; 3].
Proof. vm_compute. repeat split. Qed.

(** Whatever happens to the insert, the first case of [alias] issues its
  two reads and one insert and nothing more. *)
Lemma alias_attach_never_retries (fresh fresh' : EventsProcessor.Fresh)
    (previous current : string) (teamId : Z) (w : Async.World Db.Store Db.Query)
    (a : Db.Person) (others : list (Db.Store -> Db.Store)) :
  Async.schedule w = [id; id] ++ others ->
  head (Db.select_person (Async.db w) teamId previous) = Some a ->
  head (Db.select_person (Async.db w) teamId current) = None ->
  Async.queries (snd (EventsProcessor.alias fresh fresh' previous current teamId true w))
  = Async.queries w
    ++ [ Db.QSelectPerson teamId previous; Db.QSelectPerson teamId current;
         Db.QInsertDistinctId current (Db.per_id a) (Db.per_team_id a) ].
Proof.
  intros Hq HA HB.
  unfold EventsProcessor.alias, EventsProcessor.alias_run at 1.
  unfold Async.bind, Async.await, Db.fetchPerson, Async.postgresQuery.
  rewrite Hq. simpl. rewrite HA, HB.
  unfold Async.try_catch, Async.fire, Db.addDistinctId, Async.bind, Async.await,
    Async.postgresQuery. simpl.
  destruct others as [|step rest]; simpl;
    destruct (Db.insert_distinct_id _ _ _ _) as [[row|e] st]; simpl;
    by rewrite <- !app_assoc.
Qed.

(** C8, at a distinct id without a person: with [$set] = {a: 1} and
  [$set_once] = {b: 2} the person is created with the [$set] properties
  alone and the call then fails on the person it did not keep; the
  properties never get the key of [$set_once]. *)
Lemma updatePersonProperties_at_new_person :
  let run := EventsProcessor.updatePersonProperties IdentityExamples.fresh1 2 "new"
               {[ "a" := Js.JNum 1 ]} {[ "b" := Js.JNum 2 ]}
               (IdentityExamples.calm IdentityExamples.empty_store) in
  fst run = Async.Rejected
              (Async.TypeError "Cannot read property 'properties' of undefined")
  /\ Db.per_properties <$> Db.persons (Async.db (snd run)) = [ {[ "a" := Js.JNum 1 ]} ]
  /\ Js.spread3 {[ "b" := Js.JNum 2 ]} ∅ {[ "a" := Js.JNum 1 ]} !! "b"
     = Some (Js.JNum 2)
  /\ ({[ "a" := Js.JNum 1 ]} : gmap string Js.JsVal) !! "b" = None.
Proof. vm_compute. repeat split. Qed.

(** For a person that exists, the row gets the merge of [$set_once], the
  existing properties and [$set], the rightmost winning. *)
Lemma updatePersonProperties_existing (fresh : EventsProcessor.Fresh) (teamId : Z)
    (distinctId : string) (S O : Js.Properties) (w : Async.World Db.Store Db.Query)
    (person : Db.Person) :
  Async.schedule w = [] ->
  head (Db.select_person (Async.db w) teamId distinctId) = Some person ->
  let run := EventsProcessor.updatePersonProperties fresh teamId distinctId S O w in
  Db.persons (Async.db (snd run))
  = (fun p => if bool_decide (Db.per_id p = Db.per_id person)
              then Db.with_update p
                     (Db.mkPersonUpdate None
                        (Some (Js.spread3 O (Db.per_properties person) S)) None)
              else p) <$> Db.persons (Async.db w).
Proof.
  intros Hq Hp.
  unfold EventsProcessor.updatePersonProperties, Async.bind, Async.await,
    Db.fetchPerson, Async.postgresQuery.
  rewrite Hq. simpl. rewrite Hp. simpl.
  unfold Db.updatePerson, Async.bind, Async.await, Async.postgresQuery, Db.send.
  simpl. by destruct (Db.kafkaProducer (Async.db w)).
Qed.

(** ** Team cache *)

Section TeamCacheFacts.
Import Js TeamCache.

Lemma grown_refl (l : option (list string)) : grown l l.
Proof. exists []. destruct l; simpl; [by rewrite app_nil_r|done]. Qed.

Lemma grown_trans (a b c : option (list string)) :
  grown a b -> grown b c -> grown a c.
Proof.
  intros [s1 ->] [s2 ->]. exists (s1 ++ s2).
  destruct a; simpl; [by rewrite app_assoc|done].
Qed.

Lemma grown_push (l : option (list string)) (k : string) :
  grown l ((fun l => l ++ [k]) <$> l).
Proof. by exists [k]. Qed.

Lemma store_property_spec (acc : Team * bool) (entry : string * JsVal) :
  let r := store_property acc entry in
  event_names (fst r) = event_names (fst acc)
  /\ grown (event_properties (fst acc)) (event_properties (fst r))
  /\ grown (event_properties_numerical (fst acc)) (event_properties_numerical (fst r))
  /\ (snd acc = true -> snd r = true).
Proof.
  unfold store_property.
  destruct (guarded_not_in (fst entry) (event_properties (fst acc))); simpl;
    destruct (String.eqb (typeof (snd entry)) "number" && _); simpl;
    repeat split; auto using grown_refl, grown_push.
Qed.

Lemma fold_store_property_spec (properties : list (string * JsVal)) (acc : Team * bool) :
  let r := fold_left store_property properties acc in
  event_names (fst r) = event_names (fst acc)
  /\ grown (event_properties (fst acc)) (event_properties (fst r))
  /\ grown (event_properties_numerical (fst acc)) (event_properties_numerical (fst r))
  /\ (snd acc = true -> snd r = true).
Proof.
  revert acc. induction properties as [|entry rest IH]; intros acc; simpl.
  - repeat split; auto using grown_refl.
  - destruct (IH (store_property acc entry)) as (H1 & H2 & H3 & H4).
    destruct (store_property_spec acc entry) as (G1 & G2 & G3 & G4).
    repeat split; [congruence|eauto using grown_trans..|auto].
Qed.

(** The part of C7 that holds: nothing is ever removed from the lists. *)
Lemma storeNamesAndProperties_additive (team : Team) (event : string)
    (properties : list (string * JsVal)) :
  let r := storeNamesAndProperties team event properties in
  grown (event_names team) (event_names (fst r))
  /\ grown (event_properties team) (event_properties (fst r))
  /\ grown (event_properties_numerical team) (event_properties_numerical (fst r)).
Proof.
  unfold storeNamesAndProperties. simpl.
  match goal with
  | |- context [fold_left store_property properties ?a] =>
      destruct (fold_store_property_spec properties a) as (H1 & H2 & H3 & _);
      set (acc1 := a) in *
  end.
  rewrite H1.
  assert (grown (event_names team) (event_names (fst acc1))
          /\ event_properties (fst acc1) = event_properties team
          /\ event_properties_numerical (fst acc1) = event_properties_numerical team)
    as (E1 & E2 & E3).
  { subst acc1. destruct (negb (ingested_event team)); simpl;
      destruct (guarded_not_in event (event_names team)); simpl;
      repeat split; auto using grown_refl, grown_push. }
  rewrite E2 in H2. rewrite E3 in H3. done.
Qed.

(** Any event name that is not a property name of the array is appended
    and the row is written, whether or not the list holds the name
    already. *)
Lemma storeNamesAndProperties_appends_again (team : Team) (event : string)
    (properties : list (string * JsVal)) (names : list string) :
  event_names team = Some names ->
  in_array event names = false ->
  let r := storeNamesAndProperties team event properties in
  event_names (fst r) = Some (names ++ [event]) /\ is_Some (snd r).
Proof.
  intros Hn Hin. unfold storeNamesAndProperties. simpl.
  match goal with
  | |- context [fold_left store_property properties ?a] =>
      destruct (fold_store_property_spec properties a) as (H1 & _ & _ & H4);
      set (acc1 := a) in *
  end.
  assert (event_names (fst acc1) = Some (names ++ [event]) /\ snd acc1 = true)
    as (E1 & E2).
  { subst acc1. destruct (negb (ingested_event team)); simpl;
      unfold guarded_not_in; rewrite Hn, Hin; simpl; by rewrite ?Hn. }
  rewrite H1, E1, (H4 E2). eauto.
Qed.

End TeamCacheFacts.

(** C7, at a team that has already seen the event [pageview] and the
  properties [$ip] and [price]: the same event is appended once more to
  every list, and the team row is written although nothing is new. *)
Lemma storeNamesAndProperties_at_seen_event :
  let r := TeamCache.storeNamesAndProperties TeamCache.seen_team "pageview"
             [("$ip", Js.JStr "10.0.0.1"); ("price", Js.JNum 5)] in
  TeamCache.event_names (fst r) = Some ["pageview"; "pageview"]
  /\ TeamCache.event_properties (fst r) = Some ["$ip"; "price"; "$ip"; "price"]
  /\ TeamCache.event_properties_numerical (fst r) = Some ["price"; "price"]
  /\ TeamCache.set_event_names <$> snd r = Some (Some ["pageview"; "pageview"])
  /\ Js.in_array "pageview" ["pageview"] = false
  /\ Js.in_array "0" ["pageview"] = true.
Proof. vm_compute. repeat split. Qed.

(** ** Lazy VM retries *)

Section LazyVmFacts.
Import LazyVM.
Context {Vm : Type}.

Lemma scheduled_initialize (outcome : InitOutcome Vm) (this : LazyPluginVM Vm) (ms : Z) :
  scheduled (snd (initialize outcome this)) = Some ms ->
  ms = 3000 * 2 ^ (totalInitAttemptsCounter this - 1)
  /\ totalInitAttemptsCounter this < 10
  /\ totalInitAttemptsCounter (fst (initialize outcome this))
     = totalInitAttemptsCounter this.
Proof.
  unfold initialize, MAX_SETUP_RETRIES, INITIALIZATION_RETRY_MULTIPLIER,
    INITIALIZATION_RETRY_BASE_MS.
  destruct outcome as [vm|[|]]; simpl; try discriminate.
  destruct (Z.ltb_spec (totalInitAttemptsCounter this) 10); simpl; try discriminate.
  intros [= <-]. lia.
Qed.

Lemma counter_initialize (outcome : InitOutcome Vm) (this : LazyPluginVM Vm) :
  totalInitAttemptsCounter (fst (initialize outcome this))
  = totalInitAttemptsCounter this.
Proof.
  unfold initialize. destruct outcome as [vm|r]; [done|].
  by destruct (_ && _).
Qed.

(** From a handle that is at its [c]-th attempt: the [n]-th timer from
  here waits [3000 * 2 ^ (c - 1 + n)] ms, it is only set below the tenth
  attempt, and the attempts from here on and the counter stay within
  ten. *)
Lemma attempts_bounds (outcomes : list (InitOutcome Vm)) (this : LazyPluginVM Vm) :
  1 <= totalInitAttemptsCounter this ->
  let c := totalInitAttemptsCounter this in
  let r := attempts outcomes this in
  (forall (n : nat) ms, retry_delays (snd r) !! n = Some ms ->
     ms = 3000 * 2 ^ (c - 1 + Z.of_nat n))
  /\ Z.of_nat (length (snd r)) <= Z.max 1 (11 - c)
  /\ totalInitAttemptsCounter (fst r) <= Z.max c 10.
Proof.
  revert this. induction outcomes as [|o rest IH]; intros this Hc; simpl.
  - split; [intros n ms H; by destruct n|]. split; lia.
  - destruct (scheduled (snd (initialize o this))) as [ms0|] eqn:Hs; simpl.
    + destruct (scheduled_initialize _ _ _ Hs) as (Hms & Hlt & Hcnt).
      specialize (IH (initVm (fst (initialize o this)))).
      simpl in IH. rewrite Hcnt in IH.
      destruct IH as (IH1 & IH2 & IH3); [lia|].
      split; [|split; lia].
      intros n ms. unfold retry_delays. simpl. rewrite Hs.
      destruct n as [|n]; simpl.
      * intros [= <-]. rewrite Hms. f_equal. f_equal. lia.
      * intros H. rewrite (IH1 n ms H). f_equal. f_equal. lia.
    + rewrite counter_initialize.
      split; [|split; lia].
      intros n ms. unfold retry_delays. simpl. rewrite Hs. by destruct n.
Qed.

End LazyVmFacts.

(** C6.  The [n]-th retry (counted from 0 here) is set [3 * 2 ^ n]
  seconds ahead; a handle makes at most 10 attempts; an error that is not
  a retry error, and a retry error at the tenth attempt, disable the
  plugin, record the error and resolve the handle to null; ten retry
  errors in a row end there. *)
Theorem initVm_retry_policy {Vm : Type} (outcomes : list (LazyVM.InitOutcome Vm)) :
  let r := LazyVM.lifecycle outcomes in
  (forall (n : nat) ms, LazyVM.retry_delays (snd r) !! n = Some ms ->
     ms = 3 * 2 ^ Z.of_nat n * 1000)
  /\ Z.of_nat (length (snd r)) <= 10
  /\ LazyVM.totalInitAttemptsCounter (fst r) <= LazyVM.MAX_SETUP_RETRIES
  /\ (forall (this : LazyVM.LazyPluginVM Vm) isRetryError,
        isRetryError = false \/ 10 <= LazyVM.totalInitAttemptsCounter this ->
        LazyVM.initialize (LazyVM.Failed isRetryError) this
        = (LazyVM.mkLazyPluginVM (LazyVM.totalInitAttemptsCounter this)
             (LazyVM.ResolvedWith None) (LazyVM.initRetryTimeout this),
           [LazyVM.LogDisabled isRetryError (LazyVM.totalInitAttemptsCounter this);
            LazyVM.DisablePlugin; LazyVM.ProcessError; LazyVM.Resolve None]))
  /\ (forall more : list (LazyVM.InitOutcome Vm),
        let r10 := LazyVM.lifecycle (replicate 10 (LazyVM.Failed true) ++ more) in
        LazyVM.retry_delays (snd r10)
        = [3000; 6000; 12000; 24000; 48000; 96000; 192000; 384000; 768000]
        /\ length (snd r10) = 10%nat
        /\ last (snd r10)
           = Some [LazyVM.LogDisabled true 10; LazyVM.DisablePlugin;
                   LazyVM.ProcessError; LazyVM.Resolve None]
        /\ LazyVM.resolveInternalVm (fst r10) = LazyVM.ResolvedWith None).
Proof.
  intros r.
  destruct (attempts_bounds outcomes LazyVM.constructor) as (H1 & H2 & H3);
    [simpl; lia|].
  simpl in H1, H2, H3. subst r. unfold LazyVM.lifecycle.
  refine (conj _ (conj _ (conj _ (conj _ _)))).
  - intros n ms H. rewrite (H1 n ms H).
    replace (0 + 1 - 1 + Z.of_nat n) with (Z.of_nat n) by lia.
    generalize (2 ^ Z.of_nat n). intros p. lia.
  - lia.
  - unfold LazyVM.MAX_SETUP_RETRIES. lia.
  - intros this isRetryError H. unfold LazyVM.initialize, LazyVM.MAX_SETUP_RETRIES.
    destruct H as [->|H]; [done|].
    destruct (Z.ltb_spec (LazyVM.totalInitAttemptsCounter this) 10); [lia|].
    by rewrite andb_false_r.
  - intros more. cbv. repeat split.
Qed.

(** Two retry errors and then a VM: two timers, 3 s and 6 s ahead. *)
Lemma initVm_retry_policy_witness :
  LazyVM.retry_delays
    (snd (LazyVM.lifecycle
            [LazyVM.Failed true; LazyVM.Failed true; LazyVM.Loaded tt])) !! 1%nat
  = Some 6000
  /\ 6000 = 3 * 2 ^ Z.of_nat 1 * 1000.
Proof.
  split; [reflexivity|].
  destruct (initVm_retry_policy
              [LazyVM.Failed true; LazyVM.Failed true; LazyVM.Loaded tt])
    as (H & _).
  exact (H 1%nat 6000 eq_refl).
Defined.

(** ** Singleton lock *)

Section RedlockFacts.
Import Redlock.




End RedlockFacts.




(** ** Action matching *)

(** C10.  Without a properties object no property filter matches,
  whatever its operator, known or not: [checkPropertiesAgainstFilter]
  is false on [null] and on [undefined], and so is every filter of a
  step on an event without properties (whose element list is empty),
  hence the filter check of any step that has filters. *)
Theorem no_properties_no_match (R : ActionMatcher.Runtime)
    (filter : ActionMatcher.PropertyFilterWithOperator)
    (typed : ActionMatcher.PropertyFilter) (more : list ActionMatcher.PropertyFilter)
    (name : string) (teamId : Z) (stepEvent : option string)
    (extractElements : Js.JsVal -> list ActionMatcher.Element) :
  ActionMatcher.checkPropertiesAgainstFilter R ActionMatcher.Null filter = Js.Ok false
  /\ ActionMatcher.checkPropertiesAgainstFilter R ActionMatcher.Undefined filter
     = Js.Ok false
  /\ (forall props, props = ActionMatcher.Null \/ props = ActionMatcher.Undefined ->
      let event := ActionMatcher.mkPluginEvent name teamId props in
      let elements := ActionMatcher.elements_of extractElements event in
      ActionMatcher.checkEventAgainstFilter R event elements typed = Js.Ok false
      /\ ActionMatcher.checkStepFilters R event elements
           (ActionMatcher.mkActionStep stepEvent (ActionMatcher.Defined (typed :: more)))
         = Js.Ok false).
Proof.
  split; [reflexivity|]. split; [reflexivity|].
  intros props Hp event elements.
  assert (Hel : elements = []) by (by destruct Hp as [-> | ->]).
  assert (Hf : ActionMatcher.checkEventAgainstFilter R event elements typed = Js.Ok false).
  { rewrite Hel. unfold ActionMatcher.checkEventAgainstFilter.
    destruct (ActionMatcher.type typed); try reflexivity;
      unfold ActionMatcher.checkEventAgainstEventFilter,
        ActionMatcher.checkEventAgainstPersonFilter; simpl;
      by destruct Hp as [-> | ->]. }
  split; [exact Hf|].
  unfold ActionMatcher.checkStepFilters. simpl. by rewrite Hf.
Qed.

(** An [is_not_set] filter on an event without properties. *)
Lemma no_properties_no_match_witness :
  let f := ActionMatcher.mkFilter "plan" (ActionMatcher.Single Js.JUndefined)
             ActionMatcher.IsNotSet in
  let event := ActionMatcher.mkPluginEvent "pageview" 2 ActionMatcher.Undefined in
  ActionMatcher.checkStepFilters ActionMatcher.sample_runtime event
    (ActionMatcher.elements_of (fun _ => []) event)
    (ActionMatcher.mkActionStep None
       (ActionMatcher.Defined [ActionMatcher.mkPropertyFilter ActionMatcher.EventFilter f]))
  = Js.Ok false
  /\ ActionMatcher.checkPropertiesAgainstFilter ActionMatcher.sample_runtime
       (ActionMatcher.Defined ∅) f = Js.Ok true.
Proof.
  intros f event. split; [|reflexivity].
  destruct (no_properties_no_match ActionMatcher.sample_runtime f
              (ActionMatcher.mkPropertyFilter ActionMatcher.EventFilter f) []
              "pageview" 2 None (fun _ => []))
    as (_ & _ & H).
  exact (proj2 (H ActionMatcher.Undefined (or_intror eq_refl))).
Defined.

(* ===================================================================== *)
(** * Part II, continued.  Further properties of the code                 *)
(* ===================================================================== *)

(** ** Property filters and action steps *)

Section FilterFacts.
Import Js ActionMatcher.
Context (R : Runtime).

Lemma some_exc_nil {A} (test : A -> Exc bool) : some_exc test [] = Ok false.
Proof. reflexivity. Qed.

Lemma some_exc_pure {A} (test : A -> bool) (l : list A) :
  some_exc (fun x => Ok (test x)) l = Ok (existsb test l).
Proof.
  induction l as [|x l IH]; simpl; [done|].
  destruct (test x); simpl; [done|exact IH].
Qed.

End FilterFacts.

(** X1.  The four string operators, the negated ones included, never match
    a property that is missing or is not a string. *)
Theorem string_operator_needs_string (R : ActionMatcher.Runtime)
    (props : Js.Properties) (key : string) (value : ActionMatcher.FilterValue)
    (op : ActionMatcher.PropertyOperator) :
  op = ActionMatcher.IContains \/ op = ActionMatcher.NotIContains
  \/ op = ActionMatcher.Regex \/ op = ActionMatcher.NotRegex ->
  Js.typeof (Js.get props key) <> "string" ->
  ActionMatcher.checkPropertiesAgainstFilter R (ActionMatcher.Defined props)
    (ActionMatcher.mkFilter key value op) = Js.Ok false.
Proof.
  intros Hop Hty. unfold ActionMatcher.checkPropertiesAgainstFilter.
  assert (String.eqb (Js.typeof (Js.get props key)) "string" = false) as E
    by (by apply String.eqb_neq).
  destruct Hop as [-> | [-> | [-> | ->]]]; simpl; by rewrite E.
Qed.

Lemma string_operator_needs_string_witness :
  ActionMatcher.checkPropertiesAgainstFilter ActionMatcher.sample_runtime
    (ActionMatcher.Defined {[ "plan" := Js.JNum 3 ]})
    (ActionMatcher.mkFilter "browser" (ActionMatcher.Single (Js.JStr "fox"))
       ActionMatcher.NotIContains) = Js.Ok false.
Proof.
  apply string_operator_needs_string.
  - right. by left.
  - vm_compute. discriminate.
Defined.

(** X2.  A filter whose value is the empty array matches nothing, whatever
    the properties and whichever of the known operators it has. *)
Theorem empty_value_list_never_matches (R : ActionMatcher.Runtime)
    (props : ActionMatcher.Nullable Js.Properties) (key : string)
    (op : ActionMatcher.PropertyOperator) :
  (forall name, op <> ActionMatcher.OtherOperator name) ->
  ActionMatcher.checkPropertiesAgainstFilter R props
    (ActionMatcher.mkFilter key (ActionMatcher.Many []) op) = Js.Ok false.
Proof.
  intros Hop. unfold ActionMatcher.checkPropertiesAgainstFilter.
  destruct props as [| |props]; try reflexivity. simpl.
  destruct op; simpl; try (by destruct (negb _)); try reflexivity.
  by destruct (Hop name).
Qed.

Lemma empty_value_list_never_matches_witness :
  ActionMatcher.checkPropertiesAgainstFilter ActionMatcher.sample_runtime
    (ActionMatcher.Defined ∅)
    (ActionMatcher.mkFilter "plan" (ActionMatcher.Many []) ActionMatcher.IsNotSet)
  = Js.Ok false.
Proof. apply empty_value_list_never_matches. intros name. discriminate. Defined.

(** X3.  An [is_not] filter with two different values in its list matches
    every properties object: the property differs from one of the two. *)
Theorem is_not_with_two_values_always_matches (R : ActionMatcher.Runtime)
    (props : Js.Properties) (key : string) (values : list Js.JsVal)
    (v1 v2 : Js.JsVal) :
  v1 ∈ values -> v2 ∈ values -> v1 <> v2 ->
  ActionMatcher.checkPropertiesAgainstFilter R (ActionMatcher.Defined props)
    (ActionMatcher.mkFilter key (ActionMatcher.Many values) ActionMatcher.IsNot)
  = Js.Ok true.
Proof.
  intros H1 H2 Hne. unfold ActionMatcher.checkPropertiesAgainstFilter. simpl.
  rewrite (some_exc_pure (fun v => negb (Js.strict_eq v (Js.get props key)))).
  f_equal. apply existsb_exists.
  destruct (decide (v1 = Js.get props key)) as [E|E].
  - exists v2. split; [by apply list_elem_of_In|].
    unfold Js.strict_eq. rewrite bool_decide_eq_false_2; [done|congruence].
  - exists v1. split; [by apply list_elem_of_In|].
    unfold Js.strict_eq. by rewrite bool_decide_eq_false_2.
Qed.

Lemma is_not_with_two_values_always_matches_witness :
  ActionMatcher.checkPropertiesAgainstFilter ActionMatcher.sample_runtime
    (ActionMatcher.Defined {[ "plan" := Js.JStr "free" ]})
    (ActionMatcher.mkFilter "plan"
       (ActionMatcher.Many [Js.JStr "free"; Js.JStr "paid"]) ActionMatcher.IsNot)
  = Js.Ok true.
Proof.
  apply (is_not_with_two_values_always_matches _ _ _ _ (Js.JStr "free") (Js.JStr "paid")).
  - left.
  - right. left.
  - discriminate.
Defined.

(** X4.  On a properties object and for a filter with a single value,
    [is_not] is the negation of [exact] and [is_not_set] the negation of
    [is_set]; [exact] holds exactly when what [properties[key]] reads
    equals the value, and [is_set] exactly when it reads something other
    than [undefined].  What it reads is the object's own property or, in
    want of one, what every object inherits under the name: so a key
    such as [constructor] is set on the empty object, and a key is not
    set only when the object holds [undefined] under it, or holds
    nothing and inherits nothing. *)
Theorem single_value_operators_complement (R : ActionMatcher.Runtime)
    (props : Js.Properties) (key : string) (v : Js.JsVal) :
  let check op :=
    ActionMatcher.checkPropertiesAgainstFilter R (ActionMatcher.Defined props)
      (ActionMatcher.mkFilter key (ActionMatcher.Single v) op) in
  exists exact set : bool,
    check ActionMatcher.Exact = Js.Ok exact
    /\ check ActionMatcher.IsNot = Js.Ok (negb exact)
    /\ check ActionMatcher.IsSet = Js.Ok set
    /\ check ActionMatcher.IsNotSet = Js.Ok (negb set)
    /\ (exact = true <-> Js.get props key = v)
    /\ (set = true <-> Js.get props key <> Js.JUndefined)
    /\ (set = false <->
        props !! key = Some Js.JUndefined
        \/ (props !! key = None /\ Js.inherited key = false))
    /\ (props !! key = None -> Js.inherited key = true -> set = true).
Proof.
  intros check. unfold check, ActionMatcher.checkPropertiesAgainstFilter. simpl.
  unfold Js.strict_eq.
  exists (bool_decide (v = Js.get props key)),
         (negb (bool_decide (Js.get props key = Js.JUndefined))).
  refine (conj _ (conj _ (conj _ (conj _ (conj _ (conj _ (conj _ _))))))).
  - by destruct (bool_decide _).
  - by destruct (bool_decide _).
  - by destruct (bool_decide _).
  - by destruct (bool_decide _).
  - rewrite bool_decide_eq_true. split; congruence.
  - by rewrite negb_true_iff, bool_decide_eq_false.
  - rewrite negb_false_iff, bool_decide_eq_true. unfold Js.get.
    destruct (props !! key) as [w|]; [|destruct (Js.inherited key)]; split.
    + intros ->. by left.
    + intros [[= ->]|[? _]]; done.
    + done.
    + intros [?|[_ ?]]; done.
    + intros _. by right.
    + done.
  - intros Hk Hi. rewrite negb_true_iff, bool_decide_eq_false.
    unfold Js.get. by rewrite Hk, Hi.
Qed.

(** X5.  The element check of a step runs only for a step with a link
    target or a text: a step with neither passes it whatever the elements
    are, so a tag name on its own constrains nothing; a step with one of
    the two fails it on an event without elements. *)
Theorem checkStepElement_only_for_href_or_text (step : ActionSteps.Step)
    (elements : list ActionMatcher.Element) :
  (ActionSteps.given (ActionSteps.href step) = None ->
   ActionSteps.given (ActionSteps.text step) = None ->
   ActionSteps.checkStepElement elements step = true)
  /\ (is_Some (ActionSteps.given (ActionSteps.href step))
      \/ is_Some (ActionSteps.given (ActionSteps.text step)) ->
      ActionSteps.checkStepElement [] step = false).
Proof.
  unfold ActionSteps.checkStepElement. split.
  - intros -> ->.
    rewrite (bool_decide_eq_false_2 (is_Some (@None string))) by apply is_Some_None.
    done.
  - intros [H|H].
    + rewrite (bool_decide_eq_true_2 _ H). done.
    + rewrite (bool_decide_eq_true_2 _ H). by rewrite orb_true_r.
Qed.

Lemma checkStepElement_only_for_href_or_text_witness :
  let only_tag :=
    ActionSteps.mkStep (ActionMatcher.mkActionStep None ActionMatcher.Null)
      (Some "a") None None None None in
  let with_text :=
    ActionSteps.mkStep (ActionMatcher.mkActionStep None ActionMatcher.Null)
      None (Some "Sign up") None None None in
  ActionSteps.checkStepElement [ {[ "tag_name" := Js.JStr "button" ]} ] only_tag = true
  /\ ActionSteps.checkStepElement [] with_text = false.
Proof.
  intros only_tag with_text. split.
  - exact (proj1 (checkStepElement_only_for_href_or_text only_tag _) eq_refl eq_refl).
  - apply (proj2 (checkStepElement_only_for_href_or_text with_text [])).
    right. by eexists.
Defined.

(** X6.  A step without URL matching passes the URL check.  A step with
    URL matching, of any kind, fails it without an error on an event that
    has no non-empty string as [$current_url]; with exact matching it
    passes exactly when the step's URL, the empty string if it has none,
    is the event's URL. *)
Theorem checkStepUrl_cases (R : ActionMatcher.Runtime)
    (escapeStringRegexp : string -> string)
    (event : ActionMatcher.PluginEvent) (step : ActionSteps.Step) :
  (ActionSteps.url_matching step = None ->
   ActionSteps.checkStepUrl R escapeStringRegexp event step = Js.Ok true)
  /\ (is_Some (ActionSteps.url_matching step) ->
      (forall u, ActionSteps.current_url event = Js.JStr u -> u = "") ->
      ActionSteps.checkStepUrl R escapeStringRegexp event step = Js.Ok false)
  /\ (forall u,
        ActionSteps.url_matching step = Some ActionSteps.UrlExact ->
        ActionSteps.current_url event = Js.JStr u -> u <> "" ->
        ActionSteps.checkStepUrl R escapeStringRegexp event step
        = Js.Ok (String.eqb (default "" (ActionSteps.given (ActionSteps.url step))) u)).
Proof.
  unfold ActionSteps.checkStepUrl. refine (conj _ (conj _ _)).
  - by intros ->.
  - intros [m ->] Hu.
    destruct (ActionSteps.current_url event) as [| |b|z|u|o|n] eqn:E; simpl;
      rewrite ?orb_true_r; try done.
    + by rewrite (Hu u eq_refl).
    + by destruct (String.eqb n "__proto__").
  - intros u -> -> Hu. simpl.
    assert (String.eqb u "" = false) as -> by (by apply String.eqb_neq).
    simpl. f_equal. unfold Js.strict_eq.
    destruct (String.eqb_spec (default "" (ActionSteps.given (ActionSteps.url step))) u)
      as [->|Hne].
    + by rewrite bool_decide_eq_true_2.
    + rewrite bool_decide_eq_false_2; [done|congruence].
Qed.

Lemma checkStepUrl_cases_witness :
  let step :=
    ActionSteps.mkStep (ActionMatcher.mkActionStep None ActionMatcher.Null)
      None None None (Some "https://example.com/")
      (Some (ActionSteps.OtherMatching "glob")) in
  let exact :=
    ActionSteps.mkStep (ActionMatcher.mkActionStep None ActionMatcher.Null)
      None None None None (Some ActionSteps.UrlExact) in
  ActionSteps.checkStepUrl ActionMatcher.sample_runtime (fun s => s)
    (ActionMatcher.mkPluginEvent "pageview" 2 ActionMatcher.Undefined) step
  = Js.Ok false
  /\ ActionSteps.checkStepUrl ActionMatcher.sample_runtime (fun s => s)
       (ActionMatcher.mkPluginEvent "pageview" 2
          (ActionMatcher.Defined {[ "$current_url" := Js.JStr "/pricing" ]})) exact
     = Js.Ok false.
Proof.
  intros step exact. split.
  - destruct (checkStepUrl_cases ActionMatcher.sample_runtime (fun s => s)
                (ActionMatcher.mkPluginEvent "pageview" 2 ActionMatcher.Undefined) step)
      as (_ & H & _).
    apply H; [by eexists|]. intros u Hu. discriminate Hu.
  - destruct (checkStepUrl_cases ActionMatcher.sample_runtime (fun s => s)
                (ActionMatcher.mkPluginEvent "pageview" 2
                   (ActionMatcher.Defined {[ "$current_url" := Js.JStr "/pricing" ]})) exact)
      as (_ & _ & H).
    exact (H "/pricing" eq_refl eq_refl ltac:(discriminate)).
Defined.

Section StepFacts.
Import Js ActionMatcher ActionSteps.
Context (R : Runtime) (escapeStringRegexp : string -> string).

Lemma some_exc_true {A} (test : A -> Exc bool) (l : list A) :
  some_exc test l = Ok true -> exists x, x ∈ l /\ test x = Ok true.
Proof.
  induction l as [|x l IH]; simpl; [done|].
  destruct (test x) as [[|]|e] eqn:E; try done.
  - intros _. exists x. split; [left|done].
  - intros H. destruct (IH H) as (y & Hy & Ht). exists y. split; [by right|done].
Qed.

Lemma filter_exc_spec {A} (test : A -> Exc bool) (l r : list A) :
  filter_exc test l = Ok r ->
  r `sublist_of` l /\ forall x, x ∈ r -> test x = Ok true.
Proof.
  revert r. induction l as [|x l IH]; simpl; intros r.
  - intros [= <-]. split; [constructor|]. intros x Hx. by apply elem_of_nil in Hx.
  - destruct (test x) as [b|e] eqn:E; [|done].
    destruct (filter_exc test l) as [r'|e]; [|done].
    destruct (IH r' eq_refl) as (Hs & Ht).
    intros [= <-]. destruct b.
    + split; [by constructor|].
      intros y Hy. apply elem_of_cons in Hy as [->|Hy]; [done|by apply Ht].
    + split; [by constructor|done].
Qed.

End StepFacts.

(** X8.  What [match] returns is a sublist of the team's actions, in
    their order, and each action in it has a step that matches the
    event. *)
Theorem match_returns_matching_actions (R : ActionMatcher.Runtime)
    (escapeStringRegexp : string -> string)
    (teamActions matched : list ActionSteps.Action)
    (extractElements : Js.JsVal -> list ActionMatcher.Element)
    (event : ActionMatcher.PluginEvent) :
  ActionSteps.match_ R escapeStringRegexp teamActions extractElements event
  = Js.Ok matched ->
  matched `sublist_of` teamActions
  /\ forall action, action ∈ matched ->
       exists step, step ∈ ActionSteps.steps action
         /\ ActionSteps.checkStep R escapeStringRegexp event
              (ActionMatcher.elements_of extractElements event) step = Js.Ok true.
Proof.
  unfold ActionSteps.match_. intros H.
  destruct (filter_exc_spec _ _ _ H) as (Hs & Ht). split; [exact Hs|].
  intros action Ha. apply some_exc_true. by apply Ht.
Qed.

Lemma match_returns_matching_actions_witness :
  let step :=
    ActionSteps.mkStep (ActionMatcher.mkActionStep (Some "pageview") ActionMatcher.Null)
      None None None None None in
  let hit := ActionSteps.mkAction 1 [step] in
  let empty := ActionSteps.mkAction 2 [] in
  let event := ActionMatcher.mkPluginEvent "pageview" 2 ActionMatcher.Undefined in
  ActionSteps.match_ ActionMatcher.sample_runtime (fun s => s) [empty; hit]
    (fun _ => []) event = Js.Ok [hit]
  /\ [hit] `sublist_of` [empty; hit].
Proof.
  intros step hit empty event.
  assert (H : ActionSteps.match_ ActionMatcher.sample_runtime (fun s => s) [empty; hit]
                (fun _ => []) event = Js.Ok [hit]) by reflexivity.
  split; [exact H|].
  exact (proj1 (match_returns_matching_actions _ _ _ _ _ _ H)).
Defined.

(** ** Capabilities and metrics *)

Section CapabilityFacts.
Import Capabilities.

Lemma inferPluginCapabilities_result (plugin : Plugin) (vm : VmResponse) :
  capabilities (fst (inferPluginCapabilities plugin vm))
  = Some (as_stored (mkRequiredCapabilities (truthy_keys (schedule vm))
                       (truthy_keys (job vm)) (truthy_keys (methods vm))))
  /\ plugin_metrics (fst (inferPluginCapabilities plugin vm)) = plugin_metrics plugin.
Proof.
  unfold inferPluginCapabilities, equal_capabilities.
  case_bool_decide as H; simpl; [by rewrite H|done].
Qed.

Lemma exports_events_after_inference (plugin : Plugin) (vm : VmResponse) :
  exports_events (fst (inferPluginCapabilities plugin vm))
  = bool_decide ("exportEvents" ∈ truthy_keys (methods vm)).
Proof.
  unfold exports_events.
  by rewrite (proj1 (inferPluginCapabilities_result plugin vm)).
Qed.

End CapabilityFacts.

(** X9.  Inference is idempotent: after the capabilities and metrics of a
    VM have been inferred once, inferring them again for the same VM
    writes nothing and leaves the plugin as it is. *)
Theorem infer_twice_writes_nothing (plugin : Capabilities.Plugin)
    (vm : Capabilities.VmResponse) :
  let once := Capabilities.infer plugin vm in
  Capabilities.infer (fst once) vm = (fst once, []).
Proof.
  intros once. unfold once, Capabilities.infer.
  set (p1 := fst (Capabilities.inferPluginCapabilities plugin vm)).
  set (p2 := fst (Capabilities.inferPluginMetrics p1 vm)).
  assert (Hc2 : Capabilities.capabilities p2 = Capabilities.capabilities p1).
  { unfold p2, Capabilities.inferPluginMetrics.
    destruct (Capabilities.metrics vm); [|done]. by destruct (negb _). }
  assert (Hc1 : Capabilities.capabilities p1 = _)
    by exact (proj1 (inferPluginCapabilities_result plugin vm)).
  assert (H1 : Capabilities.inferPluginCapabilities p2 vm = (p2, [])).
  { unfold Capabilities.inferPluginCapabilities, Capabilities.equal_capabilities.
    rewrite Hc2, Hc1. by rewrite bool_decide_eq_true_2. }
  simpl. rewrite H1. simpl.
  assert (He : Capabilities.exports_events p2 = Capabilities.exports_events p1)
    by (unfold Capabilities.exports_events; by rewrite Hc2).
  assert (H2 : Capabilities.inferPluginMetrics p2 vm = (p2, [])).
  { unfold Capabilities.inferPluginMetrics. rewrite He.
    destruct (Capabilities.metrics vm) as [m|] eqn:Em; [|done].
    assert (Capabilities.plugin_metrics p2
            = if Capabilities.exports_events p1
              then Some (Capabilities.export_metrics ∪ m) else Some m) as ->.
    { unfold p2, Capabilities.inferPluginMetrics. rewrite Em. simpl.
      case_bool_decide as Hd; simpl; [|done]. rewrite Hd.
      by destruct (Capabilities.exports_events p1). }
    simpl. destruct (Capabilities.exports_events p1);
      by rewrite bool_decide_eq_true_2. }
  by rewrite H2.
Qed.

(** X10.  After inference for a VM that declares metrics, the plugin's
    metrics are the VM's, and for a VM that exposes [exportEvents] the
    four export metrics are added as sums, replacing the VM's own entries
    with those names.  For a VM that declares no metrics the plugin's
    metrics are left alone and never written, exporter or not. *)
Theorem infer_metrics (plugin : Capabilities.Plugin) (vm : Capabilities.VmResponse) :
  let after := Capabilities.infer plugin vm in
  let exporter := "exportEvents" ∈ Capabilities.truthy_keys (Capabilities.methods vm) in
  (forall m, Capabilities.metrics vm = Some m -> exporter ->
     Capabilities.plugin_metrics (fst after) = Some (Capabilities.export_metrics ∪ m)
     /\ (forall name, name ∈ ["events-seen"; "events-delivered-successfully";
                              "retry-errors"; "other-errors"] ->
           (Capabilities.export_metrics ∪ m) !! name = Some "sum")
     /\ (forall name, Capabilities.export_metrics !! name = None ->
           (Capabilities.export_metrics ∪ m) !! name = m !! name))
  /\ (forall m, Capabilities.metrics vm = Some m -> ~ exporter ->
        Capabilities.plugin_metrics (fst after) = Some m)
  /\ (Capabilities.metrics vm = None ->
        Capabilities.plugin_metrics (fst after) = Capabilities.plugin_metrics plugin
        /\ forall m, Capabilities.SetPluginMetrics m ∉ snd after).
Proof.
  intros after exporter. unfold after, Capabilities.infer. simpl.
  pose proof (exports_events_after_inference plugin vm) as He.
  pose proof (proj2 (inferPluginCapabilities_result plugin vm)) as Hm.
  set (p1 := fst (Capabilities.inferPluginCapabilities plugin vm)) in *.
  refine (conj _ (conj _ _)).
  - intros m Em Hx. unfold Capabilities.inferPluginMetrics.
    rewrite He, Em, (bool_decide_eq_true_2 _ Hx). simpl. clear He.
    split; [|split].
    + case_bool_decide as Hd; simpl; [by rewrite Hd|done].
    + intros name Hn. apply lookup_union_Some_l.
      repeat (apply elem_of_cons in Hn as [->|Hn]; [by vm_compute|]).
      by apply elem_of_nil in Hn.
    + intros name Hn. by apply lookup_union_r.
  - intros m Em Hx. unfold Capabilities.inferPluginMetrics.
    rewrite He, Em, (bool_decide_eq_false_2 _ Hx). simpl. clear He.
    case_bool_decide as Hd; simpl; [by rewrite Hd|done].
  - intros Em. unfold Capabilities.inferPluginMetrics. rewrite Em. simpl.
    split; [exact Hm|].
    intros m Hin. rewrite app_nil_r in Hin.
    unfold Capabilities.inferPluginCapabilities in Hin.
    destruct (negb _); simpl in Hin.
    + apply list_elem_of_singleton in Hin. discriminate Hin.
    + by apply elem_of_nil in Hin.
Qed.

Lemma infer_metrics_witness :
  let vm := Capabilities.mkVmResponse
              (Some [("processEvent", false); ("exportEvents", true)]) None None
              (Some {[ "events-seen" := "max"; "rows" := "sum" ]}) in
  Capabilities.plugin_metrics
    (fst (Capabilities.infer (Capabilities.mkPlugin None None) vm))
  = Some (Capabilities.export_metrics ∪ {[ "events-seen" := "max"; "rows" := "sum" ]})
  /\ (Capabilities.export_metrics ∪ {[ "events-seen" := "max"; "rows" := "sum" ]})
       !! "events-seen" = Some "sum".
Proof.
  intros vm.
  destruct (infer_metrics (Capabilities.mkPlugin None None) vm) as (H & _).
  destruct (H {[ "events-seen" := "max"; "rows" := "sum" ]} eq_refl) as (H1 & H2 & _).
  - vm_compute. left.
  - split; [exact H1|]. apply H2. left.
Defined.

(** ** Loading plugins *)

Section SetupFacts.
Import Js Setup.
Context {Vm : Type}.

Lemma assign_vm_plugin (loadPlugin : PluginConfig Vm -> option Vm)
    (server loaded : PluginsServer Vm) (c : PluginConfig Vm) :
  plugin (assign_vm loadPlugin server loaded c) = plugin c.
Proof.
  unfold assign_vm. destruct (pluginConfigs server !! id c) as [prev|]; simpl.
  - destruct (_ && _); destruct (vm _); reflexivity.
  - destruct (vm c); reflexivity.
Qed.

Lemma config_of_row_spec (server : PluginsServer Vm) atts r (pc : PluginConfig Vm) :
  config_of_row server atts r = Some pc ->
  row pc = r /\ plugins server !! r_plugin_id r = Some (plugin pc) /\ vm pc = None.
Proof.
  unfold config_of_row. destruct (plugins server !! r_plugin_id r) as [pl|]; [|done].
  intros [= <-]. done.
Qed.

(** Every config in the map comes from a row whose plugin the server
    already had. *)
Lemma loaded_configs (server : PluginsServer Vm) atts rows acc (i : Z)
    (c : PluginConfig Vm) :
  fst (fold_left (add_config_row server atts) rows acc) !! i = Some c ->
  fst acc !! i = Some c
  \/ (id c = i /\ row c ∈ rows
      /\ plugins server !! plugin_id c = Some (plugin c) /\ vm c = None).
Proof.
  revert acc. induction rows as [|r rows IH]; intros acc H; simpl in H; [by left|].
  apply IH in H as [H|(? & ? & ? & ?)].
  - unfold add_config_row in H.
    destruct (config_of_row server atts r) as [pc|] eqn:Hc; [|by left].
    apply config_of_row_spec in Hc as (Hrow & Hpl & Hvm).
    assert (fst (match team_of_row r with
                 | Some t => (<[r_id r:=pc]> (fst acc),
                              <[t:=default [] (snd acc !! t) ++ [pc]]> (snd acc))
                 | None => (<[r_id r:=pc]> (fst acc), snd acc)
                 end) = <[r_id r:=pc]> (fst acc)) as Hf
      by (by destruct (team_of_row r)).
    rewrite Hf in H. clear Hf.
    destruct (decide (r_id r = i)) as [<-|Hne].
    + rewrite lookup_insert_eq in H. injection H as <-. right.
      unfold id, plugin_id. rewrite Hrow.
      split; [done|]. split; [left|]. done.
    + rewrite lookup_insert_ne in H by done. by left.
  - right. split; [done|]. split; [by right|]. done.
Qed.

Lemma loaded_other_id (server : PluginsServer Vm) atts rows acc (i : Z) :
  i ∉ r_id <$> rows ->
  fst (fold_left (add_config_row server atts) rows acc) !! i = fst acc !! i.
Proof.
  revert acc. induction rows as [|r rows IH]; intros acc Hi; simpl; [done|].
  rewrite fmap_cons in Hi. apply not_elem_of_cons in Hi as [Hne Hi].
  rewrite IH by done. unfold add_config_row.
  destruct (config_of_row server atts r) as [pc|]; [|done].
  destruct (team_of_row r); simpl; by rewrite lookup_insert_ne.
Qed.

(** With unique row ids, an accepted row is the config of its id. *)
Lemma loaded_row (server : PluginsServer Vm) atts rows acc r (pc : PluginConfig Vm) :
  NoDup (r_id <$> rows) -> r ∈ rows ->
  config_of_row server atts r = Some pc ->
  fst (fold_left (add_config_row server atts) rows acc) !! r_id r = Some pc.
Proof.
  revert acc. induction rows as [|r' rows IH]; intros acc Hnd Hin Hc.
  - by apply elem_of_nil in Hin.
  - rewrite fmap_cons in Hnd. apply NoDup_cons in Hnd as [Hnotin Hnd].
    apply elem_of_cons in Hin as [->|Hin]; simpl.
    + rewrite loaded_other_id by done.
      unfold add_config_row. rewrite Hc.
      destruct (team_of_row r'); simpl; by rewrite lookup_insert_eq.
    + by apply IH.
Qed.

Lemma plugins_loaded_key (pluginRows : list Plugin) (acc : gmap Z Plugin) (k : Z) :
  k ∈ p_id <$> pluginRows \/ is_Some (acc !! k) ->
  is_Some (fold_left (fun m q => <[p_id q := q]> m) pluginRows acc !! k).
Proof.
  revert acc. induction pluginRows as [|q l IH]; intros acc H; simpl.
  - destruct H as [H|H]; [by apply elem_of_nil in H|done].
  - apply IH. destruct H as [H|H].
    + rewrite fmap_cons in H. apply elem_of_cons in H as [->|H]; [|by left].
      right. rewrite lookup_insert_eq. by eexists.
    + right. apply lookup_insert_is_Some. destruct (decide (p_id q = k)); auto.
Qed.

Lemma plugins_loaded (pluginRows : list Plugin) (acc : gmap Z Plugin) (p : Plugin) :
  p ∈ pluginRows ->
  is_Some (fold_left (fun m q => <[p_id q := q]> m) pluginRows acc !! p_id p).
Proof.
  intros H. apply plugins_loaded_key. left. apply list_elem_of_fmap. by exists p.
Qed.

Lemma setupPlugins_configs_of_first (loadPlugin : PluginConfig Vm -> option Vm)
    (server : PluginsServer Vm) pluginRows attRows rows (i : Z) (c : PluginConfig Vm) :
  pluginConfigs (setupPlugins loadPlugin server pluginRows attRows rows) !! i = Some c ->
  id c = i /\ row c ∈ rows.
Proof.
  intros H. unfold setupPlugins in H. simpl in H.
  rewrite lookup_fmap in H.
  destruct (fst _ !! i) as [c0|] eqn:E; [|done].
  simpl in H. injection H as <-.
  apply loaded_configs in E as [E|(Hid & Hrow & _)];
    [simpl in E; by rewrite lookup_empty in E|].
  unfold id in *. by rewrite assign_vm_row.
Qed.

Lemma no_plugins_no_configs (server : PluginsServer Vm) atts rows acc :
  plugins server = ∅ ->
  fold_left (add_config_row server atts) rows acc = acc.
Proof.
  intros He. revert acc. induction rows as [|r rows IH]; intros acc; simpl; [done|].
  rewrite IH. unfold add_config_row, config_of_row. by rewrite He, lookup_empty.
Qed.

End SetupFacts.

(** X11.  [setupPlugins] builds a config only for a row whose plugin the
    server knew before the call: every loaded config carries the plugin
    object of the previous plugin map.  A server that starts with no
    plugins therefore ends its first load with every plugin of the table
    and with no config and no pipeline. *)
Theorem setupPlugins_configs_need_known_plugin {Vm : Type}
    (loadPlugin : Setup.PluginConfig Vm -> option Vm)
    (server : Setup.PluginsServer Vm) (pluginRows : list Setup.Plugin)
    (attRows : list Setup.PluginAttachmentRow) (rows : list Setup.PluginConfigRow) :
  let server' := Setup.setupPlugins loadPlugin server pluginRows attRows rows in
  (forall i c, Setup.pluginConfigs server' !! i = Some c ->
     Setup.id c = i /\ Setup.row c ∈ rows
     /\ Setup.plugins server !! Setup.plugin_id c = Some (Setup.plugin c))
  /\ (forall p, p ∈ pluginRows -> is_Some (Setup.plugins server' !! Setup.p_id p))
  /\ (Setup.plugins server = ∅ ->
      Setup.pluginConfigs server' = ∅ /\ Setup.pluginConfigsPerTeam server' = ∅).
Proof.
  intros server'. refine (conj _ (conj _ _)).
  - intros i c H. unfold server', Setup.setupPlugins in H. simpl in H.
    rewrite lookup_fmap in H.
    destruct (fst _ !! i) as [c0|] eqn:E; [|done].
    simpl in H. injection H as <-.
    apply loaded_configs in E as [E|(Hid & Hrow & Hpl & _)];
      [simpl in E; by rewrite lookup_empty in E|].
    unfold Setup.id, Setup.plugin_id in *.
    by rewrite assign_vm_row, assign_vm_plugin.
  - intros p Hp. unfold server', Setup.setupPlugins. simpl. by apply plugins_loaded.
  - intros He. unfold server', Setup.setupPlugins. simpl.
    rewrite no_plugins_no_configs by done. simpl.
    by rewrite !fmap_empty.
Qed.

(** X12.  Loading the same tables a second time reuses every VM: with
    unique config ids and every config row pointing to a plugin of the
    plugin table, each config that had a VM after the first load has the
    same VM after the second, whatever [loadPlugin] would have returned. *)
Theorem setupPlugins_reload_keeps_vms {Vm : Type}
    (loadPlugin loadPlugin' : Setup.PluginConfig Vm -> option Vm)
    (server : Setup.PluginsServer Vm) (pluginRows : list Setup.Plugin)
    (attRows : list Setup.PluginAttachmentRow) (rows : list Setup.PluginConfigRow)
    (Hids : NoDup (Setup.r_id <$> rows))
    (Hfk : forall r, r ∈ rows ->
             exists p, p ∈ pluginRows /\ Setup.p_id p = Setup.r_plugin_id r) :
  let first := Setup.setupPlugins loadPlugin server pluginRows attRows rows in
  let second := Setup.setupPlugins loadPlugin' first pluginRows attRows rows in
  forall i c, Setup.pluginConfigs first !! i = Some c -> is_Some (Setup.vm c) ->
    exists c', Setup.pluginConfigs second !! i = Some c'
      /\ Setup.vm c' = Setup.vm c /\ Setup.row c' = Setup.row c.
Proof.
  intros first second i c Hc [v Hv].
  destruct (setupPlugins_configs_of_first loadPlugin server pluginRows attRows rows i c Hc)
    as (Hid & Hrow).
  destruct (Hfk _ Hrow) as (p & Hp & Hpid).
  destruct (plugins_loaded pluginRows ∅ p Hp) as [pl Hpl].
  set (r := Setup.row c) in *.
  set (pc := {| Setup.row := r; Setup.plugin := pl;
                Setup.attachments :=
                  default ∅ (Setup.attachmentsPerConfig attRows !! Setup.r_id r);
                Setup.vm := @None Vm |}).
  assert (Hcfg : Setup.config_of_row first (Setup.attachmentsPerConfig attRows) r
                 = Some pc).
  { unfold Setup.config_of_row, first, Setup.setupPlugins. simpl.
    by rewrite <- Hpid, Hpl. }
  exists (Setup.assign_vm loadPlugin' first
            (Setup.loadPluginsFromDB first pluginRows attRows rows) pc).
  split.
  - unfold second, Setup.setupPlugins. simpl. rewrite lookup_fmap.
    rewrite <- Hid. unfold Setup.id. fold r.
    by rewrite (loaded_row first _ rows (∅, ∅) r pc Hids Hrow Hcfg).
  - split; [|apply assign_vm_row].
    unfold Setup.assign_vm.
    assert (Setup.id pc = i) as -> by (by rewrite <- Hid).
    rewrite Hc. unfold Setup.updated_at. simpl. fold r.
    rewrite String.eqb_refl. simpl.
    rewrite bool_decide_eq_true_2 by done.
    by rewrite Hv.
Qed.

Lemma setupPlugins_reload_keeps_vms_witness :
  exists c', Setup.pluginConfigs
               (Setup.setupPlugins (fun _ => None)
                  (PluginOrderExample.load PluginOrderExample.test_rows)
                  [PluginOrderExample.plugin60] [] PluginOrderExample.test_rows)
             !! 40 = Some c'
    /\ Setup.vm c' = Some tt.
Proof.
  destruct (setupPlugins_reload_keeps_vms (fun _ => Some tt) (fun _ => None)
              PluginOrderExample.server0 [PluginOrderExample.plugin60] []
              PluginOrderExample.test_rows)
    with (i := 40)
         (c := {| Setup.row := PluginOrderExample.mkRow 40 1;
                  Setup.plugin := PluginOrderExample.plugin60;
                  Setup.attachments := ∅; Setup.vm := Some tt |})
    as (c' & H1 & H2 & _).
  - apply (bool_decide_unpack (NoDup (Setup.r_id <$> PluginOrderExample.test_rows))).
    vm_compute. exact I.
  - intros r Hr. exists PluginOrderExample.plugin60. split; [left|].
    vm_compute in Hr.
    repeat (apply elem_of_cons in Hr as [->|Hr]; [reflexivity|]).
    by apply elem_of_nil in Hr.
  - vm_compute. reflexivity.
  - by eexists.
  - exists c'. split; [exact H1|exact H2].
Defined.

(** ** The schedule of periodic tasks *)

Section ScheduleFacts.
Import Js Schedule.

Lemma fold_push_task_throw (id : Z) (tasks : Tasks) (e : string) :
  fold_left (push_task id) tasks (Throw e) = Throw e.
Proof. induction tasks as [|entry tasks IH]; simpl; [done|exact IH]. Qed.

Lemma has_task_cons (taskName k : string) (b : bool) (tasks : Tasks) :
  has_task taskName (Some ((k, b) :: tasks))
  = (String.eqb taskName k && b) || has_task taskName (Some tasks).
Proof.
  unfold has_task. simpl.
  destruct (String.eqb_spec taskName k) as [->|Hne]; destruct b; simpl.
  - apply bool_decide_eq_true_2. left.
  - apply bool_decide_ext. rewrite elem_of_cons.
    split; [intros [Heq|H]; [congruence|done]|by right].
  - apply bool_decide_ext. rewrite elem_of_cons.
    split; [intros [Heq|H]; [congruence|done]|by right].
  - apply bool_decide_ext. rewrite elem_of_cons.
    split; [intros [Heq|H]; [congruence|done]|by right].
Qed.

Lemma has_task_absent (taskName : string) (tasks : Tasks) :
  taskName ∉ fst <$> tasks -> has_task taskName (Some tasks) = false.
Proof.
  intros H. apply bool_decide_eq_false_2. intros Hin. apply H.
  apply list_elem_of_fmap. by exists (taskName, true).
Qed.

Lemma push_task_true (id : Z) (s : PluginSchedule) (k : string) :
  push_task id (Ok s) (k, true)
  = if String.eqb k "runEveryMinute"
    then Ok {| runEveryMinute := runEveryMinute s ++ [id];
               runEveryHour := runEveryHour s; runEveryDay := runEveryDay s |}
    else if String.eqb k "runEveryHour"
    then Ok {| runEveryMinute := runEveryMinute s;
               runEveryHour := runEveryHour s ++ [id];
               runEveryDay := runEveryDay s |}
    else if String.eqb k "runEveryDay"
    then Ok {| runEveryMinute := runEveryMinute s;
               runEveryHour := runEveryHour s;
               runEveryDay := runEveryDay s ++ [id] |}
    else if inherited k
    then Throw "TypeError: pluginSchedule[taskName].push is not a function"
    else Ok s.
Proof. reflexivity. Qed.

Lemma fold_push_task (id : Z) (tasks : Tasks) (s : PluginSchedule) :
  NoDup (fst <$> tasks) ->
  fold_left (push_task id) tasks (Ok s)
  = if existsb (fun entry => snd entry && inherited (fst entry)) tasks
    then Throw "TypeError: pluginSchedule[taskName].push is not a function"
    else Ok {| runEveryMinute :=
                 runEveryMinute s ++ pushed (has_task "runEveryMinute" (Some tasks)) id;
               runEveryHour :=
                 runEveryHour s ++ pushed (has_task "runEveryHour" (Some tasks)) id;
               runEveryDay :=
                 runEveryDay s ++ pushed (has_task "runEveryDay" (Some tasks)) id |}.
Proof.
  revert s. induction tasks as [|[k b] tasks IH]; intros s Hnd.
  - simpl. unfold has_task. simpl. rewrite !app_nil_r. by destruct s.
  - rewrite fmap_cons in Hnd. apply NoDup_cons in Hnd as [Hk Hnd]. simpl in Hk.
    rewrite !has_task_cons.
    change (fold_left (push_task id) ((k, b) :: tasks) (Ok s))
      with (fold_left (push_task id) tasks (push_task id (Ok s) (k, b))).
    change (existsb (fun entry => snd entry && inherited (fst entry)) ((k, b) :: tasks))
      with ((b && inherited k)
            || existsb (fun entry => snd entry && inherited (fst entry)) tasks).
    destruct b.
    2: { change (push_task id (Ok s) (k, false)) with (Ok s).
         rewrite IH by done. by rewrite !andb_false_r. }
    rewrite push_task_true, !andb_true_r, andb_true_l.
    destruct (String.eqb_spec k "runEveryMinute") as [->|Hm].
    { rewrite IH by done.
      rewrite (has_task_absent "runEveryMinute") by done.
      simpl. by rewrite <- !app_assoc. }
    destruct (String.eqb_spec k "runEveryHour") as [->|Hh].
    { rewrite IH by done.
      rewrite (has_task_absent "runEveryHour") by done.
      simpl. by rewrite <- !app_assoc. }
    destruct (String.eqb_spec k "runEveryDay") as [->|Hd].
    { rewrite IH by done.
      rewrite (has_task_absent "runEveryDay") by done.
      simpl. by rewrite <- !app_assoc. }
    rewrite (proj2 (String.eqb_neq "runEveryMinute" k)) by congruence.
    rewrite (proj2 (String.eqb_neq "runEveryHour" k)) by congruence.
    rewrite (proj2 (String.eqb_neq "runEveryDay" k)) by congruence.
    destruct (inherited k).
    + apply fold_push_task_throw.
    + by rewrite IH by done.
Qed.

Lemma ids_with_cons (taskName : string) (config : Z * option Tasks) configs :
  ids_with taskName (config :: configs)
  = pushed (has_task taskName (snd config)) (fst config) ++ ids_with taskName configs.
Proof.
  unfold ids_with. rewrite filter_cons.
  destruct (decide _) as [H|H]; simpl.
  - by rewrite H.
  - by destruct (has_task taskName (snd config)).
Qed.

Lemma fold_gather (configs : list (Z * option Tasks)) (s : PluginSchedule) :
  Forall (fun config => NoDup (fst <$> default [] (snd config))) configs ->
  fold_left
    (fun acc config => fold_left (push_task (fst config)) (default [] (snd config)) acc)
    configs (Ok s)
  = if inherited_task configs
    then Throw "TypeError: pluginSchedule[taskName].push is not a function"
    else Ok {| runEveryMinute := runEveryMinute s ++ ids_with "runEveryMinute" configs;
               runEveryHour := runEveryHour s ++ ids_with "runEveryHour" configs;
               runEveryDay := runEveryDay s ++ ids_with "runEveryDay" configs |}.
Proof.
  intros H. revert s. induction H as [|[id vm] configs Hnd _ IH]; intros s.
  - simpl. unfold ids_with. simpl. rewrite !app_nil_r. by destruct s.
  - simpl in *. rewrite fold_push_task by done.
    destruct (existsb _ (default [] vm)) eqn:E; simpl.
    + clear IH. induction configs as [|c configs IH]; simpl; [done|].
      by rewrite fold_push_task_throw.
    + rewrite IH. simpl. rewrite !ids_with_cons. simpl.
      assert (forall n, has_task n (Some (default [] vm)) = has_task n vm) as Hh
        by (by destruct vm).
      rewrite !Hh. by rewrite <- !app_assoc.
Qed.

End ScheduleFacts.

(** X13.  [loadSchedule] leaves in [server.pluginSchedule] three lists:
    each holds, in the order of the configs, the ids of the configs
    whose VM has a truthy task of that name.  Configs without VM, falsy
    tasks and tasks of other names add nothing.  When some VM has a
    truthy task named like a property every object inherits
    ([toString], [constructor], ...), the push throws and the schedule
    stays [null]. *)
Theorem loadSchedule_gathers_ids (configs : list (Z * option Schedule.Tasks))
    (Hkeys : Forall (fun config => NoDup (fst <$> default [] (snd config))) configs) :
  Schedule.loadSchedule configs
  = if Schedule.inherited_task configs then None
    else Some {| Schedule.runEveryMinute := Schedule.ids_with "runEveryMinute" configs;
                 Schedule.runEveryHour := Schedule.ids_with "runEveryHour" configs;
                 Schedule.runEveryDay := Schedule.ids_with "runEveryDay" configs |}.
Proof.
  unfold Schedule.loadSchedule, Schedule.gather.
  rewrite fold_gather by done.
  by destruct (Schedule.inherited_task configs).
Qed.

Lemma loadSchedule_gathers_ids_witness :
  Schedule.loadSchedule Schedule.sample_configs
  = Some {| Schedule.runEveryMinute := [41; 42]; Schedule.runEveryHour := [];
            Schedule.runEveryDay := [39] |}.
Proof.
  rewrite loadSchedule_gathers_ids.
  - vm_compute. reflexivity.
  - apply (bool_decide_unpack
             (Forall (fun config : Z * option Schedule.Tasks =>
                        NoDup (fst <$> default [] (snd config)))
                Schedule.sample_configs)).
    vm_compute. exact I.
Defined.

(** ** The singleton lock over a whole run *)

Section RedlockRuns.
Import Redlock.

(** One timer is set, and it is the extension timer exactly when the
    lock is held. *)
Local Abbreviation waiting st :=
  (exists t, timers st = [t] /\ (weHaveTheLock st = true <-> callback t = ExtendLock)).

(** No timer is set, after an error that was not a lock error. *)
Local Abbreviation halted st :=
  (timers st = [] /\ weHaveTheLock st = false /\ OtherError ∈ reported st).

Lemma fire_timer_halted (ttl : Z) (f : Firing) (st : State) :
  timers st = [] -> fire_timer ttl f st = st.
Proof. intros H. unfold fire_timer. by rewrite H. Qed.

Lemma fire_timer_waiting (ttl : Z) (f : Firing) (st : State) :
  onLockResult f = None ->
  stopped st = false -> waiting st ->
  stopped (fire_timer ttl f st) = false
  /\ (waiting (fire_timer ttl f st) \/ halted (fire_timer ttl f st)).
Proof.
  intros Hon Hs (t & Ht & Hflag). unfold fire_timer. rewrite Ht.
  destruct (which f) as [|n]; simpl.
  - destruct t as [cb d]. simpl in Hflag. destruct cb; simpl.
    + unfold tryToGetTheLock, tryToGetTheLock_catch. rewrite Hon. simpl. rewrite Hs.
      destruct (lockResult f) as [[|]|]; simpl; (split; [done|]).
      * left. eexists. split; [done|]. simpl. split; discriminate.
      * right. split; [done|]. split; [done|]. apply elem_of_app. right. left.
      * left. eexists. split; [done|]. done.
    + unfold extendLock. simpl. rewrite Hs.
      destruct (extendResult f) as [e|]; simpl; (split; [done|]); left.
      * eexists. split; [done|]. simpl. split; discriminate.
      * eexists. split; [done|]. simpl. split; [done|]. intros _. by apply Hflag.
  - split; [done|]. left. by exists t.
Qed.

Lemma fold_fire_halted (ttl : Z) (firings : list Firing) (st : State) :
  timers st = [] ->
  fold_left (fun st f => fire_timer ttl f st) firings st = st.
Proof.
  intros H. induction firings as [|f rest IH]; simpl; [done|].
  by rewrite fire_timer_halted.
Qed.

Lemma fold_fire_waiting (ttl : Z) (firings : list Firing) (st : State) :
  Forall (fun f => onLockResult f = None) firings ->
  stopped st = false -> waiting st \/ halted st ->
  let st' := fold_left (fun st f => fire_timer ttl f st) firings st in
  stopped st' = false /\ (waiting st' \/ halted st').
Proof.
  intros Hon. revert st. induction Hon as [|f rest Hf _ IH]; intros st Hs Hst; simpl.
  - done.
  - destruct Hst as [Hw|Hh].
    + destruct (fire_timer_waiting ttl f st Hf Hs Hw) as [Hs' Hst'].
      by apply IH.
    + rewrite fire_timer_halted by apply Hh. apply IH; [done|by right].
Qed.

End RedlockRuns.

(** X14.  In every run in which [onLock] does not throw, at most one
    timer is set at any time.  Either exactly one is, and it is the
    extension timer if and only if the lock is held; or none is, which
    happens after an acquisition has failed with an error other than the
    client's lock error: then the lock is not held, the error has been
    reported, and nothing that follows changes the state any more, so
    the service never tries again. *)
Theorem redlock_one_timer (ttl : Z) (firings : list Redlock.Firing)
    (Hon : Forall (fun f => Redlock.onLockResult f = None) firings) :
  let st := Redlock.run ttl firings in
  (exists t, Redlock.timers st = [t]
     /\ (Redlock.weHaveTheLock st = true <-> Redlock.callback t = Redlock.ExtendLock))
  \/ (Redlock.timers st = [] /\ Redlock.weHaveTheLock st = false
      /\ Redlock.OtherError ∈ Redlock.reported st
      /\ forall more, Redlock.run ttl (firings ++ more) = st).
Proof.
  intros st.
  destruct (fold_fire_waiting ttl firings Redlock.startRedlock Hon eq_refl) as [_ H].
  { left. eexists. split; [reflexivity|]. simpl. split; discriminate. }
  destruct H as [H|(H1 & H2 & H3)]; [by left|right].
  refine (conj H1 (conj H2 (conj H3 _))).
  intros more. unfold Redlock.run. rewrite fold_left_app.
  by apply fold_fire_halted.
Qed.

Lemma redlock_one_timer_witness :
  Redlock.timers
    (Redlock.run 60 [Redlock.mkFiring 0 (Some Redlock.LockError) None None;
                     Redlock.mkFiring 0 (Some Redlock.OtherError) None None]) = []
  /\ Redlock.run 60 ([Redlock.mkFiring 0 (Some Redlock.LockError) None None;
                      Redlock.mkFiring 0 (Some Redlock.OtherError) None None]
                     ++ [Redlock.mkFiring 0 None None None])
     = Redlock.run 60 [Redlock.mkFiring 0 (Some Redlock.LockError) None None;
                       Redlock.mkFiring 0 (Some Redlock.OtherError) None None].
Proof.
  destruct (redlock_one_timer 60
              [Redlock.mkFiring 0 (Some Redlock.LockError) None None;
               Redlock.mkFiring 0 (Some Redlock.OtherError) None None])
    as [(t & Ht & _)|(H1 & _ & _ & H4)].
  - repeat constructor.
  - vm_compute in Ht. discriminate Ht.
  - split; [exact H1|]. apply H4.
Defined.

(** ** The team cache: what a call appends and when it writes *)

Section TeamCacheGrowth.
Import Js TeamCache TeamLists.

Lemma fmap_app_nil (l : option (list string)) : (fun x => x ++ []) <$> l = l.
Proof. destruct l; simpl; [by rewrite app_nil_r|done]. Qed.

Lemma fmap_app_app (l : option (list string)) (a b : list string) :
  (fun x => x ++ b) <$> ((fun x => x ++ a) <$> l) = (fun x => x ++ (a ++ b)) <$> l.
Proof. destruct l; simpl; [by rewrite app_assoc|done]. Qed.

(** What one turn of the loop over the properties does. *)
Lemma store_property_growth (acc : Team * bool) (entry : string * JsVal) :
  exists ps ns : list string,
    let r := store_property acc entry in
    id (fst r) = id (fst acc)
    /\ ingested_event (fst r) = ingested_event (fst acc)
    /\ event_names (fst r) = event_names (fst acc)
    /\ event_names_with_usage (fst r) = event_names_with_usage (fst acc)
    /\ event_properties (fst r) = (fun l => l ++ ps) <$> event_properties (fst acc)
    /\ event_properties_with_usage (fst r)
       = event_properties_with_usage (fst acc) ++ (unused <$> ps)
    /\ event_properties_numerical (fst r)
       = (fun l => l ++ ns) <$> event_properties_numerical (fst acc)
    /\ ps `sublist_of` [fst entry]
    /\ ns `sublist_of` numeric_keys [entry]
    /\ (event_properties_numerical (fst acc) = None -> ns = [])
    /\ (snd r = true <-> snd acc = true \/ ps <> [] \/ ns <> []).
Proof.
  unfold store_property, numeric_keys. rewrite filter_cons, filter_nil.
  destruct (guarded_not_in (fst entry) (event_properties (fst acc))) eqn:Hp;
    [exists [fst entry]|exists []]; simpl;
    (destruct (String.eqb_spec (typeof (snd entry)) "number") as [Hn|Hn]; simpl;
     [destruct (guarded_not_in (fst entry) (event_properties_numerical (fst acc))) eqn:Hg;
      [exists [fst entry]|exists []]
     |exists []]);
    simpl; rewrite ?fmap_app_nil, ?app_nil_r;
    (destruct (decide _) as [Hd|Hd]; [|try done]); simpl;
    repeat (split; [try done|]);
    try (by apply sublist_cons); try (by intros _; right; left);
    try (by intros _; right; right); try tauto;
    try (intros Hnone; unfold guarded_not_in in Hg; by rewrite Hnone in Hg).
Qed.

Lemma numeric_keys_cons (entry : string * JsVal) (l : list (string * JsVal)) :
  numeric_keys (entry :: l) = numeric_keys [entry] ++ numeric_keys l.
Proof.
  unfold numeric_keys. rewrite !filter_cons, filter_nil.
  by destruct (decide _).
Qed.

(** What the whole loop does. *)
Lemma fold_store_property_growth (properties : list (string * JsVal)) (acc : Team * bool) :
  exists ps ns : list string,
    let r := fold_left store_property properties acc in
    id (fst r) = id (fst acc)
    /\ ingested_event (fst r) = ingested_event (fst acc)
    /\ event_names (fst r) = event_names (fst acc)
    /\ event_names_with_usage (fst r) = event_names_with_usage (fst acc)
    /\ event_properties (fst r) = (fun l => l ++ ps) <$> event_properties (fst acc)
    /\ event_properties_with_usage (fst r)
       = event_properties_with_usage (fst acc) ++ (unused <$> ps)
    /\ event_properties_numerical (fst r)
       = (fun l => l ++ ns) <$> event_properties_numerical (fst acc)
    /\ ps `sublist_of` (fst <$> properties)
    /\ ns `sublist_of` numeric_keys properties
    /\ (event_properties_numerical (fst acc) = None -> ns = [])
    /\ (snd r = true <-> snd acc = true \/ ps <> [] \/ ns <> []).
Proof.
  revert acc. induction properties as [|entry rest IH]; intros acc.
  - exists [], []. simpl. rewrite !fmap_app_nil, app_nil_r.
    repeat split; try done; try constructor; tauto.
  - destruct (store_property_growth acc entry)
      as (ps1 & ns1 & A1 & A2 & A3 & A4 & A5 & A6 & A7 & A8 & A9 & A10 & A11).
    destruct (IH (store_property acc entry))
      as (ps2 & ns2 & B1 & B2 & B3 & B4 & B5 & B6 & B7 & B8 & B9 & B10 & B11).
    exists (ps1 ++ ps2), (ns1 ++ ns2). simpl in *.
    rewrite B1, B2, B3, B4, B5, B6, B7, A1, A2, A3, A4, A5, A6, A7.
    rewrite !fmap_app_app, fmap_app, <- app_assoc.
    repeat (split; [done|]).
    split; [change (ps1 ++ ps2 `sublist_of` [fst entry] ++ (fst <$> rest));
            by apply sublist_app|].
    split; [rewrite numeric_keys_cons; by apply sublist_app|].
    split.
    + intros Hnone. rewrite (A10 Hnone). simpl. apply B10.
      by rewrite A7, Hnone.
    + rewrite B11, A11. split.
      * intros [[H|[H|H]]|[H|H]]; [by left|right; left|right; right|right; left|right; right];
          intros Hnil; apply app_eq_nil in Hnil as [? ?]; done.
      * intros [H|[H|H]]; [by left; left|..].
        -- destruct ps1; [right; left; by rewrite app_nil_l in H|left; right; by left].
        -- destruct ns1; [right; right; by rewrite app_nil_l in H|left; right; by right].
Qed.

(** The lists and the flag before the loop. *)
Lemma before_loop_growth (team : Team) (event : string) :
  let acc0 := if negb (ingested_event team)
              then ({| id := id team; ingested_event := true;
                       event_names := event_names team;
                       event_names_with_usage := event_names_with_usage team;
                       event_properties := event_properties team;
                       event_properties_with_usage := event_properties_with_usage team;
                       event_properties_numerical := event_properties_numerical team |},
                    true)
              else (team, false) in
  let acc1 := if guarded_not_in event (event_names (fst acc0))
              then ({| id := id (fst acc0); ingested_event := ingested_event (fst acc0);
                       event_names := (fun l => l ++ [event]) <$> event_names (fst acc0);
                       event_names_with_usage :=
                         event_names_with_usage (fst acc0) ++ [mkWithUsage event None None];
                       event_properties := event_properties (fst acc0);
                       event_properties_with_usage := event_properties_with_usage (fst acc0);
                       event_properties_numerical := event_properties_numerical (fst acc0) |},
                    true)
              else (fst acc0, snd acc0) in
  exists names : list string,
    id (fst acc1) = id team
    /\ ingested_event (fst acc1) = true
    /\ event_names (fst acc1) = (fun l => l ++ names) <$> event_names team
    /\ event_names_with_usage (fst acc1) = event_names_with_usage team ++ (unused <$> names)
    /\ event_properties (fst acc1) = event_properties team
    /\ event_properties_with_usage (fst acc1) = event_properties_with_usage team
    /\ event_properties_numerical (fst acc1) = event_properties_numerical team
    /\ names `sublist_of` [event]
    /\ (snd acc1 = true <-> ingested_event team = false \/ names <> []).
Proof.
  destruct (ingested_event team) eqn:Hi; simpl;
    (destruct (guarded_not_in event (event_names team)); [exists [event]|exists []]);
    simpl; rewrite ?fmap_app_nil, ?app_nil_r;
    repeat (split; [try done|]);
    try (by apply sublist_cons); try (by intros _; right); try (by intros _; left);
    try (by intros [?|?]).
Qed.

Lemma app_same_nil {A} (l x : list A) : l ++ x = l -> x = [].
Proof.
  intros H. apply (app_inv_head l). by rewrite app_nil_r.
Qed.

Lemma storeNamesAndProperties_growth (team : Team) (event : string)
    (properties : list (string * JsVal)) :
  let r := storeNamesAndProperties team event properties in
  exists names ps ns : list string,
    names `sublist_of` [event]
    /\ ps `sublist_of` (fst <$> properties)
    /\ ns `sublist_of` numeric_keys properties
    /\ id (fst r) = id team
    /\ ingested_event (fst r) = true
    /\ event_names (fst r) = (fun l => l ++ names) <$> event_names team
    /\ event_names_with_usage (fst r) = event_names_with_usage team ++ (unused <$> names)
    /\ event_properties (fst r) = (fun l => l ++ ps) <$> event_properties team
    /\ event_properties_with_usage (fst r)
       = event_properties_with_usage team ++ (unused <$> ps)
    /\ event_properties_numerical (fst r)
       = (fun l => l ++ ns) <$> event_properties_numerical team
    /\ (event_properties_numerical team = None -> ns = [])
    /\ (is_Some (snd r)
        <-> ingested_event team = false \/ names <> [] \/ ps <> [] \/ ns <> []).
Proof.
  unfold storeNamesAndProperties.
  destruct (before_loop_growth team event)
    as (names & A1 & A2 & A3 & A4 & A5 & A6 & A7 & A8 & A9).
  match type of A1 with
  | id (fst ?a) = _ => set (acc1 := a) in *
  end.
  destruct (fold_store_property_growth properties acc1)
    as (ps & ns & B1 & B2 & B3 & B4 & B5 & B6 & B7 & B8 & B9 & B10 & B11).
  exists names, ps, ns. simpl in *.
  change (fold_left store_property properties _)
    with (fold_left store_property properties acc1).
  rewrite B1, B2, B3, B4, B5, B6, B7, A1, A2, A3, A4, A5, A6, A7.
  repeat (split; [done|]).
  split; [intros H; apply B10; by rewrite A7|].
  destruct (snd (fold_left store_property properties acc1)) eqn:Hs.
  - split; [intros _|by eexists].
    destruct (proj1 B11 eq_refl) as [H|[H|H]]; [|tauto..].
    apply A9 in H. tauto.
  - split; [by intros [? ?]|].
    intros H. exfalso.
    assert (false = true); [|done].
    apply B11. rewrite A9. tauto.
Qed.

End TeamCacheGrowth.

(** X15.  A call appends and never reorders or removes: the event-name
    list grows by the event or not at all, the property list by keys of
    the event's properties in their order, the numerical list by keys
    whose value is a number; each with-usage list grows by the same
    names as its plain list, with null usage and volume; the id stays
    and [ingested_event] is true afterwards. *)
Theorem storeNamesAndProperties_appends (team : TeamCache.Team) (event : string)
    (properties : list (string * Js.JsVal)) :
  let r := fst (TeamCache.storeNamesAndProperties team event properties) in
  exists names ps ns : list string,
    names `sublist_of` [event]
    /\ ps `sublist_of` (fst <$> properties)
    /\ ns `sublist_of` TeamLists.numeric_keys properties
    /\ TeamCache.id r = TeamCache.id team
    /\ TeamCache.ingested_event r = true
    /\ TeamCache.event_names r = (fun l => l ++ names) <$> TeamCache.event_names team
    /\ TeamCache.event_names_with_usage r
       = TeamCache.event_names_with_usage team ++ (TeamLists.unused <$> names)
    /\ TeamCache.event_properties r
       = (fun l => l ++ ps) <$> TeamCache.event_properties team
    /\ TeamCache.event_properties_with_usage r
       = TeamCache.event_properties_with_usage team ++ (TeamLists.unused <$> ps)
    /\ TeamCache.event_properties_numerical r
       = (fun l => l ++ ns) <$> TeamCache.event_properties_numerical team.
Proof.
  intros r.
  destruct (storeNamesAndProperties_growth team event properties)
    as (names & ps & ns & H1 & H2 & H3 & H4 & H5 & H6 & H7 & H8 & H9 & H10 & _).
  exists names, ps, ns. done.
Qed.

(** X16.  The team row is written exactly when the call changed the
    team object.  The row that is written carries the id, the flag and
    the three plain lists of the team after the call; both with-usage
    columns receive the event-name list. *)
Theorem storeNamesAndProperties_writes_iff_changed (team : TeamCache.Team)
    (event : string) (properties : list (string * Js.JsVal)) :
  let r := TeamCache.storeNamesAndProperties team event properties in
  (snd r = None <-> fst r = team)
  /\ (forall u, snd r = Some u ->
        TeamCache.where_id u = TeamCache.id team
        /\ TeamCache.set_ingested_event u = true
        /\ TeamCache.set_event_names u = TeamCache.event_names (fst r)
        /\ TeamCache.set_event_properties u = TeamCache.event_properties (fst r)
        /\ TeamCache.set_event_properties_numerical u
           = TeamCache.event_properties_numerical (fst r)
        /\ TeamCache.set_event_names_with_usage u
           = TeamCache.event_names_with_usage (fst r)
        /\ TeamCache.set_event_properties_with_usage u
           = TeamCache.event_names_with_usage (fst r)).
Proof.
  intros r.
  destruct (storeNamesAndProperties_growth team event properties)
    as (names & ps & ns & _ & _ & _ & H4 & H5 & H6 & H7 & H8 & H9 & H10 & H11 & H12).
  fold r in H4, H5, H6, H7, H8, H9, H10, H12.
  split; [split|].
  - clearbody r. intros Hnone.
    assert (~ is_Some (snd r)) as Hno by (rewrite Hnone; by intros [? ?]).
    rewrite H12 in Hno.
    destruct (TeamCache.ingested_event team) eqn:Hi; [|tauto].
    destruct names; [|exfalso; apply Hno; right; left; done].
    destruct ps; [|exfalso; apply Hno; right; right; left; done].
    destruct ns; [|exfalso; apply Hno; right; right; right; done].
    simpl in *. rewrite fmap_app_nil in H6, H8, H10. rewrite app_nil_r in H7, H9.
    destruct (fst r), team. simpl in *. congruence.
  - clearbody r. intros Heq. rewrite Heq in H5, H7, H9, H10.
    symmetry in H7, H9. apply app_same_nil, fmap_nil_inv in H7, H9.
    assert (ns = []) as Hns.
    { destruct (TeamCache.event_properties_numerical team) as [l|]; [|by apply H11].
      simpl in H10. injection H10 as H10. symmetry in H10. by apply app_same_nil in H10. }
    destruct (snd r) as [u|] eqn:Hu; [|done]. exfalso.
    assert (is_Some (Some u)) as Hs by (by eexists).
    apply H12 in Hs as [Hs|[Hs|[Hs|Hs]]]; congruence.
  - intros u Hu. unfold r, TeamCache.storeNamesAndProperties in Hu. simpl in Hu.
    match type of Hu with
    | (if ?b then _ else _) = _ => destruct b; [|done]
    end.
    injection Hu as <-. simpl.
    unfold r, TeamCache.storeNamesAndProperties in H4, H5. simpl in H4, H5.
    rewrite H4, H5. done.
Qed.

(** ** Persons and their distinct ids *)

Section PersonFacts.
Import Js Async Db EventsProcessor Persons.

Lemma free_no_row (s : Store) (teamId : Z) (distinctId : string) :
  free s teamId distinctId ->
  existsb (fun row => bool_decide (pdi_team_id row = teamId)
                      && bool_decide (pdi_distinct_id row = distinctId))
    (distinct_ids s) = false.
Proof.
  intros Hfree. destruct (existsb _ _) eqn:He; [|done]. exfalso.
  apply existsb_exists in He as (row & Hin & Hc).
  apply andb_true_iff in Hc as [Ht Hd].
  apply bool_decide_eq_true_1 in Ht. apply bool_decide_eq_true_1 in Hd.
  apply list_elem_of_In in Hin. by apply (Hfree row Hin).
Qed.

Lemma taken_row (s : Store) (teamId : Z) (distinctId : string) (row : PersonDistinctId) :
  row ∈ distinct_ids s -> pdi_team_id row = teamId -> pdi_distinct_id row = distinctId ->
  existsb (fun row => bool_decide (pdi_team_id row = teamId)
                      && bool_decide (pdi_distinct_id row = distinctId))
    (distinct_ids s) = true.
Proof.
  intros Hin Ht Hd. apply existsb_exists. exists row.
  split; [by apply list_elem_of_In|].
  by rewrite !bool_decide_eq_true_2.
Qed.

(** An awaited insert for a free distinct id of a known person. *)
Lemma addDistinctId_free (p : Person) (distinctId : string) (w : World Store Query) :
  schedule w = [] ->
  free (db w) (per_team_id p) distinctId ->
  p ∈ persons (db w) ->
  let r := addDistinctId p distinctId w in
  fst r = Resolved tt
  /\ persons (db (snd r)) = persons (db w)
  /\ distinct_ids (db (snd r))
     = distinct_ids (db w)
       ++ [ {| pdi_id := next_distinct_id_id (db w); pdi_person_id := per_id p;
               pdi_distinct_id := distinctId; pdi_team_id := per_team_id p |} ]
  /\ next_distinct_id_id (db (snd r)) = next_distinct_id_id (db w) + 1
  /\ next_person_id (db (snd r)) = next_person_id (db w)
  /\ unhandled (snd r) = unhandled w
  /\ schedule (snd r) = [].
Proof.
  intros Hq Hfree Hp.
  unfold addDistinctId, bind, await, postgresQuery, insert_distinct_id, send.
  rewrite Hq, (free_no_row _ _ _ Hfree), (person_known _ _ Hp). simpl.
  destruct (kafkaProducer (db w)); simpl; done.
Qed.

(** An awaited insert for a distinct id that has a row is rejected and
    adds no row. *)
Lemma addDistinctId_rejected (p : Person) (distinctId : string) (w : World Store Query)
    (row : PersonDistinctId) :
  schedule w = [] ->
  row ∈ distinct_ids (db w) ->
  pdi_team_id row = per_team_id p -> pdi_distinct_id row = distinctId ->
  let r := addDistinctId p distinctId w in
  fst r = Rejected UniqueViolation
  /\ persons (db (snd r)) = persons (db w)
  /\ distinct_ids (db (snd r)) = distinct_ids (db w)
  /\ unhandled (snd r) = unhandled w.
Proof.
  intros Hq Hin Ht Hd.
  unfold addDistinctId, bind, await, postgresQuery, insert_distinct_id.
  rewrite Hq, (taken_row _ _ _ row Hin Ht Hd). simpl. done.
Qed.

Lemma forM_app {A} (a b : list A) (f : A -> M unit) (w : World Store Query) :
  forM_ (a ++ b) f w = (run! forM_ a f in forM_ b f) w.
Proof.
  revert w. induction a as [|x a IH]; intros w; simpl; [done|].
  unfold bind. destruct (f x w) as [[[]|e] w']; [|done].
  rewrite IH. reflexivity.
Qed.

(** The inserts of a list of free, different distinct ids. *)
Lemma forM_addDistinctId (p : Person) (distinctIds : list string)
    (w : World Store Query) :
  schedule w = [] ->
  p ∈ persons (db w) ->
  NoDup distinctIds ->
  (forall d, d ∈ distinctIds -> free (db w) (per_team_id p) d) ->
  let r := forM_ distinctIds (fun d => await (addDistinctId p d)) w in
  fst r = Resolved tt
  /\ persons (db (snd r)) = persons (db w)
  /\ distinct_ids (db (snd r))
     = distinct_ids (db w)
       ++ new_rows (next_distinct_id_id (db w)) (per_id p) (per_team_id p) distinctIds
  /\ next_person_id (db (snd r)) = next_person_id (db w)
  /\ unhandled (snd r) = unhandled w
  /\ schedule (snd r) = [].
Proof.
  revert w. induction distinctIds as [|d rest IH]; intros w Hq Hp Hnd Hfree.
  - simpl. by rewrite app_nil_r.
  - apply NoDup_cons in Hnd as [Hd Hnd].
    destruct (addDistinctId_free p d w Hq (Hfree d ltac:(left)) Hp)
      as (R1 & R2 & R3 & R4 & R5 & R6 & R7).
    simpl. unfold bind.
    change (await (addDistinctId p d) w) with (addDistinctId p d w).
    destruct (addDistinctId p d w) as [o w1]. simpl in *. subst o.
    destruct (IH w1) as (S1 & S2 & S3 & S4 & S5 & S6); [done|by rewrite R2|done| |].
    + intros d' Hd' row Hrow [Ht Hdid]. rewrite R3 in Hrow.
      apply elem_of_app in Hrow as [Hrow|Hrow].
      * by apply (Hfree d' ltac:(by right) row Hrow).
      * apply list_elem_of_singleton in Hrow. subst row. simpl in Hdid. congruence.
    + rewrite S1, S2, S3, S4, S5, S6, R2, R3, R4, R5, R6.
      by rewrite <- app_assoc.
Qed.

Lemma createPerson_insert (createdAt : Z) (properties : Properties) (teamId : Z)
    (isUserId : option Z) (isIdentified : bool) (uuid : string)
    (w : World Store Query) :
  schedule w = [] ->
  let p := {| per_id := next_person_id (db w); per_uuid := uuid;
              per_team_id := teamId; per_created_at := createdAt;
              per_properties := properties; per_is_user_id := isUserId;
              per_is_identified := isIdentified |} in
  let r := createPerson createdAt properties teamId isUserId isIdentified uuid [] w in
  fst r = Resolved p
  /\ persons (db (snd r)) = persons (db w) ++ [p]
  /\ distinct_ids (db (snd r)) = distinct_ids (db w)
  /\ next_distinct_id_id (db (snd r)) = next_distinct_id_id (db w)
  /\ next_person_id (db (snd r)) = next_person_id (db w) + 1
  /\ unhandled (snd r) = unhandled w
  /\ schedule (snd r) = [].
Proof.
  intros Hq. unfold createPerson, bind, await, postgresQuery, insert_person, send.
  rewrite Hq. simpl. destruct (kafkaProducer (db w)); simpl; done.
Qed.

(** [createPerson] is the insert of the person followed by the inserts
    of the distinct ids. *)
Lemma createPerson_split (createdAt : Z) (properties : Properties) (teamId : Z)
    (isUserId : option Z) (isIdentified : bool) (uuid : string)
    (distinctIds : list string) (w : World Store Query) :
  createPerson createdAt properties teamId isUserId isIdentified uuid distinctIds w
  = (let! personCreated :=
       createPerson createdAt properties teamId isUserId isIdentified uuid [] in
     run! forM_ distinctIds (fun d => await (addDistinctId personCreated d)) in
     ret personCreated) w.
Proof.
  unfold createPerson, bind, await, ret. simpl.
  destruct (postgresQuery _ _ w) as [[p|e] w1]; done.
Qed.

Lemma new_rows_spec (first personId teamId : Z) (distinctIds : list string) :
  pdi_distinct_id <$> new_rows first personId teamId distinctIds = distinctIds
  /\ Forall (fun row => first <= pdi_id row /\ pdi_person_id row = personId
                        /\ pdi_team_id row = teamId)
       (new_rows first personId teamId distinctIds)
  /\ StronglySorted (fun a b => pdi_id a <= pdi_id b)
       (new_rows first personId teamId distinctIds).
Proof.
  revert first. induction distinctIds as [|d rest IH]; intros first; simpl.
  - repeat constructor.
  - destruct (IH (first + 1)) as (H1 & H2 & H3).
    split; [f_equal; exact H1|]. split.
    + constructor; [simpl; lia|].
      eapply Forall_impl; [exact H2|]. simpl. intros row (? & ? & ?). lia.
    + constructor; [done|].
      eapply Forall_impl; [exact H2|]. simpl. intros row (? & ? & ?). lia.
Qed.

Lemma array_sort_sorted_id {A} (key : A -> Z) (l : list A) :
  StronglySorted (fun a b => key a <= key b) l ->
  array_sort (compare_by key) l = l.
Proof.
  induction 1 as [|x l Hl IH Hx]; [done|].
  unfold array_sort in *. simpl. rewrite IH.
  destruct l as [|y r]; [done|]. simpl.
  apply Forall_cons in Hx as [Hxy _].
  unfold compare_by. destruct (Z.leb_spec (key x - key y) 0); [done|lia].
Qed.

Lemma bind_all_nil {A B} (f : A -> list B) (l : list A) :
  (forall x, x ∈ l -> f x = []) -> l ≫= f = [].
Proof.
  induction l as [|x l IH]; intros H; [done|].
  change ((x :: l) ≫= f) with (f x ++ (l ≫= f)).
  rewrite (H x) by left. simpl. apply IH. intros y Hy. apply H. by right.
Qed.

(** A person that has just been inserted, with rows that have just been
    inserted for it, is what each of its distinct ids resolves to. *)
Lemma select_person_new (s s' : Store) (p : Person) (rows : list PersonDistinctId)
    (distinctId : string) :
  persons s' = persons s ++ [p] ->
  distinct_ids s' = distinct_ids s ++ rows ->
  (forall q, q ∈ persons s -> per_id q <> per_id p) ->
  free s (per_team_id p) distinctId ->
  Forall (fun row => pdi_person_id row = per_id p /\ pdi_team_id row = per_team_id p) rows ->
  distinctId ∈ pdi_distinct_id <$> rows ->
  select_person s' (per_team_id p) distinctId <> []
  /\ forall q, q ∈ select_person s' (per_team_id p) distinctId -> q = p.
Proof.
  intros Hp Hr Hids Hfree Hrows Hin.
  assert (Hall : forall q, q ∈ select_person s' (per_team_id p) distinctId -> q = p).
  { intros q Hq. unfold select_person in Hq.
    apply list_elem_of_bind in Hq as (q' & Hq & Hq').
    apply list_elem_of_bind in Hq as (row & Hq & Hrow).
    destruct (_ && _) eqn:Hc; [|by apply elem_of_nil in Hq].
    apply list_elem_of_singleton in Hq as ->.
    repeat (apply andb_true_iff in Hc as [Hc ?]).
    repeat match goal with
           | H : bool_decide _ = true |- _ => apply bool_decide_eq_true_1 in H
           end.
    rewrite Hp in Hq'. apply elem_of_app in Hq' as [Hq'|Hq'];
      [|by apply list_elem_of_singleton in Hq'].
    exfalso. rewrite Hr in Hrow. apply elem_of_app in Hrow as [Hrow|Hrow].
    - by apply (Hfree row Hrow).
    - eapply Forall_forall in Hrows as [Hpid _]; [|exact Hrow].
      apply (Hids q' Hq'). congruence. }
  split; [|exact Hall].
  apply list_elem_of_fmap in Hin as (row & Hd & Hrow).
  eapply Forall_forall in Hrows as [Hpid Hteam]; [|exact Hrow].
  assert (p ∈ select_person s' (per_team_id p) distinctId) as Hsel.
  { unfold select_person.
    apply list_elem_of_bind. exists p. split; [|rewrite Hp; apply elem_of_app; right; left].
    apply list_elem_of_bind. exists row.
    split; [|rewrite Hr; apply elem_of_app; by right].
    rewrite !bool_decide_eq_true_2 by done. simpl. left. }
  intros Hnil. rewrite Hnil in Hsel. by apply elem_of_nil in Hsel.
Qed.

Lemma filter_none {A} (P : A -> Prop) `{!forall x, Decision (P x)} (l : list A) :
  (forall x, x ∈ l -> ~ P x) -> filter P l = [].
Proof.
  induction l as [|x l IH]; intros Hno; [done|].
  rewrite filter_cons_False by (apply Hno; left).
  apply IH. intros y Hy. apply Hno. by right.
Qed.

Lemma filter_all {A} (P : A -> Prop) `{!forall x, Decision (P x)} (l : list A) :
  Forall P l -> filter P l = l.
Proof.
  induction 1 as [|x l Hx Hl IH]; [done|].
  rewrite filter_cons_True by done. by rewrite IH.
Qed.

Lemma head_all_same {A} (l : list A) (x : A) :
  l <> [] -> (forall y, y ∈ l -> y = x) -> head l = Some x.
Proof.
  destruct l as [|y l]; [done|]. intros _ H. simpl. f_equal. apply H. left.
Qed.

(** With sound references and serials, no row points to the next person id. *)
Lemma next_person_unreferenced (s : Store) :
  references_ok s -> serials_ok s ->
  (forall q, q ∈ persons s -> per_id q <> next_person_id s)
  /\ (forall row, row ∈ distinct_ids s -> pdi_person_id row <> next_person_id s).
Proof.
  intros Href [Hser _]. split.
  - intros q Hq. specialize (Hser q Hq). lia.
  - intros row Hrow. destruct (Href row Hrow) as (q & Hq & Hid & _).
    specialize (Hser q Hq). lia.
Qed.

Lemma bind_resolved {A B} (m : M A) (k : A -> M B) (w w' : World Store Query) (a : A) :
  m w = (Resolved a, w') -> bind m k w = k a w'.
Proof. intros H. unfold bind. by rewrite H. Qed.

Lemma bind_rejected {A B} (m : M A) (k : A -> M B) (w w' : World Store Query) (e : Err) :
  m w = (Rejected e, w') -> bind m k w = (Rejected e, w').
Proof. intros H. unfold bind. by rewrite H. Qed.

(** [createPerson] with a list of free, different distinct ids. *)
Lemma createPerson_with_ids (createdAt : Z) (properties : Properties) (teamId : Z)
    (isUserId : option Z) (isIdentified : bool) (uuid : string)
    (distinctIds : list string) (w : World Store Query) :
  schedule w = [] ->
  NoDup distinctIds ->
  (forall d, d ∈ distinctIds -> free (db w) teamId d) ->
  let p := mkPerson (next_person_id (db w)) uuid teamId createdAt properties
             isUserId isIdentified in
  exists w',
    createPerson createdAt properties teamId isUserId isIdentified uuid distinctIds w
    = (Resolved p, w')
    /\ persons (db w') = persons (db w) ++ [p]
    /\ distinct_ids (db w')
       = distinct_ids (db w)
         ++ new_rows (next_distinct_id_id (db w)) (next_person_id (db w)) teamId
              distinctIds
    /\ unhandled w' = unhandled w
    /\ schedule w' = [].
Proof.
  intros Hq Hnd Hfree p.
  destruct (createPerson_insert createdAt properties teamId isUserId isIdentified uuid w Hq)
    as (C1 & C2 & C3 & C4 & C5 & C6 & C7).
  fold p in C1, C2.
  rewrite createPerson_split.
  destruct (createPerson _ _ _ _ _ _ [] w) as [o w1] eqn:E1. simpl in *. subst o.
  rewrite (bind_resolved _ _ _ _ _ E1).
  destruct (forM_addDistinctId p distinctIds w1) as (F1 & F2 & F3 & F4 & F5 & F6);
    [done|rewrite C2; apply elem_of_app; right; left|done| |].
  { intros d Hd row Hrow. rewrite C3 in Hrow. by apply (Hfree d Hd row Hrow). }
  destruct (forM_ _ _ w1) as [o w2] eqn:E2. simpl in *. subst o.
  rewrite (bind_resolved _ _ _ _ _ E2).
  exists w2. unfold ret. rewrite F2, F3, F5, F6, C2, C3, C4, C6. done.
Qed.

End PersonFacts.

(** X17.  Round trip through the two tables, without concurrent writers
    and on a store with sound references and serials: a person created
    with a list of different distinct ids that are free in the team has,
    by [fetchDistinctIdValues], exactly that list in that order, and
    every one of the ids resolves to the person. *)
Theorem createPerson_fetchDistinctIdValues (createdAt : Z) (properties : Js.Properties)
    (teamId : Z) (isUserId : option Z) (isIdentified : bool) (uuid : string)
    (distinctIds : list string) (w : Async.World Db.Store Db.Query)
    (Hq : Async.schedule w = [])
    (Href : EventsProcessor.references_ok (Async.db w))
    (Hser : Persons.serials_ok (Async.db w))
    (Hnd : NoDup distinctIds)
    (Hfree : forall d, d ∈ distinctIds -> Persons.free (Async.db w) teamId d) :
  let person :=
    Db.mkPerson (Db.next_person_id (Async.db w)) uuid teamId createdAt properties
      isUserId isIdentified in
  let r := (let! personCreated :=
              Db.createPerson createdAt properties teamId isUserId isIdentified uuid
                distinctIds in
            let! values := Persons.fetchDistinctIdValues personCreated in
            Async.ret (personCreated, values)) w in
  fst r = Async.Resolved (person, distinctIds)
  /\ forall d, d ∈ distinctIds ->
       head (Db.select_person (Async.db (snd r)) teamId d) = Some person.
Proof.
  intros person r.
  destruct (createPerson_with_ids createdAt properties teamId isUserId isIdentified uuid
              distinctIds w Hq Hnd Hfree) as (w' & Hc & P & D & _ & S).
  fold person in Hc, P.
  unfold r. rewrite (bind_resolved _ _ _ _ _ Hc).
  unfold Async.ret, Async.bind, Persons.fetchDistinctIdValues, Async.postgresQuery.
  rewrite S. simpl.
  destruct (new_rows_spec (Db.next_distinct_id_id (Async.db w))
              (Db.next_person_id (Async.db w)) teamId distinctIds) as (N1 & N2 & N3).
  destruct (next_person_unreferenced _ Href Hser) as [Hpers Hrows].
  assert (Forall (fun row => Db.pdi_person_id row = Db.next_person_id (Async.db w)
                             /\ Db.pdi_team_id row = teamId)
            (Persons.new_rows (Db.next_distinct_id_id (Async.db w))
               (Db.next_person_id (Async.db w)) teamId distinctIds)) as N2'.
  { eapply Forall_impl; [exact N2|]. simpl. intros row (_ & ? & ?). done. }
  split.
  - f_equal. f_equal. rewrite D, filter_app.
    rewrite (filter_none _ (Db.distinct_ids (Async.db w)))
      by (intros row Hrow [Hp _]; by apply (Hrows row Hrow)).
    simpl. rewrite filter_all by exact N2'.
    by rewrite array_sort_sorted_id.
  - intros d Hd.
    destruct (select_person_new (Async.db w) (Async.db w') person
                (Persons.new_rows (Db.next_distinct_id_id (Async.db w))
                   (Db.next_person_id (Async.db w)) teamId distinctIds) d)
      as [Hne Hall]; try done.
    + by apply Hfree.
    + by rewrite N1.
    + by apply head_all_same.
Qed.

Lemma createPerson_fetchDistinctIdValues_witness :
  fst ((let! personCreated :=
          Db.createPerson 500 ∅ 2 None false "uuid-c" ["c"; "d"] in
        let! values := Persons.fetchDistinctIdValues personCreated in
        Async.ret (personCreated, values))
         (IdentityExamples.calm IdentityExamples.store_ab))
  = Async.Resolved (Db.mkPerson 3 "uuid-c" 2 500 ∅ None false, ["c"; "d"]).
Proof.
  refine (proj1 (createPerson_fetchDistinctIdValues 500 ∅ 2 None false "uuid-c"
                   ["c"; "d"] (IdentityExamples.calm IdentityExamples.store_ab)
                   eq_refl _ _ _ _)).
  - intros row Hrow. vm_compute in Hrow.
    apply elem_of_cons in Hrow as [->|Hrow];
      [exists IdentityExamples.personA; split; [left|done]|].
    apply elem_of_cons in Hrow as [->|Hrow];
      [exists IdentityExamples.personB; split; [right; left|done]|].
    by apply elem_of_nil in Hrow.
  - split.
    + intros q Hq. vm_compute in Hq.
      repeat (apply elem_of_cons in Hq as [->|Hq]; [by vm_compute|]).
      by apply elem_of_nil in Hq.
    + intros row Hrow. vm_compute in Hrow.
      repeat (apply elem_of_cons in Hrow as [->|Hrow]; [by vm_compute|]).
      by apply elem_of_nil in Hrow.
  - apply (bool_decide_unpack (NoDup ["c"; "d"])). vm_compute. exact I.
  - intros d Hd row Hrow [_ Hdid]. vm_compute in Hrow.
    repeat (apply elem_of_cons in Hd as [->|Hd];
            [repeat (apply elem_of_cons in Hrow as [->|Hrow]; [discriminate Hdid|]);
             by apply elem_of_nil in Hrow|]).
    by apply elem_of_nil in Hd.
Defined.

(** X18.  [createPerson] is not undone when one of its distinct ids is
    taken: the call is rejected with the unique violation of that id,
    and the person and the rows of the ids before it stay in the store;
    the ids after it are never tried. *)
Theorem createPerson_taken_id_keeps_person (createdAt : Z) (properties : Js.Properties)
    (teamId : Z) (isUserId : option Z) (isIdentified : bool) (uuid : string)
    (before after : list string) (taken : string) (row : Db.PersonDistinctId)
    (w : Async.World Db.Store Db.Query)
    (Hq : Async.schedule w = [])
    (Hnd : NoDup before)
    (Hfree : forall d, d ∈ before -> Persons.free (Async.db w) teamId d)
    (Hrow : row ∈ Db.distinct_ids (Async.db w))
    (Hteam : Db.pdi_team_id row = teamId)
    (Htaken : Db.pdi_distinct_id row = taken) :
  let person :=
    Db.mkPerson (Db.next_person_id (Async.db w)) uuid teamId createdAt properties
      isUserId isIdentified in
  let r := Db.createPerson createdAt properties teamId isUserId isIdentified uuid
             (before ++ taken :: after) w in
  fst r = Async.Rejected Async.UniqueViolation
  /\ Db.persons (Async.db (snd r)) = Db.persons (Async.db w) ++ [person]
  /\ Db.distinct_ids (Async.db (snd r))
     = Db.distinct_ids (Async.db w)
       ++ Persons.new_rows (Db.next_distinct_id_id (Async.db w))
            (Db.next_person_id (Async.db w)) teamId before.
Proof.
  intros person r.
  destruct (createPerson_insert createdAt properties teamId isUserId isIdentified uuid w Hq)
    as (C1 & C2 & C3 & C4 & C5 & C6 & C7).
  fold person in C1, C2.
  unfold r. rewrite createPerson_split.
  destruct (Db.createPerson _ _ _ _ _ _ [] w) as [o w1] eqn:E1. simpl in *. subst o.
  rewrite (bind_resolved _ _ _ _ _ E1).
  destruct (forM_addDistinctId person before w1) as (F1 & F2 & F3 & F4 & F5 & F6);
    [done|rewrite C2; apply elem_of_app; right; left|done| |].
  { intros d Hd row' Hrow'. rewrite C3 in Hrow'. by apply (Hfree d Hd row' Hrow'). }
  destruct (Db.forM_ before _ w1) as [o w2] eqn:E2. simpl in *. subst o.
  destruct (addDistinctId_rejected person taken w2 row) as (R1 & R2 & R3 & R4);
    [done|rewrite F3, C3; apply elem_of_app; by left|done|done|].
  destruct (Db.addDistinctId person taken w2) as [o w3] eqn:E3. simpl in *. subst o.
  assert (Db.forM_ (before ++ taken :: after)
            (fun d => Async.await (Db.addDistinctId person d)) w1
          = (Async.Rejected Async.UniqueViolation, w3)) as E4.
  { rewrite forM_app. rewrite (bind_resolved _ _ _ _ _ E2). simpl.
    apply bind_rejected. exact E3. }
  rewrite (bind_rejected _ _ _ _ _ E4). simpl.
  by rewrite R2, R3, F2, F3, C2, C3, C4.
Qed.

Lemma createPerson_taken_id_keeps_person_witness :
  let r := Db.createPerson 500 ∅ 2 None false "uuid-c" ["c"; "a"; "d"]
             (IdentityExamples.calm IdentityExamples.store_ab) in
  fst r = Async.Rejected Async.UniqueViolation
  /\ Db.persons (Async.db (snd r))
     = [IdentityExamples.personA; IdentityExamples.personB;
        Db.mkPerson 3 "uuid-c" 2 500 ∅ None false]
  /\ Db.distinct_ids (Async.db (snd r))
     = [IdentityExamples.rowA; IdentityExamples.rowB; Db.mkPersonDistinctId 3 3 "c" 2].
Proof.
  refine (createPerson_taken_id_keeps_person 500 ∅ 2 None false "uuid-c" ["c"] ["d"] "a"
            IdentityExamples.rowA (IdentityExamples.calm IdentityExamples.store_ab)
            eq_refl _ _ _ eq_refl eq_refl).
  - apply (bool_decide_unpack (NoDup ["c"])). vm_compute. exact I.
  - intros d Hd row Hrow [_ Hdid]. vm_compute in Hrow.
    apply list_elem_of_singleton in Hd as ->.
    repeat (apply elem_of_cons in Hrow as [->|Hrow]; [discriminate Hdid|]).
    by apply elem_of_nil in Hrow.
  - left.
Defined.

Section IdentifyFacts.
Import Js Async Db EventsProcessor Persons.

Lemma no_row_free (s : Store) (teamId : Z) (distinctId : string) :
  existsb (fun row => bool_decide (pdi_team_id row = teamId)
                      && bool_decide (pdi_distinct_id row = distinctId))
    (distinct_ids s) = false ->
  free s teamId distinctId.
Proof.
  intros H row Hrow [Ht Hd].
  rewrite (taken_row s teamId distinctId row Hrow Ht Hd) in H. discriminate H.
Qed.

(** A change of the persons that keeps ids and teams does not change who
    a distinct id resolves to. *)
Lemma select_person_fmap (s s' : Store) (f : Person -> Person) (teamId : Z)
    (distinctId : string) :
  persons s' = f <$> persons s ->
  distinct_ids s' = distinct_ids s ->
  (forall q, per_id (f q) = per_id q /\ per_team_id (f q) = per_team_id q) ->
  select_person s' teamId distinctId = f <$> select_person s teamId distinctId.
Proof.
  intros Hp Hr Hf. unfold select_person. rewrite Hp, Hr.
  generalize (persons s) as l. intros l.
  induction l as [|q l IH]; [done|].
  rewrite fmap_cons.
  change ((f q :: (f <$> l)) ≫= ?g) with (g (f q) ++ ((f <$> l) ≫= g)).
  change ((q :: l) ≫= ?g) with (g q ++ (l ≫= g)).
  rewrite fmap_app, IH. f_equal.
  destruct (Hf q) as [-> ->].
  generalize (distinct_ids s) as rows. intros rows.
  induction rows as [|row rows IHr]; [done|].
  change ((row :: rows) ≫= ?g) with (g row ++ (rows ≫= g)).
  rewrite fmap_app, IHr. f_equal.
  by destruct (_ && _).
Qed.

End IdentifyFacts.

(** X19.  Without concurrent writers, on a store with sound references and
    serials, [setIsIdentified] ends with the distinct id resolving to a
    person that is identified.  A person that was found is flagged in
    place and nobody is created; if it was already identified the store
    is not written at all.  When nobody was found, one person is
    created, already identified, and the distinct id is attached to it. *)
Theorem setIsIdentified_identifies (fresh : EventsProcessor.Fresh) (teamId : Z)
    (distinctId : string) (w : Async.World Db.Store Db.Query)
    (Hq : Async.schedule w = [])
    (Href : EventsProcessor.references_ok (Async.db w))
    (Hser : Persons.serials_ok (Async.db w)) :
  let s := Async.db w in
  let r := Persons.setIsIdentified fresh teamId distinctId true w in
  let s' := Async.db (snd r) in
  fst r = Async.Resolved tt
  /\ (exists p, head (Db.select_person s' teamId distinctId) = Some p
        /\ Db.per_is_identified p = true)
  /\ (forall found, head (Db.select_person s teamId distinctId) = Some found ->
        Db.per_id <$> Db.persons s' = Db.per_id <$> Db.persons s
        /\ Db.distinct_ids s' = Db.distinct_ids s
        /\ (Db.per_is_identified found = true -> s' = s))
  /\ (head (Db.select_person s teamId distinctId) = None ->
        Db.persons s'
        = Db.persons s
          ++ [Db.mkPerson (Db.next_person_id s) (EventsProcessor.new_uuid fresh) teamId
                (EventsProcessor.utc_now fresh) ∅ None true]).
Proof.
  intros s r s'.
  destruct (head (Db.select_person s teamId distinctId)) as [found|] eqn:Hfound.
  - assert (Hr : r = Persons.setIsIdentified fresh teamId distinctId true w) by done.
    unfold Persons.setIsIdentified, Async.bind, Async.await, Db.fetchPerson,
      Async.postgresQuery, Async.ret in Hr.
    rewrite Hq in Hr. simpl in Hr. fold s in Hr. rewrite Hfound in Hr.
    destruct (Db.per_is_identified found) eqn:Hid; simpl in Hr.
    + unfold s'. rewrite Hr. simpl.
      split; [done|]. split; [by exists found|]. split; [done|]. done.
    + set (f := fun p => if bool_decide (Db.per_id p = Db.per_id found)
                         then Db.with_update p (Db.mkPersonUpdate None None (Some true))
                         else p).
      assert (Hp : Db.persons s' = f <$> Db.persons s
                   /\ Db.distinct_ids s' = Db.distinct_ids s /\ fst r = Async.Resolved tt).
      { unfold s'. rewrite Hr. unfold Db.updatePerson, Async.bind, Async.await,
          Async.postgresQuery, Db.send, Async.ret. simpl.
        destruct (Db.kafkaProducer s); simpl; done. }
      destruct Hp as (Hp & Hd & Hres).
      assert (Hf : forall q, Db.per_id (f q) = Db.per_id q
                             /\ Db.per_team_id (f q) = Db.per_team_id q).
      { intros q. unfold f. by destruct (bool_decide _). }
      pose proof (select_person_fmap s s' f teamId distinctId Hp Hd Hf) as Hsel.
      split; [done|]. split; [|split; [|done]].
      * exists (f found). rewrite Hsel.
        destruct (Db.select_person s teamId distinctId) as [|x l]; [done|].
        simpl in Hfound. injection Hfound as ->. split; [done|].
        unfold f. by rewrite bool_decide_eq_true_2.
      * intros found' [= <-]. split; [|split; [done|by rewrite Hid]].
        rewrite Hp, <- list_fmap_compose. apply list_fmap_ext.
        intros i q _. simpl. apply Hf.
  - pose proof (no_person_no_row s teamId distinctId Href Hfound) as Hnorow.
    set (p := Db.mkPerson (Db.next_person_id s) (EventsProcessor.new_uuid fresh) teamId
                (EventsProcessor.utc_now fresh) ∅ None true).
    set (w0 := {| Async.db := s;
                  Async.queries := Async.queries w ++ [Db.QSelectPerson teamId distinctId];
                  Async.unhandled := Async.unhandled w; Async.schedule := [] |}).
    destruct (createPerson_insert (EventsProcessor.utc_now fresh) ∅ teamId None true
                (EventsProcessor.new_uuid fresh) w0 eq_refl)
      as (C1 & C2 & C3 & C4 & C5 & C6 & C7).
    destruct (Db.createPerson _ _ _ _ _ _ [] w0) as [o w1] eqn:E1.
    simpl in C1, C2, C3, C4, C5, C6, C7. fold p in C1, C2. subst o.
    destruct (addDistinctId_quiet p distinctId w1) as (A1 & A2 & A3 & A4 & A5);
      [done|by rewrite C3|rewrite C2; apply elem_of_app; right; left|].
    destruct (Async.fire (Db.addDistinctId p distinctId) w1) as [o w2] eqn:E2.
    simpl in *. subst o.
    assert (Hr : r = (Async.Resolved tt, w2)).
    { unfold r, Persons.setIsIdentified, Async.bind at 1, Async.await, Db.fetchPerson,
        Async.postgresQuery.
      rewrite Hq. simpl. fold s. rewrite Hfound. fold w0.
      unfold Async.bind at 1, Async.try_catch.
      rewrite (bind_resolved _ _ _ _ _ E1).
      rewrite (bind_resolved _ _ _ _ _ E2). reflexivity. }
    unfold s'. rewrite Hr. simpl.
    split; [done|]. split; [|split; [done|by rewrite A2, C2]].
    exists p. split; [|done].
    destruct (next_person_unreferenced s Href Hser) as [Hpers _].
    destruct (select_person_new s (Async.db w2) p
                [ {| Db.pdi_id := Db.next_distinct_id_id (Async.db w1);
                     Db.pdi_person_id := Db.per_id p;
                     Db.pdi_distinct_id := distinctId;
                     Db.pdi_team_id := Db.per_team_id p |} ] distinctId)
      as [Hne Hall].
    + by rewrite A2, C2.
    + by rewrite A3, C3.
    + exact Hpers.
    + by apply no_row_free.
    + by repeat constructor.
    + simpl. left.
    + by apply head_all_same.
Qed.

Lemma setIsIdentified_identifies_witness :
  exists p,
    head (Db.select_person
            (Async.db (snd (Persons.setIsIdentified IdentityExamples.fresh1 2 "a" true
                              (IdentityExamples.calm IdentityExamples.store_ab)))) 2 "a")
    = Some p
    /\ Db.per_is_identified p = true.
Proof.
  refine (proj1 (proj2 (setIsIdentified_identifies IdentityExamples.fresh1 2 "a"
                          (IdentityExamples.calm IdentityExamples.store_ab) eq_refl _ _))).
  - intros row Hrow. vm_compute in Hrow.
    apply elem_of_cons in Hrow as [->|Hrow];
      [exists IdentityExamples.personA; split; [left|done]|].
    apply elem_of_cons in Hrow as [->|Hrow];
      [exists IdentityExamples.personB; split; [right; left|done]|].
    by apply elem_of_nil in Hrow.
  - split.
    + intros q Hq. vm_compute in Hq.
      repeat (apply elem_of_cons in Hq as [->|Hq]; [by vm_compute|]).
      by apply elem_of_nil in Hq.
    + intros row Hrow. vm_compute in Hrow.
      repeat (apply elem_of_cons in Hrow as [->|Hrow]; [by vm_compute|]).
      by apply elem_of_nil in Hrow.
Defined.

Section DeleteFacts.
Import Js Async Db EventsProcessor Persons.

(** The rows a person joins with hold that person only. *)
Lemma joined_rows (q : Person) (teamId : Z) (distinctId : string)
    (rows : list PersonDistinctId) (x : Person) :
  x ∈ (rows ≫= fun row =>
         if bool_decide (pdi_person_id row = per_id q)
            && bool_decide (per_team_id q = teamId)
            && bool_decide (pdi_team_id row = teamId)
            && bool_decide (pdi_distinct_id row = distinctId)
         then [q] else []) ->
  x = q.
Proof.
  intros H. apply list_elem_of_bind in H as (row & H & _).
  destruct (_ && _); [|by apply elem_of_nil in H].
  by apply list_elem_of_singleton in H.
Qed.

(** Rows of another person do not take part in the join of a person. *)
Lemma joined_rows_filter (q : Person) (personId teamId : Z) (distinctId : string)
    (rows : list PersonDistinctId) :
  per_id q <> personId ->
  (filter (fun row => pdi_person_id row <> personId) rows ≫= fun row =>
     if bool_decide (pdi_person_id row = per_id q)
        && bool_decide (per_team_id q = teamId)
        && bool_decide (pdi_team_id row = teamId)
        && bool_decide (pdi_distinct_id row = distinctId)
     then [q] else [])
  = (rows ≫= fun row =>
       if bool_decide (pdi_person_id row = per_id q)
          && bool_decide (per_team_id q = teamId)
          && bool_decide (pdi_team_id row = teamId)
          && bool_decide (pdi_distinct_id row = distinctId)
       then [q] else []).
Proof.
  intros Hq. induction rows as [|row rows IH]; [done|].
  rewrite filter_cons.
  change ((row :: rows) ≫= ?g) with (g row ++ (rows ≫= g)).
  destruct (decide (pdi_person_id row <> personId)) as [Hd|Hd].
  - change ((row :: ?l) ≫= ?g) with (g row ++ (l ≫= g)). by rewrite IH.
  - rewrite IH. rewrite (bool_decide_eq_false_2 (pdi_person_id row = per_id q)); [done|].
    intros He. apply Hd. congruence.
Qed.

Lemma select_person_filter (s s' : Store) (personId teamId : Z) (distinctId : string) :
  persons s' = filter (fun p => per_id p <> personId) (persons s) ->
  distinct_ids s' = filter (fun row => pdi_person_id row <> personId) (distinct_ids s) ->
  select_person s' teamId distinctId
  = filter (fun p => per_id p <> personId) (select_person s teamId distinctId).
Proof.
  intros Hp Hr. unfold select_person. rewrite Hp, Hr.
  generalize (persons s) as l. intros l.
  induction l as [|q l IH]; [done|].
  rewrite filter_cons.
  change ((q :: l) ≫= ?g) with (g q ++ (l ≫= g)).
  rewrite filter_app.
  destruct (decide (per_id q <> personId)) as [Hd|Hd].
  - change ((q :: ?k) ≫= ?g) with (g q ++ (k ≫= g)).
    rewrite IH, joined_rows_filter by done. f_equal.
    symmetry. apply filter_all. apply Forall_forall. intros x Hx.
    by rewrite (joined_rows _ _ _ _ _ Hx).
  - rewrite IH.
    rewrite (filter_none _ (distinct_ids s ≫= _)); [done|].
    intros x Hx. by rewrite (joined_rows _ _ _ _ _ Hx).
Qed.

(** A person joins with no row once the rows that point to it are gone. *)
Lemma joined_rows_none (q : Person) (personId teamId : Z) (distinctId : string)
    (rows : list PersonDistinctId) :
  per_id q = personId ->
  (filter (fun row => pdi_person_id row <> personId) rows ≫= fun row =>
     if bool_decide (pdi_person_id row = per_id q)
        && bool_decide (per_team_id q = teamId)
        && bool_decide (pdi_team_id row = teamId)
        && bool_decide (pdi_distinct_id row = distinctId)
     then [q] else [])
  = [].
Proof.
  intros Hq. induction rows as [|row rows IH]; [done|].
  rewrite filter_cons.
  destruct (decide (pdi_person_id row <> personId)) as [Hd|Hd]; [|done].
  change ((row :: ?l) ≫= ?g) with (g row ++ (l ≫= g)). rewrite IH.
  rewrite (bool_decide_eq_false_2 (pdi_person_id row = per_id q)); [done|].
  congruence.
Qed.

(** The same resolutions come of removing the rows of the person only. *)
Lemma select_person_rows_filter (s s' : Store) (personId teamId : Z)
    (distinctId : string) :
  persons s' = persons s ->
  distinct_ids s' = filter (fun row => pdi_person_id row <> personId) (distinct_ids s) ->
  select_person s' teamId distinctId
  = filter (fun p => per_id p <> personId) (select_person s teamId distinctId).
Proof.
  intros Hp Hr. unfold select_person. rewrite Hp, Hr.
  generalize (persons s) as l. intros l.
  induction l as [|q l IH]; [done|].
  change ((q :: ?k) ≫= ?g) with (g q ++ (k ≫= g)).
  rewrite filter_app, IH. f_equal.
  destruct (decide (per_id q = personId)) as [Hd|Hd].
  - rewrite joined_rows_none by done.
    symmetry. apply filter_none.
    intros x Hx. rewrite (joined_rows _ _ _ _ _ Hx). by intros ?.
  - rewrite joined_rows_filter by done.
    symmetry. apply filter_all. apply Forall_forall. intros x Hx.
    by rewrite (joined_rows _ _ _ _ _ Hx).
Qed.

(** What the two statements of [deletePerson] do, without concurrent
    writers: the rows of the person go; then the person goes, unless a
    cohort holds it, in which case the second statement is rejected and
    the person stays. *)
Lemma deletePerson_steps (personId : Z) (w : World Store Query) :
  schedule w = [] ->
  let r := deletePerson personId w in
  let s' := db (snd r) in
  distinct_ids s'
  = filter (fun row => pdi_person_id row <> personId) (distinct_ids (db w))
  /\ ((forall c, c ∈ cohort_people (db w) -> cp_person_id c <> personId) ->
      fst r = Resolved tt
      /\ persons s' = filter (fun p => per_id p <> personId) (persons (db w)))
  /\ (forall c, c ∈ cohort_people (db w) -> cp_person_id c = personId ->
      fst r = Rejected ForeignKeyViolation
      /\ persons s' = persons (db w)).
Proof.
  intros Hq r s'.
  unfold s', r, deletePerson, bind, await, postgresQuery, delete_person_row.
  rewrite Hq. simpl.
  destruct (existsb _ (cohort_people (db w))) eqn:Hex; simpl.
  - split; [done|]. split; [|done].
    intros Hno. exfalso. apply existsb_exists in Hex as (c & Hc & Hid).
    apply bool_decide_eq_true in Hid.
    apply (Hno c); [by apply list_elem_of_In|done].
  - split; [done|]. split; [done|].
    intros c Hc Hid. exfalso.
    assert (existsb (fun c => bool_decide (cp_person_id c = personId))
              (cohort_people (db w)) = true) as Ht.
    { apply existsb_exists. exists c. split; [by apply list_elem_of_In|].
      by apply bool_decide_eq_true. }
    congruence.
Qed.

End DeleteFacts.

(** X20.  Without concurrent writers, [deletePerson] removes the person
    from every resolution and touches no other: each distinct id
    resolves to what it resolved to before, without the person; no row
    is left that points to the person, and sound references stay sound.
    The call resolves, with the person gone, when no cohort holds the
    person.  When one does, the second [DELETE] is rejected for the
    foreign key of the cohort table: the call is rejected and the person
    stays, while its distinct ids are gone all the same. *)
Theorem deletePerson_unresolves (personId : Z) (w : Async.World Db.Store Db.Query)
    (Hq : Async.schedule w = []) :
  let r := Db.deletePerson personId w in
  let s' := Async.db (snd r) in
  (forall teamId distinctId,
        Db.select_person s' teamId distinctId
        = filter (fun p => Db.per_id p <> personId)
            (Db.select_person (Async.db w) teamId distinctId))
  /\ (forall row, row ∈ Db.distinct_ids s' -> Db.pdi_person_id row <> personId)
  /\ (EventsProcessor.references_ok (Async.db w) -> EventsProcessor.references_ok s')
  /\ ((forall c, c ∈ Db.cohort_people (Async.db w) -> Db.cp_person_id c <> personId) ->
      fst r = Async.Resolved tt
      /\ Db.persons s'
         = filter (fun p => Db.per_id p <> personId) (Db.persons (Async.db w)))
  /\ (forall c, c ∈ Db.cohort_people (Async.db w) -> Db.cp_person_id c = personId ->
      fst r = Async.Rejected Async.ForeignKeyViolation
      /\ Db.persons s' = Db.persons (Async.db w)
      /\ Db.distinct_ids s'
         = filter (fun row => Db.pdi_person_id row <> personId)
             (Db.distinct_ids (Async.db w))).
Proof.
  intros r s'.
  destruct (deletePerson_steps personId w Hq) as (Hd & Hfree & Hheld).
  fold r in Hd, Hfree, Hheld. fold s' in Hd, Hfree, Hheld.
  assert (Hp : Db.persons s' = filter (fun p => Db.per_id p <> personId)
                                 (Db.persons (Async.db w))
               \/ Db.persons s' = Db.persons (Async.db w)).
  { destruct (decide (Exists (fun c => Db.cp_person_id c = personId)
                        (Db.cohort_people (Async.db w)))) as [He|He].
    - apply Exists_exists in He as (c & Hc & Hid).
      right. by apply (Hheld c).
    - left. apply Hfree. intros c Hc Hid. apply He, Exists_exists. by exists c. }
  refine (conj _ (conj _ (conj _ (conj Hfree _)))).
  - intros teamId distinctId. destruct Hp as [Hp|Hp].
    + by apply select_person_filter.
    + by apply select_person_rows_filter.
  - intros row Hrow. rewrite Hd in Hrow. by apply list_elem_of_filter in Hrow as [? _].
  - intros Href row Hrow. rewrite Hd in Hrow.
    apply list_elem_of_filter in Hrow as [Hne Hrow].
    destruct (Href row Hrow) as (p & Hin & Hid & Hteam).
    exists p. split; [|done]. destruct Hp as [Hp|Hp]; rewrite Hp; [|done].
    apply list_elem_of_filter. split; [congruence|done].
  - intros c Hc Hid. destruct (Hheld c Hc Hid) as [? ?]. done.
Qed.

(** Person 1 of the example store is in a cohort and person 2 is not:
    deleting the one is rejected, deleting the other resolves, and in
    both cases the distinct id resolves to nobody afterwards. *)
Lemma deletePerson_unresolves_witness :
  let w := IdentityExamples.calm IdentityExamples.store_ab in
  let held := Db.deletePerson 1 w in
  let free := Db.deletePerson 2 w in
  (fst held = Async.Rejected Async.ForeignKeyViolation
   /\ Db.select_person (Async.db (snd held)) 2 "a" = []
   /\ Db.select_person (Async.db (snd held)) 2 "b" = [IdentityExamples.personB]
   /\ Db.persons (Async.db (snd held)) = Db.persons IdentityExamples.store_ab)
  /\ (fst free = Async.Resolved tt
      /\ Db.select_person (Async.db (snd free)) 2 "b" = []
      /\ Db.persons (Async.db (snd free)) = [IdentityExamples.personA]).
Proof.
  intros w held free.
  destruct (deletePerson_unresolves 1 w eq_refl) as (H1 & _ & _ & _ & H1h).
  destruct (deletePerson_unresolves 2 w eq_refl) as (H2 & _ & _ & H2f & _).
  destruct (H1h (Db.mkCohortPeople 1 7 1)) as (Hr & Hp & _);
    [by apply list_elem_of_singleton|reflexivity|].
  destruct H2f as (Hr2 & Hp2).
  { intros c Hc. apply list_elem_of_singleton in Hc as ->. discriminate. }
  split.
  - refine (conj Hr (conj (H1 2 "a") (conj (H1 2 "b") Hp))).
  - refine (conj Hr2 (conj (H2 2 "b") Hp2)).
Defined.

(** ** The job queue consumer *)

Section GraphileQueueFacts.
Import GraphileQueue.

Lemma failures_snoc (outcomes : list (option Failure)) (o : option Failure) :
  failures (outcomes ++ [o]) = (failures outcomes + failed o)%nat.
Proof.
  unfold failures. rewrite filter_app, length_app. f_equal.
  destruct o.
  - by rewrite filter_cons_True by (by eexists).
  - by rewrite filter_cons_False by (by intros [? ?]).
Qed.

Lemma call_consistent (c : Call) (env : Env) (st : State)
    (outcomes : list (option Failure)) :
  consistent st outcomes ->
  consistent (fst (call c env st)) (outcomes ++ [snd (call c env st)])
  /\ (snd (call c env st) = None ->
      started (fst (call c env st)) = true -> paused (fst (call c env st)) = false ->
      is_Some (runner (fst (call c env st)))).
Proof.
  intros [Hr Hp]. unfold consistent. rewrite failures_snoc.
  unfold in_use in *.
  destruct st as [st_started st_paused st_runner st_pool n e s]. simpl in *.
  destruct st_runner as [r|].
  - destruct (Hr r eq_refl) as (-> & -> & ->).
    destruct c, env as [[] [] [] []]; simpl; rewrite ?length_app; simpl;
      (split; [split; [intros p; try done; intros [= <-]; done|lia]|]);
      try done; by eexists.
  - destruct c, env as [[] [] [] []], st_started, st_paused; simpl;
      (split; [split; [intros p; try done; intros [= <-]; done|lia]|]);
      try done; by eexists.
Qed.

Lemma calls_consistent (l : list (Call * Env)) :
  consistent (fst (calls l)) (snd (calls l)).
Proof.
  unfold calls.
  assert (consistent (fst (constructor, @nil (option Failure))) (snd (constructor, @nil (option Failure)))) as H0
    by (split; [done|reflexivity]).
  revert H0. generalize (constructor, @nil (option Failure)).
  induction l as [|[c env] l IH]; intros acc Hacc; simpl; [done|].
  apply IH. simpl. by apply call_consistent.
Qed.

End GraphileQueueFacts.

(** X21.  After any sequence of awaited consumer calls on a new queue,
    whatever fails on the way: every pool the queue has made is ended,
    or is the pool of the current runner, or was left behind by a call
    that failed, one pool for each failed call.  Without failures no
    pool is ever left open without a runner. *)
Theorem graphile_pools_accounted (l : list (GraphileQueue.Call * GraphileQueue.Env)) :
  let st := fst (GraphileQueue.calls l) in
  GraphileQueue.pools st
  = (length (GraphileQueue.ended st) + GraphileQueue.in_use st
     + GraphileQueue.failures (snd (GraphileQueue.calls l)))%nat.
Proof. intros st. apply (calls_consistent l). Qed.

(** X22.  A runner exists only while the consumer is started and not
    paused, and it runs on the pool held in [consumerPool]; conversely,
    when the last call has returned without failure and the consumer is
    started and not paused, there is a runner. *)
Theorem graphile_runner_iff_consuming (l : list (GraphileQueue.Call * GraphileQueue.Env))
    (c : GraphileQueue.Call) (env : GraphileQueue.Env) :
  let st := fst (GraphileQueue.calls (l ++ [(c, env)])) in
  (forall p, GraphileQueue.runner st = Some p ->
     GraphileQueue.started st = true /\ GraphileQueue.paused st = false
     /\ GraphileQueue.consumerPool st = Some p)
  /\ (last (snd (GraphileQueue.calls (l ++ [(c, env)]))) = Some None ->
      (is_Some (GraphileQueue.runner st)
       <-> GraphileQueue.started st = true /\ GraphileQueue.paused st = false)).
Proof.
  intros st. split; [apply (calls_consistent (l ++ [(c, env)]))|].
  unfold st, GraphileQueue.calls. rewrite fold_left_app. simpl.
  fold (GraphileQueue.calls l).
  rewrite last_snoc. intros [= Hok].
  destruct (call_consistent c env (fst (GraphileQueue.calls l))
              (snd (GraphileQueue.calls l)) (calls_consistent l)) as [[Hr _] Hs].
  split.
  - intros [p Hp]. destruct (Hr p Hp) as (? & ? & _). done.
  - intros [? ?]. by apply Hs.
Qed.

(** ** Events captured by plugins *)

(** X23.  An event captured by a plugin, on either pipeline: its
    properties never hold a [timestamp]; every other property of the
    caller is passed on unchanged, also [$lib] and [$lib_version], which
    are only filled in when the caller gave none; the event's time is the
    caller's [timestamp] when it is there and not undefined, and the
    current time otherwise; and that one time is sent as the event's
    timestamp, as [now] and as [sent_at]. *)
Theorem capture_properties (KAFKA_ENABLED : bool) (pluginConfig : Posthog.PluginConfig)
    (version utc_now new_uuid event : string) (properties : option Js.Properties) :
  let given := default ∅ properties in
  let sent := Posthog.capture KAFKA_ENABLED pluginConfig version utc_now new_uuid event
                properties in
  let data := Posthog.sent_data sent in
  Posthog.properties data !! "timestamp" = None
  /\ (forall k v, k <> "timestamp" -> given !! k = Some v ->
        Posthog.properties data !! k = Some v)
  /\ (given !! "$lib" = None ->
        Posthog.properties data !! "$lib" = Some (Js.JStr "posthog-plugin-server"))
  /\ (given !! "$lib_version" = None ->
        Posthog.properties data !! "$lib_version" = Some (Js.JStr version))
  /\ (forall k, k <> "$lib" -> k <> "$lib_version" -> given !! k = None ->
        Posthog.properties data !! k = None)
  /\ (forall v, given !! "timestamp" = Some v -> v <> Js.JUndefined ->
        Posthog.timestamp data = v)
  /\ (given !! "timestamp" = None \/ given !! "timestamp" = Some Js.JUndefined ->
        Posthog.timestamp data = Js.JStr utc_now)
  /\ Posthog.sent_times sent = (Posthog.timestamp data, Posthog.timestamp data)
  /\ Posthog.team_id data = Posthog.config_team_id pluginConfig.
Proof.
  intros given sent data.
  assert (Hd : data
               = {| Posthog.distinct_id := Posthog.distinctId pluginConfig;
                    Posthog.event := event;
                    Posthog.timestamp :=
                      match given !! "timestamp" with
                      | Some Js.JUndefined | None => Js.JStr utc_now
                      | Some v => v
                      end;
                    Posthog.properties :=
                      Js.spread2 {[ "$lib" := Js.JStr "posthog-plugin-server";
                                    "$lib_version" := Js.JStr version ]}
                        (delete "timestamp" given);
                    Posthog.team_id := Posthog.config_team_id pluginConfig;
                    Posthog.uuid := new_uuid |})
    by (unfold data, sent, Posthog.capture, Posthog.sendEvent; by destruct KAFKA_ENABLED).
  assert (Ht : Posthog.sent_times sent = (Posthog.timestamp data, Posthog.timestamp data))
    by (unfold data, sent, Posthog.capture, Posthog.sendEvent; by destruct KAFKA_ENABLED).
  rewrite Hd. simpl. unfold Js.spread2.
  refine (conj _ (conj _ (conj _ (conj _ (conj _ (conj _ (conj _ (conj _ _)))))))).
  - apply lookup_union_None. split; [apply lookup_delete_eq|by vm_compute].
  - intros k v Hk Hv. apply lookup_union_Some_l. by rewrite lookup_delete_ne.
  - intros Hn. rewrite lookup_union_r by (by rewrite lookup_delete_ne).
    by vm_compute.
  - intros Hn. rewrite lookup_union_r by (by rewrite lookup_delete_ne).
    rewrite lookup_insert_ne by done. by rewrite lookup_singleton_eq.
  - intros k Hk1 Hk2 Hn. apply lookup_union_None. split.
    + destruct (decide (k = "timestamp")) as [->|Hne];
        [apply lookup_delete_eq|by rewrite lookup_delete_ne].
    + rewrite lookup_insert_ne by done. by rewrite lookup_singleton_ne.
  - intros v Hv Hne. rewrite Hv. by destruct v.
  - intros [Hv|Hv]; by rewrite Hv.
  - by rewrite Ht, Hd.
  - done.
Qed.

(** ** Filters that cannot match *)

Section FilterTypeFacts.
Import Js ActionMatcher.

Lemma every_exc_true {A} (test : A -> Exc bool) (l : list A) :
  every_exc test l = Ok true -> forall x, x ∈ l -> test x = Ok true.
Proof.
  induction l as [|y l IH]; intros H x Hx; [by apply elem_of_nil in Hx|].
  simpl in H. destruct (test y) as [[]|e] eqn:Hy; try done.
  apply elem_of_cons in Hx as [->|Hx]; [done|by apply IH].
Qed.

End FilterTypeFacts.

(** X24.  A step with a cohort filter, or a filter of a type the code does
    not know, among its properties never matches an event, and neither
    does a step with an element filter when the event has no elements;
    a person filter is checked like an event filter, against the
    properties of the event. *)
Theorem unmatched_filter_types (R : ActionMatcher.Runtime)
    (event : ActionMatcher.PluginEvent) (elements : list ActionMatcher.Element)
    (step : ActionMatcher.ActionStep) (filters : list ActionMatcher.PropertyFilter)
    (f : ActionMatcher.PropertyFilter)
    (Hstep : ActionMatcher.step_properties step = ActionMatcher.Defined filters)
    (Hf : f ∈ filters) :
  (ActionMatcher.type f = ActionMatcher.CohortFilter
   \/ ActionMatcher.type f = ActionMatcher.OtherFilter
   \/ (ActionMatcher.type f = ActionMatcher.ElementFilter /\ elements = []) ->
   ActionMatcher.checkStepFilters R event elements step <> Js.Ok true)
  /\ ActionMatcher.checkEventAgainstFilter R event elements
       (ActionMatcher.mkPropertyFilter ActionMatcher.PersonFilter (ActionMatcher.filter f))
     = ActionMatcher.checkEventAgainstFilter R event elements
         (ActionMatcher.mkPropertyFilter ActionMatcher.EventFilter (ActionMatcher.filter f)).
Proof.
  split; [|reflexivity].
  intros Htype Hok. unfold ActionMatcher.checkStepFilters in Hok. rewrite Hstep in Hok.
  destruct filters as [|f0 fs]; [by apply elem_of_nil in Hf|].
  pose proof (every_exc_true _ _ Hok f Hf) as Hmatch.
  unfold ActionMatcher.checkEventAgainstFilter in Hmatch.
  destruct Htype as [Ht|[Ht|[Ht ->]]]; rewrite Ht in Hmatch; discriminate Hmatch.
Qed.

Lemma unmatched_filter_types_witness :
  let cohort :=
    ActionMatcher.mkPropertyFilter ActionMatcher.CohortFilter
      (ActionMatcher.mkFilter "id" (ActionMatcher.Single (Js.JNum 1)) ActionMatcher.Exact) in
  let step := ActionMatcher.mkActionStep None (ActionMatcher.Defined [cohort]) in
  cohort ∈ [cohort]
  /\ ActionMatcher.checkStepFilters ActionMatcher.sample_runtime
       (ActionMatcher.mkPluginEvent "pageview" 2 (ActionMatcher.Defined ∅)) [] step
     <> Js.Ok true.
Proof.
  intros cohort step.
  assert (Hin : cohort ∈ [cohort]) by left.
  split; [exact Hin|].
  apply (proj1 (unmatched_filter_types ActionMatcher.sample_runtime
                  (ActionMatcher.mkPluginEvent "pageview" 2 (ActionMatcher.Defined ∅))
                  [] step [cohort] cohort eq_refl Hin)).
  by left.
Defined.

(** ** Properties of a known person *)

(** X25.  For a distinct id that resolves to a person, without concurrent
    writers, [updatePersonProperties] returns the person with the merged
    properties and stores them: key by key, the value of [$set] if it
    has the key, else the person's own value, else the value of
    [$set_once].  The distinct id resolves to the updated person
    afterwards, and nobody is created or removed. *)
Theorem updatePersonProperties_merges_by_key (fresh : EventsProcessor.Fresh)
    (teamId : Z) (distinctId : string) (set set_once : Js.Properties)
    (w : Async.World Db.Store Db.Query) (person : Db.Person)
    (Hq : Async.schedule w = [])
    (Hp : head (Db.select_person (Async.db w) teamId distinctId) = Some person) :
  let run := EventsProcessor.updatePersonProperties fresh teamId distinctId set set_once w in
  exists updated,
    fst run = Async.Resolved updated
    /\ head (Db.select_person (Async.db (snd run)) teamId distinctId) = Some updated
    /\ Db.per_id updated = Db.per_id person
    /\ (forall k, Db.per_properties updated !! k
                  = match set !! k, Db.per_properties person !! k with
                    | Some v, _ => Some v
                    | None, Some v => Some v
                    | None, None => set_once !! k
                    end)
    /\ Db.per_id <$> Db.persons (Async.db (snd run))
       = Db.per_id <$> Db.persons (Async.db w).
Proof.
  intros run.
  set (update := Db.mkPersonUpdate None
                   (Some (Js.spread3 set_once (Db.per_properties person) set)) None).
  set (f := fun p => if bool_decide (Db.per_id p = Db.per_id person)
                     then Db.with_update p update else p).
  assert (Hrun : fst run = Async.Resolved (Db.with_update person update)
                 /\ Db.persons (Async.db (snd run)) = f <$> Db.persons (Async.db w)
                 /\ Db.distinct_ids (Async.db (snd run)) = Db.distinct_ids (Async.db w)).
  { unfold run, EventsProcessor.updatePersonProperties, Async.bind, Async.await,
      Db.fetchPerson, Async.postgresQuery.
    rewrite Hq. simpl. rewrite Hp. simpl.
    unfold Db.updatePerson, Async.bind, Async.await, Async.postgresQuery, Db.send.
    simpl. by destruct (Db.kafkaProducer (Async.db w)). }
  destruct Hrun as (Hres & Hpers & Hrows).
  assert (Hf : forall q, Db.per_id (f q) = Db.per_id q
                         /\ Db.per_team_id (f q) = Db.per_team_id q).
  { intros q. unfold f. by destruct (bool_decide _). }
  exists (Db.with_update person update).
  split; [exact Hres|]. split; [|split; [done|split]].
  - rewrite (select_person_fmap (Async.db w) _ f teamId distinctId Hpers Hrows Hf).
    destruct (Db.select_person (Async.db w) teamId distinctId) as [|x l]; [done|].
    simpl in Hp. injection Hp as ->. simpl. f_equal.
    unfold f. by rewrite bool_decide_eq_true_2.
  - intros k. simpl. unfold Js.spread3, Js.spread2.
    rewrite !lookup_union.
    destruct (set !! k), (Db.per_properties person !! k), (set_once !! k); done.
  - rewrite Hpers, <- list_fmap_compose. apply list_fmap_ext.
    intros i q _. simpl. apply Hf.
Qed.

Lemma updatePersonProperties_merges_by_key_witness :
  exists updated,
    fst (EventsProcessor.updatePersonProperties IdentityExamples.fresh1 2 "a"
           {[ "plan" := Js.JStr "paid" ]}
           {[ "city" := Js.JStr "Paris"; "first_seen" := Js.JNum 7 ]}
           (IdentityExamples.calm IdentityExamples.store_ab))
    = Async.Resolved updated
    /\ Db.per_properties updated !! "plan" = Some (Js.JStr "paid")
    /\ Db.per_properties updated !! "city" = Some (Js.JStr "Ghent")
    /\ Db.per_properties updated !! "first_seen" = Some (Js.JNum 7).
Proof.
  destruct (updatePersonProperties_merges_by_key IdentityExamples.fresh1 2 "a"
              {[ "plan" := Js.JStr "paid" ]}
              {[ "city" := Js.JStr "Paris"; "first_seen" := Js.JNum 7 ]}
              (IdentityExamples.calm IdentityExamples.store_ab)
              IdentityExamples.personA eq_refl eq_refl)
    as (updated & H1 & _ & _ & H4 & _).
  exists updated. split; [exact H1|].
  rewrite !H4. vm_compute. done.
Defined.

(** ** A second alias *)

Section AliasSettles.
Import Js Async Db EventsProcessor Persons.

Lemma NoDup_fmap_eq {A B} (f : A -> B) (l : list A) (x y : A) :
  NoDup (f <$> l) -> x ∈ l -> y ∈ l -> f x = f y -> x = y.
Proof.
  induction l as [|z l IH]; intros Hnd Hx Hy Hf; [by apply elem_of_nil in Hx|].
  rewrite fmap_cons in Hnd. apply NoDup_cons in Hnd as [Hz Hnd].
  apply elem_of_cons in Hx as [->|Hx]; apply elem_of_cons in Hy as [->|Hy].
  - done.
  - exfalso. apply Hz. rewrite Hf. apply list_elem_of_fmap. by exists y.
  - exfalso. apply Hz. rewrite <- Hf. apply list_elem_of_fmap. by exists x.
  - by apply IH.
Qed.

Lemma select_person_intro (s : Store) (teamId : Z) (distinctId : string) (p : Person) :
  p ∈ persons s -> per_team_id p = teamId -> attached s teamId distinctId (per_id p) ->
  p ∈ select_person s teamId distinctId.
Proof.
  intros Hp Ht (row & Hrow & Hrt & Hrd & Hrp). unfold select_person.
  apply list_elem_of_bind. exists p. split; [|done].
  apply list_elem_of_bind. exists row. split; [|done].
  rewrite !bool_decide_eq_true_2 by done. simpl. left.
Qed.

(** With unique person ids, a distinct id all of whose rows point to one
    person resolves to that person. *)
Lemma resolves_to (s : Store) (teamId : Z) (distinctId : string) (p : Person) :
  NoDup (per_id <$> persons s) ->
  p ∈ persons s -> per_team_id p = teamId ->
  attached s teamId distinctId (per_id p) ->
  (forall row, row ∈ distinct_ids s -> pdi_team_id row = teamId ->
     pdi_distinct_id row = distinctId -> pdi_person_id row = per_id p) ->
  head (select_person s teamId distinctId) = Some p.
Proof.
  intros Hnd Hp Ht Hatt Hrows. apply head_all_same.
  - intros Hnil. pose proof (select_person_intro s teamId distinctId p Hp Ht Hatt) as Hin.
    rewrite Hnil in Hin. by apply elem_of_nil in Hin.
  - intros x Hx. apply select_person_elem in Hx as (Hx & _ & (row & Hrow & Hrt & Hrd & Hrp)).
    apply (NoDup_fmap_eq per_id (persons s)); [done..|].
    rewrite <- Hrp. by apply Hrows.
Qed.

(** Rows for other distinct ids do not change what a distinct id
    resolves to. *)
Lemma select_person_app_other (s s' : Store) (teamId : Z) (distinctId : string)
    (extra : list PersonDistinctId) :
  persons s' = persons s ->
  distinct_ids s' = distinct_ids s ++ extra ->
  Forall (fun row => ~ (pdi_team_id row = teamId /\ pdi_distinct_id row = distinctId))
    extra ->
  select_person s' teamId distinctId = select_person s teamId distinctId.
Proof.
  intros Hp Hr Hextra. unfold select_person. rewrite Hp, Hr.
  generalize (persons s) as l. intros l.
  induction l as [|q l IH]; [done|].
  change ((q :: l) ≫= ?g) with (g q ++ (l ≫= g)).
  rewrite IH. f_equal.
  rewrite bind_app.
  rewrite (bind_all_nil _ extra); [by rewrite app_nil_r|].
  intros row Hrow. eapply Forall_forall in Hextra; [|exact Hrow].
  destruct (decide (pdi_team_id row = teamId)) as [Ht|Ht];
    destruct (decide (pdi_distinct_id row = distinctId)) as [Hd|Hd];
    try (exfalso; by apply Hextra).
  - rewrite (bool_decide_eq_false_2 (pdi_distinct_id row = distinctId)) by done.
    by rewrite andb_false_r.
  - rewrite (bool_decide_eq_false_2 (pdi_team_id row = teamId)) by done.
    by rewrite andb_false_r.
  - rewrite (bool_decide_eq_false_2 (pdi_distinct_id row = distinctId)) by done.
    by rewrite andb_false_r.
Qed.

(** When both ids resolve to one person, [alias] writes nothing. *)
Lemma alias_same_person fresh fresh' (previous current : string) (teamId : Z)
    (retryIfFailed : bool) (w : World Store Query) (p : Person) :
  schedule w = [] ->
  head (select_person (db w) teamId previous) = Some p ->
  head (select_person (db w) teamId current) = Some p ->
  db (snd (alias fresh fresh' previous current teamId retryIfFailed w)) = db w.
Proof.
  intros Hq HA HB. rewrite alias_reads by done. rewrite HA, HB.
  by rewrite bool_decide_eq_false_2 by (intros H; by apply H).
Qed.

Lemma fire_resolved {A} (m : M A) (w : World Store Query) :
  fire m w = (Resolved tt, snd (fire m w)).
Proof. unfold fire. by destruct (m w) as [[a|e] w']. Qed.

Lemma fire_addDistinctId_schedule (p : Person) (distinctId : string)
    (w : World Store Query) :
  schedule w = [] -> schedule (snd (fire (addDistinctId p distinctId) w)) = [].
Proof.
  intros Hq. unfold fire, addDistinctId, bind, await, postgresQuery, send.
  rewrite Hq. simpl.
  destruct (insert_distinct_id _ _ _ _) as [[row|e] st]; simpl; done.
Qed.

End AliasSettles.

(** X26.  [alias] settles: without concurrent writers, on a store with
    sound references and serials and unique person ids, and unless both
    ids already had a person, after one call the two distinct ids
    resolve to one and the same person, and a second call for the same
    pair writes nothing. *)
Theorem alias_settles (fresh fresh' again again' : EventsProcessor.Fresh)
    (previous current : string) (teamId : Z) (retryIfFailed retryAgain : bool)
    (w : Async.World Db.Store Db.Query)
    (Hq : Async.schedule w = [])
    (Href : EventsProcessor.references_ok (Async.db w))
    (Hser : Persons.serials_ok (Async.db w))
    (Hids : NoDup (Db.per_id <$> Db.persons (Async.db w)))
    (Hone : head (Db.select_person (Async.db w) teamId previous) = None
            \/ head (Db.select_person (Async.db w) teamId current) = None) :
  let w1 := snd (EventsProcessor.alias fresh fresh' previous current teamId
                   retryIfFailed w) in
  (exists p, head (Db.select_person (Async.db w1) teamId previous) = Some p
             /\ head (Db.select_person (Async.db w1) teamId current) = Some p)
  /\ Async.db (snd (EventsProcessor.alias again again' previous current teamId
                      retryAgain w1))
     = Async.db w1.
Proof.
  intros w1.
  assert (Hmain : exists p,
             Async.schedule w1 = []
             /\ head (Db.select_person (Async.db w1) teamId previous) = Some p
             /\ head (Db.select_person (Async.db w1) teamId current) = Some p).
  { pose proof (alias_reads fresh fresh' previous current teamId retryIfFailed w Hq) as Hrun.
    set (w0 := EventsProcessor.after_reads teamId previous current w) in *.
    assert (Hw0 : Async.schedule w0 = [] /\ Async.db w0 = Async.db w) by done.
    destruct Hw0 as [Hq0 Hdb0].
    destruct (head (Db.select_person (Async.db w) teamId previous)) as [a|] eqn:HA;
      destruct (head (Db.select_person (Async.db w) teamId current)) as [b|] eqn:HB.
    - by destruct Hone.
    - (* a person for [previous] only *)
      rewrite try_catch_fire in Hrun.
      destruct (head_select_person _ _ _ _ HA) as (Hin & Hteam & _).
      pose proof (no_person_no_row _ _ _ Href HB) as Hfree.
      assert (Hne : current <> previous) by (intros ->; congruence).
      rewrite <- Hteam in Hfree.
      destruct (addDistinctId_quiet a current w0 Hq0 Hfree Hin)
        as (_ & Hp & Hd & _ & Hs).
      fold w1 in Hrun. unfold w1 in *. rewrite Hrun. clear Hrun.
      set (w' := snd (Async.fire (Db.addDistinctId a current) w0)) in *.
      rewrite Hdb0 in Hp, Hd.
      exists a. split; [exact Hs|]. split.
      + rewrite (select_person_app_other (Async.db w) (Async.db w') teamId previous _ Hp Hd);
          [done|].
        constructor; [|done]. simpl. intros [_ ?]. done.
      + apply resolves_to; [by rewrite Hp|by rewrite Hp|done| |].
        * eexists. rewrite Hd. split; [apply elem_of_app; right; left|]. done.
        * intros row Hrow Hrt Hrd. rewrite Hd in Hrow.
          apply elem_of_app in Hrow as [Hrow|Hrow].
          -- exfalso. rewrite Hteam in Hfree.
             by apply (no_row_free _ _ _ Hfree row Hrow).
          -- by apply list_elem_of_singleton in Hrow as ->.
    - (* a person for [current] only *)
      rewrite try_catch_fire in Hrun.
      destruct (head_select_person _ _ _ _ HB) as (Hin & Hteam & _).
      pose proof (no_person_no_row _ _ _ Href HA) as Hfree.
      assert (Hne : previous <> current) by (intros ->; congruence).
      rewrite <- Hteam in Hfree.
      destruct (addDistinctId_quiet b previous w0 Hq0 Hfree Hin)
        as (_ & Hp & Hd & _ & Hs).
      fold w1 in Hrun. unfold w1 in *. rewrite Hrun. clear Hrun.
      set (w' := snd (Async.fire (Db.addDistinctId b previous) w0)) in *.
      rewrite Hdb0 in Hp, Hd.
      exists b. split; [exact Hs|]. split.
      + apply resolves_to; [by rewrite Hp|by rewrite Hp|done| |].
        * eexists. rewrite Hd. split; [apply elem_of_app; right; left|]. done.
        * intros row Hrow Hrt Hrd. rewrite Hd in Hrow.
          apply elem_of_app in Hrow as [Hrow|Hrow].
          -- exfalso. rewrite Hteam in Hfree.
             by apply (no_row_free _ _ _ Hfree row Hrow).
          -- by apply list_elem_of_singleton in Hrow as ->.
      + rewrite (select_person_app_other (Async.db w) (Async.db w') teamId current _ Hp Hd);
          [done|].
        constructor; [|done]. simpl. intros [_ ?]. done.
    - (* nobody *)
      pose proof (no_row_free _ _ _ (no_person_no_row _ _ _ Href HA)) as HfreeA.
      pose proof (no_row_free _ _ _ (no_person_no_row _ _ _ Href HB)) as HfreeB.
      destruct (next_person_unreferenced _ Href Hser) as [Hfresh _].
      unfold Async.try_catch, Async.bind, Async.await in Hrun.
      destruct (createPerson_quiet (EventsProcessor.utc_now fresh) ∅ teamId
                  (EventsProcessor.new_uuid fresh) w0 Hq0)
        as (Hres & Hp1 & Hd1 & _ & Hq1).
      destruct (Db.createPerson _ _ _ _ _ _ _ _) as [r1 wa]. simpl in Hres, Hp1, Hd1, Hq1.
      subst r1. rewrite ?Hdb0 in Hp1, Hd1.
      set (p := Db.mkPerson (Db.next_person_id (Async.db w))
                  (EventsProcessor.new_uuid fresh) teamId
                  (EventsProcessor.utc_now fresh) ∅ None false) in *.
      assert (Hin1 : p ∈ Db.persons (Async.db wa))
        by (rewrite Hp1; apply elem_of_app; right; left).
      assert (Hnd1 : NoDup (Db.per_id <$> Db.persons (Async.db wa))).
      { rewrite Hp1, fmap_app. apply NoDup_app. split; [done|]. split.
        - intros i Hi Hi'. apply list_elem_of_singleton in Hi'. subst i.
          apply list_elem_of_fmap in Hi as (q & Hqid & Hq'). by apply (Hfresh q Hq').
        - apply NoDup_singleton. }
      destruct (addDistinctId_quiet p current wa Hq1) as (Hr2 & Hp2 & Hd2 & _ & Hq2);
        [apply free_no_row; intros row Hrow; rewrite Hd1 in Hrow; by apply HfreeB|done|].
      destruct (Async.fire (Db.addDistinctId p current) wa) as [r2 wb].
      simpl in Hr2, Hp2, Hd2, Hq2. subst r2.
      pose proof (fire_addDistinctId_schedule p previous wb Hq2) as Hq3.
      assert (Hp3 : Db.persons (Async.db (snd (Async.fire (Db.addDistinctId p previous) wb)))
                    = Db.persons (Async.db wa)
                    /\ exists extra,
                         Db.distinct_ids
                           (Async.db (snd (Async.fire (Db.addDistinctId p previous) wb)))
                         = Db.distinct_ids (Async.db w)
                           ++ Db.mkPersonDistinctId (Db.next_distinct_id_id (Async.db wa))
                                (Db.per_id p) current teamId :: extra
                         /\ ((previous = current /\ extra = [])
                             \/ (previous <> current
                                 /\ exists i, extra
                                    = [Db.mkPersonDistinctId i (Db.per_id p) previous teamId]))).
      { destruct (decide (previous = current)) as [->|Hne].
        - destruct (addDistinctId_taken p current wb Hq2) as (_ & P & D & _).
          { apply (taken_row _ _ _ (Db.mkPersonDistinctId
                                     (Db.next_distinct_id_id (Async.db wa))
                                     (Db.per_id p) current teamId)); [|done..].
            rewrite Hd2. apply elem_of_app. right. left. }
          rewrite P, D, Hp2, Hd2, Hd1. split; [done|].
          exists []. split; [done|by left].
        - destruct (addDistinctId_quiet p previous wb Hq2) as (_ & P & D & _).
          { apply free_no_row. intros row Hrow [Hrt Hrd]. rewrite Hd2, Hd1 in Hrow.
            apply elem_of_app in Hrow as [Hrow|Hrow]; [by apply (HfreeA row Hrow)|].
            apply list_elem_of_singleton in Hrow as ->. simpl in Hrd. congruence. }
          { by rewrite Hp2. }
          rewrite P, D, Hp2, Hd2, Hd1, <- app_assoc. split; [done|].
          eexists. split; [reflexivity|]. right. split; [done|]. by eexists. }
      destruct Hp3 as (Hp3 & extra & Hd3 & Hextra).
      set (w' := snd (Async.fire (Db.addDistinctId p previous) wb)) in *.
      assert (Hfire : Async.fire (Db.addDistinctId p previous) wb = (Async.Resolved tt, w'))
        by apply fire_resolved.
      fold w1 in Hrun. unfold w1 in *. rewrite Hrun. clear Hrun. simpl.
      rewrite Hfire. simpl.
      exists p. split; [exact Hq3|].
      assert (Hatt : forall d, d = current \/ d = previous ->
                forall row, row ∈ Db.distinct_ids (Async.db w') ->
                  Db.pdi_team_id row = teamId -> Db.pdi_distinct_id row = d ->
                  Db.pdi_person_id row = Db.per_id p).
      { intros d Hd row Hrow Hrt Hrd. rewrite Hd3 in Hrow.
        apply elem_of_app in Hrow as [Hrow|Hrow].
        - exfalso. destruct Hd as [->| ->];
            [by apply (HfreeB row Hrow)|by apply (HfreeA row Hrow)].
        - apply elem_of_cons in Hrow as [->|Hrow]; [done|].
          destruct Hextra as [[_ ->]|[_ [i ->]]]; [by apply elem_of_nil in Hrow|].
          by apply list_elem_of_singleton in Hrow as ->. }
      split.
      + apply resolves_to; [by rewrite Hp3|by rewrite Hp3|done| |by apply Hatt; right].
        destruct Hextra as [[-> ->]|[_ [i ->]]]; eexists; rewrite Hd3.
        * split; [apply elem_of_app; right; left|]. done.
        * split; [apply elem_of_app; right; right; left|]. done.
      + apply resolves_to; [by rewrite Hp3|by rewrite Hp3|done| |by apply Hatt; left].
        eexists. rewrite Hd3. split; [apply elem_of_app; right; left|]. done. }
  destruct Hmain as (p & Hs & HA & HB).
  split; [by exists p|].
  by apply (alias_same_person again again' previous current teamId retryAgain w1 p).
Qed.

Lemma alias_settles_witness :
  let w1 := snd (EventsProcessor.alias IdentityExamples.fresh1 IdentityExamples.fresh2
                   "a" "b" 2 true (IdentityExamples.calm IdentityExamples.store_a)) in
  (exists p, head (Db.select_person (Async.db w1) 2 "a") = Some p
             /\ head (Db.select_person (Async.db w1) 2 "b") = Some p)
  /\ Async.db (snd (EventsProcessor.alias IdentityExamples.fresh2 IdentityExamples.fresh1
                      "a" "b" 2 true w1))
     = Async.db w1.
Proof.
  refine (alias_settles IdentityExamples.fresh1 IdentityExamples.fresh2
            IdentityExamples.fresh2 IdentityExamples.fresh1 "a" "b" 2 true true
            (IdentityExamples.calm IdentityExamples.store_a) eq_refl _ _ _ _).
  - intros row Hrow. apply list_elem_of_singleton in Hrow as ->.
    exists IdentityExamples.personA. split; [left|split; reflexivity].
  - split.
    + intros q Hq. apply list_elem_of_singleton in Hq as ->. by vm_compute.
    + intros row Hrow. apply list_elem_of_singleton in Hrow as ->. by vm_compute.
  - apply (bool_decide_unpack
             (NoDup (Db.per_id <$> Db.persons
                       (Async.db (IdentityExamples.calm IdentityExamples.store_a))))).
    vm_compute. exact I.
  - right. reflexivity.
Defined.

(** ** Element groups *)

Section ElementFacts.
Import Js Async Elements.
Context (hashElements : list Element -> string).

Lemma insert_elements (cleaned : list Element) (groupId : Z) (w : World Store Query) :
  schedule w = [] ->
  let r := forM_ cleaned (fun element =>
             await (postgresQuery (QInsertElement element groupId)
                      (insert_element element groupId))) w in
  fst r = Resolved tt
  /\ groups (db (snd r)) = groups (db w)
  /\ elements (db (snd r)) = elements (db w) ++ rows_of cleaned groupId
  /\ next_group_id (db (snd r)) = next_group_id (db w)
  /\ schedule (snd r) = [].
Proof.
  revert w. induction cleaned as [|e l IH]; intros w Hq; simpl.
  - by rewrite app_nil_r.
  - assert (Hstep : exists w1,
              await (postgresQuery (QInsertElement e groupId)
                       (insert_element e groupId)) w = (Resolved tt, w1)
              /\ groups (db w1) = groups (db w)
              /\ elements (db w1)
                 = elements (db w)
                   ++ [mkElementRow e (default ∅ (attributes e)) groupId]
              /\ next_group_id (db w1) = next_group_id (db w)
              /\ schedule w1 = []).
    { unfold await, postgresQuery. rewrite Hq. simpl.
      eexists. split; [reflexivity|]. simpl. done. }
    destruct Hstep as (w1 & Hs & G1 & E1 & N1 & Q1).
    unfold bind. rewrite Hs.
    destruct (IH w1 Q1) as (H1 & H2 & H3 & H4 & H5).
    destruct (forM_ l _ w1) as [o w2]. simpl in *. subst o.
    rewrite H2, H3, H4, H5, G1, E1, N1. by rewrite <- app_assoc.
Qed.

(** A call when the group is already there. *)
Lemma createElementGroup_known (elems : list Element) (teamId : Z)
    (w : World Store Query) :
  schedule w = [] ->
  let h := hashElements (imap (fun index element => with_order element index) elems) in
  existsb (fun g => String.eqb (hash g) h && bool_decide (team_id g = teamId))
    (groups (db w)) = true ->
  let r := createElementGroup hashElements elems teamId w in
  fst r = Resolved h
  /\ groups (db (snd r)) = groups (db w)
  /\ elements (db (snd r)) = elements (db w)
  /\ next_group_id (db (snd r)) = next_group_id (db w) + 1
  /\ schedule (snd r) = [].
Proof.
  intros Hq h He.
  unfold createElementGroup, bind, try_catch, await, postgresQuery, insert_group, ret.
  rewrite Hq. fold h. rewrite He. simpl. done.
Qed.

(** A call when the group is new. *)
Lemma createElementGroup_new (elems : list Element) (teamId : Z)
    (w : World Store Query) :
  schedule w = [] ->
  let cleaned := imap (fun index element => with_order element index) elems in
  let h := hashElements cleaned in
  existsb (fun g => String.eqb (hash g) h && bool_decide (team_id g = teamId))
    (groups (db w)) = false ->
  let r := createElementGroup hashElements elems teamId w in
  fst r = Resolved h
  /\ groups (db (snd r))
     = groups (db w) ++ [mkElementGroup (next_group_id (db w)) h teamId]
  /\ elements (db (snd r))
     = elements (db w) ++ rows_of cleaned (next_group_id (db w))
  /\ schedule (snd r) = [].
Proof.
  intros Hq cleaned h He r.
  set (w1 := {| db := {| groups := groups (db w)
                                   ++ [mkElementGroup (next_group_id (db w)) h teamId];
                         elements := elements (db w);
                         next_group_id := next_group_id (db w) + 1 |};
                queries := queries w ++ [QInsertElementGroup h teamId];
                unhandled := unhandled w; schedule := [] |}).
  destruct (insert_elements cleaned (next_group_id (db w)) w1 eq_refl)
    as (H1 & H2 & H3 & H4 & H5).
  set (w2 := snd (forM_ cleaned
                    (fun element =>
                       await (postgresQuery (QInsertElement element (next_group_id (db w)))
                                (insert_element element (next_group_id (db w))))) w1)) in *.
  assert (Hr : r = (Resolved h, w2)).
  { revert H1. unfold w2, r, createElementGroup, bind, try_catch, await, postgresQuery,
      insert_group, ret.
    rewrite Hq. fold cleaned. fold h. rewrite He. simpl. fold w1.
    destruct (forM_ cleaned _ w1) as [o w']. simpl. by intros ->. }
  rewrite Hr. simpl. done.
Qed.

End ElementFacts.

(** X27.  Without concurrent writers, [createElementGroup] stores a chain
    of elements once: the call returns the hash of the elements numbered
    by position; when the team has no group of that hash it adds the
    group and one row for each element, in order and with that position
    as [order]; when it has, the two tables stay as they are; and a
    second call with the same elements always returns the same hash and
    leaves the two tables as they are.  The rejected insert of a known
    group uses up a value of the serial of the group table. *)
Theorem createElementGroup_once (hashElements : list Elements.Element -> string)
    (elems : list Elements.Element) (teamId : Z)
    (w : Async.World Elements.Store Elements.Query)
    (Hq : Async.schedule w = []) :
  let cleaned := imap (fun index element => Elements.with_order element index) elems in
  let h := hashElements cleaned in
  let known s := exists g, g ∈ Elements.groups s
                   /\ Elements.hash g = h /\ Elements.team_id g = teamId in
  let r1 := Elements.createElementGroup hashElements elems teamId w in
  let r2 := Elements.createElementGroup hashElements elems teamId (snd r1) in
  fst r1 = Async.Resolved h
  /\ fst r2 = Async.Resolved h
  /\ (Elements.groups (Async.db (snd r2)) = Elements.groups (Async.db (snd r1))
      /\ Elements.elements (Async.db (snd r2)) = Elements.elements (Async.db (snd r1))
      /\ Elements.next_group_id (Async.db (snd r2))
         = Elements.next_group_id (Async.db (snd r1)) + 1)
  /\ (known (Async.db w) ->
      Elements.groups (Async.db (snd r1)) = Elements.groups (Async.db w)
      /\ Elements.elements (Async.db (snd r1)) = Elements.elements (Async.db w)
      /\ Elements.next_group_id (Async.db (snd r1))
         = Elements.next_group_id (Async.db w) + 1)
  /\ (~ known (Async.db w) ->
      Elements.groups (Async.db (snd r1))
      = Elements.groups (Async.db w)
        ++ [Elements.mkElementGroup (Elements.next_group_id (Async.db w)) h teamId]
      /\ Elements.elements (Async.db (snd r1))
         = Elements.elements (Async.db w)
           ++ Elements.rows_of cleaned (Elements.next_group_id (Async.db w))).
Proof.
  intros cleaned h known r1 r2.
  assert (Hknown : forall s,
            existsb (fun g => String.eqb (Elements.hash g) h
                              && bool_decide (Elements.team_id g = teamId))
              (Elements.groups s) = true <-> known s).
  { intros s. rewrite existsb_exists. split.
    - intros (g & Hg & Hc). apply andb_true_iff in Hc as [Hh Ht].
      exists g. split; [by apply list_elem_of_In|].
      apply bool_decide_eq_true_1 in Ht. apply String.eqb_eq in Hh. done.
    - intros (g & Hg & Hh & Ht). exists g. split; [by apply list_elem_of_In|].
      rewrite (proj2 (String.eqb_eq _ _) Hh). by rewrite bool_decide_eq_true_2. }
  assert (H1 : fst r1 = Async.Resolved h /\ Async.schedule (snd r1) = []
               /\ known (Async.db (snd r1))
               /\ (known (Async.db w) ->
                   Elements.groups (Async.db (snd r1)) = Elements.groups (Async.db w)
                   /\ Elements.elements (Async.db (snd r1))
                      = Elements.elements (Async.db w)
                   /\ Elements.next_group_id (Async.db (snd r1))
                      = Elements.next_group_id (Async.db w) + 1)
               /\ (~ known (Async.db w) ->
                   Elements.groups (Async.db (snd r1))
                   = Elements.groups (Async.db w)
                     ++ [Elements.mkElementGroup (Elements.next_group_id (Async.db w))
                           h teamId]
                   /\ Elements.elements (Async.db (snd r1))
                      = Elements.elements (Async.db w)
                        ++ Elements.rows_of cleaned (Elements.next_group_id (Async.db w)))).
  { destruct (existsb (fun g => String.eqb (Elements.hash g) h
                                && bool_decide (Elements.team_id g = teamId))
                (Elements.groups (Async.db w))) eqn:He.
    - destruct (createElementGroup_known hashElements elems teamId w Hq He)
        as (R1 & R2 & R3 & R4 & R5).
      fold r1 in R1, R2, R3, R4, R5.
      pose proof (proj1 (Hknown _) He) as Hk.
      split; [done|]. split; [done|]. split; [|split; [done|done]].
      destruct Hk as (g & Hg & Hh). exists g. by rewrite R2.
    - destruct (createElementGroup_new hashElements elems teamId w Hq He)
        as (R1 & R2 & R3 & R4).
      fold r1 in R1, R2, R3, R4.
      assert (Hnk : ~ known (Async.db w))
        by (intros Hk; apply Hknown in Hk; congruence).
      split; [done|]. split; [done|]. split; [|split; [done|done]].
      eexists. rewrite R2. split; [apply elem_of_app; right; left|]. done. }
  destruct H1 as (R1 & Hq1 & Hk1 & Hsame & Hnew).
  destruct (createElementGroup_known hashElements elems teamId (snd r1) Hq1
              (proj2 (Hknown _) Hk1)) as (S1 & S2 & S3 & S4 & _).
  fold r2 in S1, S2, S3, S4. done.
Qed.

Lemma createElementGroup_once_witness :
  let w := Async.quiet (Elements.mkStore [] [] 1) in
  let link := Elements.mkElement (Some "Buy") (Some "a") (Some "/buy") None None None
                None None None None in
  let r1 := Elements.createElementGroup (fun _ => "chain") [link; link] 7 w in
  let r2 := Elements.createElementGroup (fun _ => "chain") [link; link] 7 (snd r1) in
  (Elements.order ∘ Elements.row_element <$> Elements.elements (Async.db (snd r1))
   = [Some 0; Some 1])
  /\ Elements.groups (Async.db (snd r2)) = [Elements.mkElementGroup 1 "chain" 7]
  /\ Elements.elements (Async.db (snd r2)) = Elements.elements (Async.db (snd r1))
  /\ Elements.next_group_id (Async.db (snd r2)) = 3.
Proof.
  intros w link r1 r2.
  destruct (createElementGroup_once (fun _ => "chain") [link; link] 7 w eq_refl)
    as (_ & _ & (H3g & H3e & H3n) & _ & H5).
  fold r1 in H3g, H3e, H3n, H5. fold r2 in H3g, H3e, H3n.
  destruct H5 as [H5g H5e].
  { intros (g & Hg & _). by apply elem_of_nil in Hg. }
  refine (conj _ (conj _ (conj H3e _))).
  - rewrite H5e. reflexivity.
  - rewrite H3g, H5g. reflexivity.
  - rewrite H3n. reflexivity.
Defined.

(** ** Timestamps at the edges *)

(** X28.  Where the timestamp, when it parses, and [now - offset], when
    that is what is computed, lie in the range of dates:
    [handleTimestamp] throws in one case only, when luxon is set to
    throw on invalid values and the event has a timestamp that does not
    parse.  An invalid [now] or [sent_at] never makes it throw.  When
    [now] and [sent_at] are the same instant of the range the result is
    the parsed timestamp itself; an invalid [now] makes the result
    invalid even though timestamp and [sent_at] are sound. *)
Theorem handleTimestamp_throws_iff (L : Luxon.Settings) (data : Timestamp.PluginEvent)
    (now : Luxon.DateTime) (sentAt : option Luxon.DateTime)
    (Hparse : forall ts t,
        Timestamp.timestamp_given data = Some ts -> Luxon.parseISO L ts = Some t ->
        Luxon.in_range t = true)
    (Hoff : forall n o,
        Timestamp.timestamp_given data = None ->
        Timestamp.offset_given data = Some o -> now = Luxon.DtValid n ->
        Luxon.in_range (n - o) = true) :
  ((exists e, Timestamp.handleTimestamp L data now sentAt = Js.Throw e)
   <-> Luxon.throwOnInvalid L = true
       /\ exists ts, Timestamp.timestamp_given data = Some ts
                     /\ Luxon.parseISO L ts = None)
  /\ (forall ts t at_,
        Timestamp.timestamp_given data = Some ts -> Luxon.parseISO L ts = Some t ->
        Luxon.in_range at_ = true -> Luxon.in_range (t - at_) = true ->
        Timestamp.handleTimestamp L data (Luxon.DtValid at_) (Some (Luxon.DtValid at_))
        = Js.Ok (Luxon.DtValid t))
  /\ (forall ts t sent,
        Timestamp.timestamp_given data = Some ts -> Luxon.parseISO L ts = Some t ->
        Luxon.in_range sent = true ->
        Timestamp.handleTimestamp L data Luxon.DtInvalid (Some (Luxon.DtValid sent))
        = Js.Ok Luxon.DtInvalid).
Proof.
  refine (conj _ (conj _ _)).
  - unfold Timestamp.handleTimestamp.
    destruct (Timestamp.timestamp_given data) as [ts|] eqn:Hts.
    + destruct (Luxon.parseISO L ts) as [t|] eqn:Hp.
      * pose proof (fromISO_sound L ts t Hp (Hparse ts t eq_refl Hp)) as Hiso.
        split.
        -- intros [e He]. exfalso. rewrite Hiso in He.
           destruct sentAt as [sent|]; [|discriminate He].
           destruct (Timestamp.skew_corrected L ts now sent); discriminate He.
        -- intros [_ (ts' & [= <-] & Hp')]. congruence.
      * rewrite (fromISO_unparsable L ts Hp).
        unfold Timestamp.skew_corrected. rewrite (fromISO_unparsable L ts Hp).
        unfold Luxon.invalidDateTime.
        destruct (Luxon.throwOnInvalid L) eqn:Ht.
        -- split; [intros _; split; [done|by exists ts]|].
           intros _. destruct sentAt as [sent|]; simpl; by eexists.
        -- split; [|by intros [? _]].
           intros [e He]. exfalso.
           destruct sentAt as [sent|]; [|discriminate He].
           simpl in He. unfold Luxon.diff, Luxon.invalidDuration in He.
           rewrite Ht in He. simpl in He.
           destruct now; simpl in He; discriminate He.
    + split; [|by intros [_ (ts & ? & _)]].
      intros [e He]. exfalso.
      destruct (Timestamp.offset_given data) as [o|] eqn:Ho; [|discriminate He].
      destruct now as [n|]; [|discriminate He].
      simpl in He. rewrite (ofMillis_in_range L _ (Hoff n o eq_refl eq_refl eq_refl)) in He.
      discriminate He.
  - intros ts t at_ Hts Hp _ _.
    unfold Timestamp.handleTimestamp, Timestamp.skew_corrected.
    rewrite Hts, (fromISO_sound L ts t Hp (Hparse ts t Hts Hp)). simpl.
    replace (at_ + (t - at_)) with t by lia.
    by rewrite (ofMillis_in_range L t (Hparse ts t Hts Hp)).
  - intros ts t sent Hts Hp _.
    unfold Timestamp.handleTimestamp, Timestamp.skew_corrected.
    by rewrite Hts, (fromISO_sound L ts t Hp (Hparse ts t Hts Hp)).
Qed.

(** The theorem at a strict library: an event whose timestamp does not parse
    throws, one with an offset only does not, and one whose timestamp
    parses resolves to it when [now] is [sent_at]. *)
Lemma handleTimestamp_throws_iff_witness :
  (exists e, Timestamp.handleTimestamp Timestamp.strict
               (Timestamp.mkPluginEvent (Some "yesterday") (Some 150))
               (Luxon.DtValid 1000) None = Js.Throw e)
  /\ ~ (exists e, Timestamp.handleTimestamp Timestamp.strict
                    (Timestamp.mkPluginEvent None (Some 150))
                    (Luxon.DtValid 1000) (Some Luxon.DtInvalid) = Js.Throw e)
  /\ Timestamp.handleTimestamp Timestamp.strict
       (Timestamp.mkPluginEvent (Some "2021-01-01T00:00:10.000Z") None)
       (Luxon.DtValid 5) (Some (Luxon.DtValid 5))
     = Js.Ok (Luxon.DtValid 1609459210000).
Proof.
  refine (conj _ (conj _ _)).
  - apply (handleTimestamp_throws_iff Timestamp.strict
             (Timestamp.mkPluginEvent (Some "yesterday") (Some 150))
             (Luxon.DtValid 1000) None).
    + intros ts t [= <-]. discriminate.
    + intros n o. discriminate.
    + split; [reflexivity|]. by exists "yesterday".
  - intros Hthrow.
    apply (handleTimestamp_throws_iff Timestamp.strict
             (Timestamp.mkPluginEvent None (Some 150))
             (Luxon.DtValid 1000) (Some Luxon.DtInvalid)) in Hthrow.
    + destruct Hthrow as [_ (ts & Hts & _)]. discriminate Hts.
    + intros ts t. discriminate.
    + intros n o _ [= <-] [= <-]. reflexivity.
  - apply (handleTimestamp_throws_iff Timestamp.strict
             (Timestamp.mkPluginEvent (Some "2021-01-01T00:00:10.000Z") None)
             (Luxon.DtValid 5) (Some (Luxon.DtValid 5))
             ) with (ts := "2021-01-01T00:00:10.000Z"); try reflexivity.
    + intros ts t [= <-] [= <-]. reflexivity.
    + intros n o. discriminate.
Defined.

(** ** The properties a merge computes *)

Section MergeFacts.
Import Js Async Db EventsProcessor.

Lemma merge_properties_fold (others : list Person) (mergeInto : Person) (firstSeen : Z) :
  let r := fold_left
             (fun acc otherPerson =>
                let mergeInto := fst acc in
                let firstSeen := snd acc in
                ({| per_id := per_id mergeInto; per_uuid := per_uuid mergeInto;
                    per_team_id := per_team_id mergeInto;
                    per_created_at := per_created_at mergeInto;
                    per_properties :=
                      spread2 (per_properties otherPerson) (per_properties mergeInto);
                    per_is_user_id := per_is_user_id mergeInto;
                    per_is_identified := per_is_identified mergeInto |},
                 if per_created_at otherPerson <? firstSeen
                 then per_created_at otherPerson else firstSeen))
             others (mergeInto, firstSeen) in
  per_id (fst r) = per_id mergeInto
  /\ per_team_id (fst r) = per_team_id mergeInto
  /\ per_created_at (fst r) = per_created_at mergeInto
  /\ per_is_identified (fst r) = per_is_identified mergeInto
  /\ snd r = foldr Z.min firstSeen (per_created_at <$> others)
  /\ forall k, per_properties (fst r) !! k
               = head (omap (fun p => per_properties p !! k) (mergeInto :: others)).
Proof.
  revert mergeInto firstSeen. induction others as [|o others IH]; intros m f; simpl.
  - repeat split. intros k. by destruct (per_properties m !! k).
  - match goal with
    | |- context [fold_left ?g others (?m', ?f')] =>
        destruct (IH m' f') as (H1 & H2 & H3 & H4 & H5 & H6)
    end.
    simpl in *. rewrite H1, H2, H3, H4, H5.
    repeat split.
    + assert (forall l a b, foldr Z.min (Z.min a b) l = Z.min a (foldr Z.min b l)) as Hmin.
      { induction l as [|x l IHl]; intros a b; simpl; [done|]. rewrite IHl. lia. }
      destruct (Z.ltb_spec (per_created_at o) f).
      * rewrite <- (Z.min_l (per_created_at o) f) at 1 by lia. apply Hmin.
      * rewrite <- (Z.min_r (per_created_at o) f) at 1 by lia. apply Hmin.
    + intros k. rewrite H6. unfold spread2. rewrite lookup_union.
      destruct (per_properties m !! k), (per_properties o !! k); simpl; done.
Qed.

End MergeFacts.

(** X29.  The merge that [mergePeople] computes before it writes: the
    target keeps its identity; the first-seen time is the earliest
    [created_at] of the target and the merged persons; and key by key
    the merged properties take the value of the first person that has
    the key, the target first and then the merged persons in order, so
    the target's own values are never overwritten. *)
Theorem merge_properties_first_wins (mergeInto : Db.Person)
    (peopleToMerge : list Db.Person) :
  let merged := EventsProcessor.merge_properties mergeInto peopleToMerge in
  Db.per_id (fst merged) = Db.per_id mergeInto
  /\ Db.per_team_id (fst merged) = Db.per_team_id mergeInto
  /\ snd merged
     = foldr Z.min (Db.per_created_at mergeInto) (Db.per_created_at <$> peopleToMerge)
  /\ (forall p, p ∈ mergeInto :: peopleToMerge -> snd merged <= Db.per_created_at p)
  /\ (forall k, Db.per_properties (fst merged) !! k
                = head (omap (fun p => Db.per_properties p !! k)
                          (mergeInto :: peopleToMerge)))
  /\ (forall k v, Db.per_properties mergeInto !! k = Some v ->
        Db.per_properties (fst merged) !! k = Some v).
Proof.
  intros merged.
  destruct (merge_properties_fold peopleToMerge mergeInto (Db.per_created_at mergeInto))
    as (H1 & H2 & _ & _ & H5 & H6).
  change (fold_left _ peopleToMerge (mergeInto, Db.per_created_at mergeInto))
    with merged in H1, H2, H5, H6.
  clearbody merged.
  refine (conj H1 (conj H2 (conj H5 (conj _ (conj H6 _))))).
  - rewrite H5. intros p Hp.
    assert (forall l a, foldr Z.min a l <= a
                        /\ forall x, x ∈ l -> foldr Z.min a l <= x) as Hmin.
    { induction l as [|y l IHl]; intros a; simpl.
      - split; [lia|]. intros x Hx. by apply elem_of_nil in Hx.
      - destruct (IHl a) as [Ha Hl]. split; [lia|].
        intros x Hx. apply elem_of_cons in Hx as [->|Hx]; [lia|].
        specialize (Hl x Hx). lia. }
    destruct (Hmin (Db.per_created_at <$> peopleToMerge) (Db.per_created_at mergeInto))
      as [Ha Hl].
    apply elem_of_cons in Hp as [->|Hp]; [done|].
    apply Hl. apply list_elem_of_fmap. by exists p.
  - intros k v Hk. rewrite H6. simpl. by rewrite Hk.
Qed.
